(** * BanyanDB part storage: a shallow embedding and its properties

    The development follows the Go packages of the repository:
    - [Errors]  : Go error values, [errors.Is] against [io.EOF], [fmt.Errorf "%w"];
    - [Fadvis]  : banyand/fadvis/helper.go (threshold registry, [ApplyIfLarge]);
    - [Common]  : the [ChunkIDs] helper ([HashIntersect]);
    - [Heap]    : Go's container/heap, as [blockReader] uses it;
    - [Measure] : banyand/measure/block_reader.go ([seqReader], [blockReader]);
    - [Filepath]: Go's path/filepath on Unix ([Clean], [Join], [Base], [Ext]);
    - [Stream]  : banyand/stream/part.go ([memPart], [partWrapper], flush/open).

    The definitions come first, module by module; the properties follow. *)

From stdpp Require Import base numbers list sorting gmap strings.
From Stdlib Require Import ZArith Lia Ascii.

Local Open Scope Z_scope.

(** ** Go error values *)

Module Errors.

(** An error is the sentinel [io.EOF], the sentinel [io.ErrUnexpectedEOF],
    some other failure described by a message, or an error wrapping another
    one (the result of [fmt.Errorf("...: %w", err)]). *)
Inductive error : Type :=
  | EOF
  | ErrUnexpectedEOF
  | Other (msg : string)
  | Wrap (msg : string) (inner : error).

(** [errors.Is(err, io.EOF)]: walks the [Unwrap] chain looking for the
    sentinel. *)
Fixpoint is_eof (e : error) : bool :=
  match e with
  | EOF => true
  | ErrUnexpectedEOF => false
  | Other _ => false
  | Wrap _ inner => is_eof inner
  end.

(** [errors.Is(err, io.EOF)] on a possibly nil error. *)
Definition errors_Is_EOF (err : option error) : bool :=
  match err with
  | Some e => is_eof e
  | None => false
  end.

(** [err == io.EOF], the identity comparison used inside [io.ReadAtLeast]. *)
Definition eq_EOF (e : error) : bool :=
  match e with
  | EOF => true
  | _ => false
  end.

End Errors.

(** ** banyand/fadvis/helper.go *)

Module Fadvis.

(** The process-wide state the helper touches: the atomic threshold, the
    sizes [os.Stat] reports for the paths that exist, and the trace of
    paths on which the cache-hint utility [fadvis.Apply] was invoked
    (most recent call last). *)
Record world : Type := mkWorld {
  LargeFileThreshold : Z;
  stat : string -> option Z;
  hinted : list string
}.

(** [init()]: default 64MB. *)
Definition init (st : string -> option Z) : world :=
  mkWorld (64 * 1024 * 1024) st [].

Definition SetThreshold (threshold : Z) (w : world) : world :=
  if 0 <? threshold
  then mkWorld threshold (stat w) (hinted w)
  else w.

Definition GetThreshold (w : world) : Z := LargeFileThreshold w.

(** [fadvis.Apply(filePath)]: the call is recorded; its error is only
    logged by the caller. *)
Definition Apply (filePath : string) (w : world) : world :=
  mkWorld (LargeFileThreshold w) (stat w) (hinted w ++ [filePath]).

Definition ApplyIfLarge (filePath : string) (w : world) : world :=
  match stat w filePath with
  | Some size =>
      let threshold := LargeFileThreshold w in
      if threshold <? size then Apply filePath w else w
  | None => w
  end.

End Fadvis.

(** ** The ChunkIDs helper *)

Module Common.

(** [ChunkID] is a [uint64]; only equality of identifiers is used. *)
Abbreviation ChunkID := Z (only parsing).
Abbreviation ChunkIDs := (list Z) (only parsing).

(** The [hash] map built by the first loop: the set of items of [c]. *)
Definition hash_of (c : ChunkIDs) : gset Z :=
  foldl (fun (h : gset Z) (item : ChunkID) => {[ item ]} ∪ h) ∅ c.

(** The second loop: [append] every item of [other] found in [hash]. *)
Definition collect (hash : gset Z) (other : ChunkIDs) : ChunkIDs :=
  foldl (fun (intersection : ChunkIDs) (item : ChunkID) =>
           if decide (item ∈ hash) then intersection ++ [item] else intersection)
        [] other.

Definition HashIntersect (c other : ChunkIDs) : ChunkIDs :=
  if ((length c =? 0)%nat || (length other =? 0)%nat)%bool
  then []
  else collect (hash_of c) other.

End Common.

(** ** Go's container/heap over a slice *)

Module Heap.
Section Heap.
Context {A : Type}.
(** [less] is the element order behind [h.Less(i, j)]. *)
Variable less : A -> A -> bool.

(** [h.Less(i, j)]: compares the elements at two positions. *)
Definition Less (h : list A) (i j : nat) : bool :=
  match h !! i, h !! j with
  | Some x, Some y => less x y
  | _, _ => false
  end.

(** [h.Swap(i, j)]. *)
Definition Swap (h : list A) (i j : nat) : list A :=
  match h !! i, h !! j with
  | Some x, Some y => <[i := y]> (<[j := x]> h)
  | _, _ => h
  end.

(** The loop of [down(h, i0, n)]: one unfolding per iteration; every
    iteration that does not break moves [i] to one of its children, so [n]
    iterations are never exceeded. Returns the slice and the final [i]. *)
Fixpoint down_loop (fuel : nat) (h : list A) (i n : nat) : list A * nat :=
  match fuel with
  | O => (h, i)
  | S fuel' =>
      let j1 := (2 * i + 1)%nat in
      if (n <=? j1)%nat then (h, i)
      else
        let j2 := (j1 + 1)%nat in
        let j := if ((j2 <? n)%nat && Less h j2 j1)%bool then j2 else j1 in
        if negb (Less h j i) then (h, i)
        else down_loop fuel' (Swap h i j) j n
  end.

(** [down(h, i0, n)] returns whether the element moved ([i > i0]). *)
Definition down (h : list A) (i0 n : nat) : list A * bool :=
  let '(h', i) := down_loop n h i0 n in (h', (i0 <? i)%nat).

(** The loop of [up(h, j)]; the parent of [0] is [0] (Go's [(0-1)/2]
    truncates to [0], as does the subtraction on [nat]). *)
Fixpoint up_loop (fuel : nat) (h : list A) (j : nat) : list A :=
  match fuel with
  | O => h
  | S fuel' =>
      let i := ((j - 1) / 2)%nat in
      if ((i =? j)%nat || negb (Less h j i))%bool then h
      else up_loop fuel' (Swap h i j) i
  end.

Definition up (h : list A) (j : nat) : list A := up_loop (S j) h j.

(** [heap.Init(h)]: [for i := n/2 - 1; i >= 0; i-- { down(h, i, n) }]. *)
Definition Init (h : list A) : list A :=
  let n := length h in
  foldl (fun h i => fst (down h i n)) h (rev (seq 0 (n / 2))).

(** [heap.Fix(h, i)]. *)
Definition Fix (h : list A) (i : nat) : list A :=
  let '(h', moved) := down h i (length h) in
  if moved then h' else up h' i.

(** [heap.Pop(h)] together with the slice's own [Pop] (which removes and
    returns the last element). [None] stands for the index panic on an
    empty heap. *)
Definition Pop (h : list A) : option (A * list A) :=
  match h with
  | [] => None
  | _ :: _ =>
      let n := (length h - 1)%nat in
      let h1 := Swap h 0 n in
      let h2 := fst (down h1 0 n) in
      match h2 !! n with
      | Some v => Some (v, take n h2)
      | None => None
      end
  end.

(** The heap order. [le x y]: [x] does not come after [y]. *)
Definition le (x y : A) : Prop := less y x = false.

(** [c] is a child of position [p]. *)
Definition child (p c : nat) : Prop := (c = 2 * p + 1 \/ c = 2 * p + 2)%nat.

(** Position [p] is in order with its children below [n]. *)
Definition ok_at (n : nat) (h : list A) (p : nat) : Prop :=
  forall c x y, child p c -> (c < n)%nat ->
    h !! p = Some x -> h !! c = Some y -> le x y.

(** The slice is a binary min-heap. *)
Definition heap_ok (h : list A) : Prop := forall p, ok_at (length h) h p.

End Heap.
End Heap.

(** ** banyand/measure/block_reader.go *)

Module Measure.
Import Errors.

(** *** The sequential stream behind a [seqReader] *)

(** An [fs.SeqReader] is described by what its successive [Read] calls can
    deliver: the chunks of bytes still to come (a [Read] delivers at most
    one chunk, or the part of it that fits the buffer), and the error
    [Read] returns once nothing is left ([io.EOF] for a clean end). *)
Record SeqReader : Type := mkSeqReader {
  chunks : list (list Byte.byte);
  at_end : error
}.

(** The loop of [io.ReadAtLeast(r, buf, min)] with [min = len(buf)], as
    [io.ReadFull] calls it: [for n < min && err == nil { nn, err =
    r.Read(buf[n:]); n += nn }]. [need] is [min - n]; the result is the
    bytes stored in [buf[:n]], the error of the last [Read], and the chunks
    left in the stream. *)
Fixpoint read_loop (at_end : error) (pending : list (list Byte.byte))
    (need : nat) (got : list Byte.byte)
  : list Byte.byte * option error * list (list Byte.byte) :=
  match need with
  | O => (got, None, pending)
  | S _ =>
      match pending with
      | [] => (got, Some at_end, [])
      | c :: rest =>
          if (length c <=? need)%nat
          then read_loop at_end rest (need - length c) (got ++ c)
          else (got ++ take need c, None, drop need c :: rest)
      end
  end.

(** [io.ReadFull(r, buf)]: after the loop, [if n >= min { err = nil } else
    if n > 0 && err == EOF { err = ErrUnexpectedEOF }]. *)
Definition ReadFull (r : SeqReader) (len_buf : nat)
  : list Byte.byte * option error * SeqReader :=
  let '(got, err, rest) := read_loop (at_end r) (chunks r) len_buf [] in
  let n := length got in
  let err' :=
    if (len_buf <=? n)%nat then None
    else match err with
         | Some e => if ((0 <? n)%nat && eq_EOF e)%bool
                     then Some ErrUnexpectedEOF else Some e
         | None => None
         end in
  (got, err', mkSeqReader rest (at_end r)).

(** [seqReader]; the random-access reader [r] plays no part in reading
    sequentially and is left out. *)
Record seqReader : Type := mkseqReader {
  sr : option SeqReader;
  bytesRead : Z;
  filePath : string;
  fileSize : Z;
  isLargeFile : bool
}.

(** What a call leaves behind: it returns, or [logger.Panicf] fires. *)
Inductive outcome (S : Type) : Type :=
  | Returned (s : S)
  | Panicked (msg : string).
Arguments Returned {S} s.
Arguments Panicked {S} msg.

Definition wrap64 (x : Z) : Z := x mod 2 ^ 64.

(** [mustReadFull(data)]: returns the reader and the contents of [data]
    after the call. With a nil [sr.sr] the first [Read] is a nil
    dereference; no [Read] is made for an empty [data]. *)
Definition mustReadFull (s : seqReader) (data : list Byte.byte)
  : outcome (seqReader * list Byte.byte) :=
  match sr s with
  | None =>
      match data with
      | [] => Returned (s, data)
      | _ :: _ => Panicked "nil sequential reader"
      end
  | Some r =>
      let '(got, err, r') := ReadFull r (length data) in
      let n := length got in
      let data' := got ++ drop n data in
      let s' := mkseqReader (Some r') (bytesRead s) (filePath s) (fileSize s) (isLargeFile s) in
      match err with
      | Some e =>
          if is_eof e then Returned (s', data')
          else Panicked "cannot read data"
      | None =>
          if negb (n =? length data)%nat then Panicked "cannot read full data"
          else Returned
                 (mkseqReader (Some r') (wrap64 (bytesRead s + Z.of_nat n))
                              (filePath s) (fileSize s) (isLargeFile s),
                  data')
      end
  end.

(** *** The merge reader *)

(** Modelled from the spec: the block descriptor ([blockMetadata]) is
    declared outside the source at hand; it carries the series identifier
    the block belongs to, the block's timestamp range and its element
    count. *)
Record blockMetadata : Type := mkBlockMetadata {
  seriesID : Z;
  minTimestamp : Z;
  maxTimestamp : Z;
  count : Z
}.

(** Modelled from the spec: [blockMetadata.less], the order of the merge
    queue, is not in the source at hand; the sort key is (series
    identifier, timestamp). *)
Definition less (a b : blockMetadata) : bool :=
  if seriesID a =? seriesID b
  then minTimestamp a <? minTimestamp b
  else seriesID a <? seriesID b.

(** Modelled from the spec: [partMergeIter] is not in the source at hand.
    A per-segment iterator exposes "advance to the next block descriptor"
    and "current block"; its exhaustion is either a natural end or due to
    an error. [upcoming] are the descriptors the segment still holds,
    [failure] the error that ends the iteration ([None] for a natural end),
    [err] the error recorded by the last advance. *)
Record partMergeIter : Type := mkPartMergeIter {
  block : blockMetadata;
  upcoming : list blockMetadata;
  failure : option error;
  pmi_err : option error
}.

Definition zeroBlock : blockMetadata := mkBlockMetadata 0 0 0 0.

(** An iterator freshly initialised over the descriptors [bs]. *)
Definition newPartMergeIter (bs : list blockMetadata) (fl : option error) : partMergeIter :=
  mkPartMergeIter zeroBlock bs fl None.

(** [pi.nextBlockMetadata()]: the result and the iterator after the call. *)
Definition pmi_nextBlockMetadata (pi : partMergeIter) : bool * partMergeIter :=
  match upcoming pi with
  | b :: rest => (true, mkPartMergeIter b rest (failure pi) (pmi_err pi))
  | [] =>
      (false, mkPartMergeIter (block pi) [] (failure pi)
                (Some (default EOF (failure pi))))
  end.

(** [pi.error()]: a natural end is not an error. *)
Definition pmi_error (pi : partMergeIter) : option error :=
  match pmi_err pi with
  | Some e => if is_eof e then None else Some e
  | None => None
  end.

(** [partMergeIterHeap.Less]: [x[i].block.bm.less(&x[j].block.bm)]. *)
Definition pih_less (x y : partMergeIter) : bool := less (block x) (block y).

Record blockReader : Type := mkBlockReader {
  err : option error;
  br_block : option blockMetadata;
  pih : list partMergeIter;
  nextBlockNoop : bool
}.

Definition reset (br : blockReader) : blockReader :=
  mkBlockReader None None [] false.

(** [&br.pih[0].block], read at the time it is taken. *)
Definition head_block (h : list partMergeIter) : option blockMetadata :=
  block <$> h !! 0%nat.

(** The text of [fmt.Errorf("can't get the block to merge: %w", err)]. *)
Definition merge_msg : string := "can't get the block to merge".

(** The [for _, pi := range pii] loop of [init]: [inl] is the early
    [return] with [br.err] set, [inr] the end of the loop. *)
Fixpoint init_loop (pii : list partMergeIter) (br : blockReader)
  : blockReader + blockReader :=
  match pii with
  | [] => inr br
  | pi :: pii' =>
      let '(ok, pi') := pmi_nextBlockMetadata pi in
      if ok
      then init_loop pii' (mkBlockReader (err br) (br_block br) (pih br ++ [pi']) (nextBlockNoop br))
      else
        match pmi_error pi' with
        | Some e =>
            inl (mkBlockReader (Some (Wrap merge_msg e))
                               (br_block br) (pih br) (nextBlockNoop br))
        | None => init_loop pii' br
        end
  end.

Definition init (br : blockReader) (pii : list partMergeIter) : blockReader :=
  match init_loop pii (reset br) with
  | inl br' => br'
  | inr br' =>
      if (length (pih br') =? 0)%nat
      then mkBlockReader (Some EOF) (br_block br') (pih br') (nextBlockNoop br')
      else
        let h := Heap.Init pih_less (pih br') in
        mkBlockReader (err br') (head_block h) h true
  end.

(** [nextMetadata]: the returned error and the reader after the call;
    [Panicked] is the index panic of [br.pih[0]] on an empty queue. *)
Definition nextMetadata (br : blockReader) : outcome (option error * blockReader) :=
  match pih br with
  | [] => Panicked "index out of range"
  | head :: tl =>
      let '(ok, head') := pmi_nextBlockMetadata head in
      let h := head' :: tl in
      if ok then
        let h' := Heap.Fix pih_less h 0 in
        Returned (None, mkBlockReader (err br) (head_block h') h' (nextBlockNoop br))
      else
        match pmi_error head' with
        | Some e => Returned (Some e, mkBlockReader (err br) None h (nextBlockNoop br))
        | None =>
            match Heap.Pop pih_less h with
            | None => Panicked "index out of range"
            | Some (_, h') =>
                if (length h' =? 0)%nat
                then Returned (Some EOF, mkBlockReader (err br) None h' (nextBlockNoop br))
                else Returned (None, mkBlockReader (err br) (head_block h') h' (nextBlockNoop br))
            end
        end
  end.

Definition set_err (e : option error) (br : blockReader) : blockReader :=
  mkBlockReader e (br_block br) (pih br) (nextBlockNoop br).

Definition nextBlockMetadata (br : blockReader) : outcome (bool * blockReader) :=
  match err br with
  | Some _ => Returned (false, br)
  | None =>
      if nextBlockNoop br
      then Returned (true, mkBlockReader (err br) (br_block br) (pih br) false)
      else
        match nextMetadata br with
        | Panicked msg => Panicked msg
        | Returned (e, br') =>
            match e with
            | Some e' =>
                if is_eof e' then Returned (false, set_err (Some e') br')
                else Returned (false, set_err (Some (Wrap merge_msg e')) br')
            | None => Returned (true, set_err None br')
            end
        end
  end.

(** [br.error()]. *)
Definition error_of (br : blockReader) : option error :=
  if errors_Is_EOF (err br) then None else err br.

(** The caller's loop [for br.nextBlockMetadata() { ... *br.block ... }]:
    the descriptors seen, in order, and the reader once the call has
    returned false. [fuel] bounds the number of calls; [None] when the fuel
    does not suffice or a call panics. *)
Fixpoint drain (fuel : nat) (br : blockReader)
  : option (list blockMetadata * blockReader) :=
  match fuel with
  | O => None
  | S fuel' =>
      match nextBlockMetadata br with
      | Panicked _ => None
      | Returned (false, br') => Some ([], br')
      | Returned (true, br') =>
          match br_block br', drain fuel' br' with
          | Some b, Some (out, br'') => Some (b :: out, br'')
          | _, _ => None
          end
      end
  end.

(** The whole merge: [init] followed by the caller's loop. The fuel is
    one call per descriptor of the input plus the final call. *)
Definition total_blocks (pii : list partMergeIter) : nat :=
  length (pii ≫= upcoming).

Definition merge (pii : list partMergeIter)
  : option (list blockMetadata * blockReader) :=
  drain (S (total_blocks pii)) (init (mkBlockReader None None [] false) pii).

(** *** Vocabulary of the merge properties *)

(** Ascending order by (series identifier, timestamp): [a] does not come
    after [b]. *)
Definition block_le (a b : blockMetadata) : Prop := less b a = false.

(** The iterator's exhaustion will be an error rather than a natural end. *)
Definition fails (it : partMergeIter) : bool :=
  match failure it with
  | Some e => negb (is_eof e)
  | None => false
  end.

(** The descriptors an iterator in the queue still stands for: its current
    block and the ones to come. *)
Definition remaining (it : partMergeIter) : list blockMetadata :=
  block it :: upcoming it.

Definition contents (h : list partMergeIter) : list blockMetadata :=
  h ≫= remaining.

(** The iterators [init] puts in the queue: those with a first block,
    advanced once. *)
Definition advanced (pii : list partMergeIter) : list partMergeIter :=
  omap (fun pi => match upcoming pi with
                  | b :: rest => Some (mkPartMergeIter b rest (failure pi) (pmi_err pi))
                  | [] => None
                  end) pii.

(** A descriptor with the given series identifier and timestamp. *)
Definition bm (sid ts : Z) : blockMetadata := mkBlockMetadata sid ts ts 1.

(** Four segments, one of them empty, used to run the merge. *)
Definition example_iters : list partMergeIter :=
  [newPartMergeIter [bm 1 1; bm 1 5; bm 3 0] None;
   newPartMergeIter [] None;
   newPartMergeIter [bm 1 2; bm 2 7] None;
   newPartMergeIter [bm 0 9; bm 1 5; bm 9 9] None].

(** Two segments, the second of which fails before its first block. *)
Definition example_failing_at_init : list partMergeIter :=
  [newPartMergeIter [bm 1 1] None;
   newPartMergeIter [] (Some (Other "open failure"))].

(** Two segments, the second of which fails after its first block. *)
Definition example_failing_iters : list partMergeIter :=
  [newPartMergeIter [bm 1 1; bm 4 4] None;
   newPartMergeIter [bm 2 2] (Some (Other "read failure"))].

End Measure.

(** ** Go's path/filepath on Unix *)

Module Filepath.

(** [os.IsPathSeparator]. *)
Definition IsPathSeparator (c : ascii) : bool := Ascii.eqb c "/"%char.

(** The elements of a path between separators, empty ones dropped. [acc]
    is the element read so far. *)
Fixpoint elements_go (acc : string) (s : string) : list string :=
  match s with
  | EmptyString => if String.eqb acc "" then [] else [acc]
  | String c s' =>
      if IsPathSeparator c
      then (if String.eqb acc "" then [] else [acc]) ++ elements_go "" s'
      else elements_go (acc +:+ String c "") s'
  end.

Definition elements (s : string) : list string := elements_go "" s.

(** Whether the path begins with a separator. *)
Definition rooted (s : string) : bool :=
  match s with
  | String c _ => IsPathSeparator c
  | EmptyString => false
  end.

(** One element pushed on the elements kept so far (last kept first):
    a [.] is dropped; a [..] removes the element before it, is dropped at
    the root, and is kept at the start of a relative path. *)
Definition clean_step (r : bool) (stack : list string) (c : string) : list string :=
  if String.eqb c "." then stack
  else if String.eqb c ".." then
    match stack with
    | [] => if r then [] else [".."]
    | top :: stack' => if String.eqb top ".." then ".." :: stack else stack'
    end
  else c :: stack.

Definition clean_elements (r : bool) (cs : list string) : list string :=
  reverse (foldl (clean_step r) [] cs).

(** The elements joined by single separators. *)
Fixpoint join_elements (cs : list string) : string :=
  match cs with
  | [] => ""
  | [c] => c
  | c :: cs' => c +:+ "/" +:+ join_elements cs'
  end.

Definition render (r : bool) (cs : list string) : string :=
  match cs with
  | [] => if r then "/" else "."
  | _ :: _ => (if r then "/" else "") +:+ join_elements cs
  end.

(** [filepath.Clean] (and [path.Clean]), by what its documentation says it
    returns: multiple separators become one, [.] elements are eliminated,
    inner [..] elements are eliminated with the element before them, [..]
    elements that begin a rooted path are eliminated, the result ends in
    a separator only if it is the root, and an empty result is [.]. *)
Definition Clean (s : string) : string :=
  if String.eqb s "" then "."
  else render (rooted s) (clean_elements (rooted s) (elements s)).

(** [filepath.Join(a, b)] (and [path.Join(a, b)]): empty elements are
    ignored, the rest is joined by separators and cleaned; the result is
    empty when both elements are. *)
Definition Join (a b : string) : string :=
  if String.eqb a "" then (if String.eqb b "" then "" else Clean b)
  else Clean (a +:+ "/" +:+ b).

(** The characters after the last separator; [acc] is what has been read
    since the last one. *)
Fixpoint last_element_go (acc : string) (s : string) : string :=
  match s with
  | EmptyString => acc
  | String c s' =>
      if IsPathSeparator c then last_element_go "" s'
      else last_element_go (acc +:+ String c "") s'
  end.

(** The path without its trailing separators. *)
Fixpoint strip_trailing (s : string) : string :=
  match s with
  | EmptyString => ""
  | String c s' =>
      let t := strip_trailing s' in
      if (IsPathSeparator c && String.eqb t "")%bool then "" else String c t
  end.

(** [filepath.Base]. *)
Definition Base (path : string) : string :=
  if String.eqb path "" then "."
  else
    let e := last_element_go "" (strip_trailing path) in
    if String.eqb e "" then "/" else e.

(** The scan of [filepath.Ext] from the end of the path: [r] is the path
    reversed, [acc] the characters passed. *)
Fixpoint ext_scan (r : list ascii) (acc : list ascii) : list ascii :=
  match r with
  | [] => []
  | c :: r' =>
      if IsPathSeparator c then []
      else if Ascii.eqb c "."%char then c :: acc
      else ext_scan r' (c :: acc)
  end.

(** [filepath.Ext]. *)
Definition Ext (path : string) : string :=
  String.string_of_list_ascii (ext_scan (rev (String.list_ascii_of_string path)) []).

(** Whether a separator occurs in the string. *)
Fixpoint has_separator (s : string) : bool :=
  match s with
  | EmptyString => false
  | String c s' => (IsPathSeparator c || has_separator s')%bool
  end.

(** A name that can stand for one element of a path. *)
Definition plain (n : string) : Prop := n <> "" /\ has_separator n = false.

(** A name that [Clean] leaves alone. *)
Definition proper (n : string) : Prop := n <> "." /\ n <> "..".

(** The elements kept are in normal form: names on top of the [..] that
    begin a relative path. *)
Definition normal (r : bool) (stack : list string) : Prop :=
  exists names k, stack = names ++ replicate k ".." /\
                  Forall proper names /\ (r = true -> k = 0%nat).

(** A path is settled when it is a rendering of clean plain elements
    ending in the plain, proper name [last]. *)
Definition settled (d last : string) : Prop :=
  exists r cs, d = render r (cs ++ [last]) /\
               Forall plain cs /\ clean_elements r cs = cs.

End Filepath.

(** ** banyand/stream/part.go: building blocks from a batch *)

Module Stream.
Import Measure.

(** [common.SeriesID] is a [uint64], timestamps are [int64]. *)
Abbreviation SeriesID := Z (only parsing).

(** Modelled from the spec: [tagValue.size()] is not in the source at
    hand; it is the serialized size of a tag value. *)
Record tagValue : Type := mkTagValue {
  tagValue_size : N
}.

(** [tagValues]: the tag name and the values carried for it. *)
Record tagValues : Type := mkTagValues {
  tag : string;
  values : list tagValue
}.

(** Modelled from the spec: the [elements] batch is declared outside the
    source at hand; it is a batch of rows each carrying (series identifier,
    timestamp, element identifier, per-tag-family values). Position [i] of
    the batch stands for [es.seriesIDs[i]], [es.timestamps[i]],
    [es.elementIDs[i]] and [es.tagFamilies[i]]. *)
Record element : Type := mkElement {
  e_seriesID : SeriesID;
  e_timestamp : Z;
  e_elementID : Z;
  e_tagFamilies : list tagValues
}.

Abbreviation elements := (list element) (only parsing).

(** Modelled from the spec: the order of [sort.Sort(es)] is by series
    identifier, then timestamp. *)
Definition element_less (a b : element) : bool :=
  if e_seriesID a =? e_seriesID b
  then e_timestamp a <? e_timestamp b
  else e_seriesID a <? e_seriesID b.

(** An insertion sort by that order. [sort.Sort] itself is a parameter of
    the builder below; this is one sort it may behave as (rows with equal
    keys may come out of [sort.Sort] in another order), used to run the
    builder. *)
Fixpoint sort_insert (x : element) (l : list element) : list element :=
  match l with
  | [] => [x]
  | y :: l' => if element_less y x then y :: sort_insert x l' else x :: y :: l'
  end.

Definition sort_elements (es : list element) : list element :=
  foldr sort_insert [] es.

(** [uncompressedElementSizeBytes(index, es)] for the row at [index]: 8
    bytes for the timestamp, 8 for the element identifier, then the length
    of every tag name and the size of every value, summed in [uint64]. *)
Definition tagValues_size (n : Z) (tv : tagValues) : Z :=
  foldl (fun n v => wrap64 (n + Z.of_N (tagValue_size v)))
        (wrap64 (n + Z.of_nat (String.length (tag tv)))) (values tv).

Definition uncompressedElementSizeBytes (e : element) : Z :=
  foldl tagValues_size (8 + 8) (e_tagFamilies e).

(** What [bsw.MustWriteElements(sid, timestamps, elementIDs, tagFamilies)]
    is handed: the series identifier the block is written under and the
    rows of the slice [indexPrev:i]. *)
Record writtenBlock : Type := mkWrittenBlock {
  wb_sid : SeriesID;
  wb_rows : list element
}.

(** [es[a:b]]. *)
Definition slice {T} (a b : nat) (l : list T) : list T := take (b - a) (drop a l).

Section Builder.
(** The constant [maxUncompressedBlockSize] is declared outside the source
    at hand: the fixed maximum uncompressed block size of the spec. *)
Variable maxUncompressedBlockSize : Z.

(** [sort.Sort(es)] of Go's library, with [elements.Less] the order above:
    the batch with its rows moved into ascending order. The library's
    algorithm is not stable, so the order in which rows with equal keys
    come out is the library's choice; the properties assume of the result
    only that it holds the rows of the batch in ascending order. *)
Variable sort_Sort : list element -> list element.

(** The state of the [for i := range es.timestamps] loop. *)
Record loopState : Type := mkLoopState {
  sidPrev : SeriesID;
  uncompressedBlockSizeBytes : Z;
  indexPrev : nat;
  written : list writtenBlock
}.

(** One iteration of the loop, at index [i] with row [e = es[i]]. *)
Definition loop_step (es : list element) (i : nat) (e : element)
    (st : loopState) : loopState :=
  let sid := e_seriesID e in
  let sidPrev0 := if sidPrev st =? 0 then sid else sidPrev st in
  if ((maxUncompressedBlockSize <=? uncompressedBlockSizeBytes st)
      || negb (sid =? sidPrev0))%bool
  then
    mkLoopState sid
      (wrap64 (0 + uncompressedElementSizeBytes e))
      i
      (written st ++ [mkWrittenBlock sidPrev0 (slice (indexPrev st) i es)])
  else
    mkLoopState sidPrev0
      (wrap64 (uncompressedBlockSizeBytes st + uncompressedElementSizeBytes e))
      (indexPrev st)
      (written st).

(** The loop over the rows from index [i] on. *)
Fixpoint loop (es : list element) (rest : list element) (i : nat)
    (st : loopState) : loopState :=
  match rest with
  | [] => st
  | e :: rest' => loop es rest' (S i) (loop_step es i e st)
  end.

(** [mustInitFromElements(es)]: the blocks handed to the block writer, in
    order. An empty batch writes nothing. *)
Definition mustInitFromElements (es : list element) : list writtenBlock :=
  if (length es =? 0)%nat then []
  else
    let es' := sort_Sort es in
    let st := loop es' es' 0 (mkLoopState 0 0 0 []) in
    written st ++ [mkWrittenBlock (sidPrev st) (drop (indexPrev st) es')].

(** The same loop with the rows of the current block carried along
    instead of the index [indexPrev] they start at: [cur] is
    [es[indexPrev:i]] and [rest] is [es[i:]]; the result includes the final
    [MustWriteElements] of the rows left. *)
Fixpoint blocks_from (rest : list element) (sidPrev : SeriesID) (size : Z)
    (cur : list element) : list writtenBlock :=
  match rest with
  | [] => [mkWrittenBlock sidPrev cur]
  | e :: rest' =>
      let sid := e_seriesID e in
      let sidPrev0 := if sidPrev =? 0 then sid else sidPrev in
      if ((maxUncompressedBlockSize <=? size) || negb (sid =? sidPrev0))%bool
      then mkWrittenBlock sidPrev0 cur ::
             blocks_from rest' sid (wrap64 (0 + uncompressedElementSizeBytes e)) [e]
      else blocks_from rest' sidPrev0
             (wrap64 (size + uncompressedElementSizeBytes e)) (cur ++ [e])
  end.

End Builder.

(** Ascending order of rows by (series identifier, timestamp). *)
Definition element_le (a b : element) : Prop := element_less b a = false.

(** Every row of a block belongs to the series the block is written under. *)
Definition single_series (b : writtenBlock) : Prop :=
  Forall (fun e => e_seriesID e = wb_sid b) (wb_rows b).

(** The uncompressed size of a run of rows. *)
Definition rows_size (rows : list element) : Z :=
  foldr (fun e n => uncompressedElementSizeBytes e + n) 0 rows.

(** A row with one tag family holding one value of the given size. *)
Definition row (sid ts : Z) (sz : N) : element :=
  mkElement sid ts 0 [mkTagValues "t" [mkTagValue sz]].

(** A batch with a row of series 0 followed by a row of series 5. *)
Definition batch_with_series_zero : list element := [row 0 1 0; row 5 2 0].

(** Two batches of one series for a cap of 2 MiB: in the first the first
    row alone is larger than the cap, in the second the last row is. *)
Definition batch_large_first : list element := [row 7 1 2097152; row 7 2 0].
Definition batch_large_last : list element := [row 7 1 0; row 7 2 2097152].

(** *** Reference counting: [partWrapper] *)

Definition wrap32 (x : Z) : Z := (x + 2 ^ 31) mod 2 ^ 32 - 2 ^ 31.

(** Modelled from the spec: [partMetadata] is declared outside the source
    at hand; it is the numeric ID, the block count, the row count and the
    minimum and maximum timestamp covered. *)
Record partMetadata : Type := mkPartMetadata {
  ID : Z;
  BlocksCount : Z;
  TotalCount : Z;
  MinTimestamp : Z;
  MaxTimestamp : Z
}.

(** Modelled from the spec: [primaryBlockMetadata] is declared outside the
    source at hand; one entry per block: the series identifier, the
    timestamp range, and the offset and size into the primary stream. *)
Record primaryBlockMetadata : Type := mkPrimaryBlockMetadata {
  pbm_seriesID : Z;
  pbm_minTimestamp : Z;
  pbm_maxTimestamp : Z;
  pbm_offset : Z;
  pbm_size : Z
}.

(** [memPart]: a [bytes.Buffer] is the bytes it holds. *)
Record memPart : Type := mkMemPart {
  mp_tagFamilyMetadata : gmap string (list Byte.byte);
  mp_tagFamilies : gmap string (list Byte.byte);
  mp_meta : list Byte.byte;
  mp_primary : list Byte.byte;
  mp_timestamps : list Byte.byte;
  mp_partMetadata : partMetadata
}.

(** [part]: an [fs.Reader] is the bytes it reads; [p_fileSystem] tells
    whether [fileSystem] is non-nil. *)
Record part : Type := mkPart {
  p_primary : list Byte.byte;
  p_timestamps : list Byte.byte;
  p_fileSystem : bool;
  p_tagFamilyMetadata : gmap string (list Byte.byte);
  p_tagFamilies : gmap string (list Byte.byte);
  p_path : string;
  p_primaryBlockMetadata : list primaryBlockMetadata;
  p_partMetadata : partMetadata
}.

Record partWrapper : Type := mkPartWrapper {
  pw_mp : option memPart;
  pw_p : option part;
  ref : Z;
  removable : bool
}.

(** *** The file system and the cache-hint registry *)

(** Modelled from the spec: the [fs.FileSystem] collaborator is not in the
    source at hand; it provides directory create/list/remove, durable sync
    of a path, and file open/read/write. A file system is the nodes it
    holds by path, a directory or a file with its bytes. *)
Inductive node : Type :=
  | Dir
  | File (content : list Byte.byte).

(** What [mustFlush] and [mustOpenFilePart] act on: the files, the paths
    handed to [SyncPath] (most recent last), and the registry of
    banyand/fadvis with the hints applied. [dir_size] is the size
    [os.Stat] reports for a directory: it is the file system's business
    (a block on many of them) and may depend on what the file system
    holds. *)
Record world : Type := mkWorld {
  files : gmap string node;
  synced : list string;
  threshold : Z;
  hints : list string;
  dir_size : gmap string node -> string -> Z
}.

(** [fileSystem.MkdirPanicIfExist(path, perm)]. *)
Definition MkdirPanicIfExist (path : string) (w : world) : outcome world :=
  match files w !! path with
  | Some _ => Panicked "directory is exist"
  | None => Returned (mkWorld (<[path := Dir]> (files w)) (synced w) (threshold w)
                               (hints w) (dir_size w))
  end.

(** [fs.MustFlush(fileSystem, buf, name, perm)]: the file is created with
    the bytes of [buf]. *)
Definition MustFlush (buf : list Byte.byte) (name : string) (w : world) : world :=
  mkWorld (<[name := File buf]> (files w)) (synced w) (threshold w) (hints w)
          (dir_size w).

(** [fileSystem.SyncPath(path)]. *)
Definition SyncPath (path : string) (w : world) : world :=
  mkWorld (files w) (synced w ++ [path]) (threshold w) (hints w) (dir_size w).

(** [os.Stat(path)], as far as the size goes: the length of a file, the
    size the file system gives a directory; an error for a path that does
    not exist. *)
Definition stat_size (w : world) (path : string) : option Z :=
  match files w !! path with
  | Some (File c) => Some (Z.of_nat (length c))
  | Some Dir => Some (dir_size w (files w) path)
  | None => None
  end.

(** [fadvis.ApplyIfLarge(path)] on the registry of the world. *)
Definition ApplyIfLarge (path : string) (w : world) : world :=
  let fw := Fadvis.ApplyIfLarge path
              (Fadvis.mkWorld (threshold w) (stat_size w) (hints w)) in
  mkWorld (files w) (synced w) (Fadvis.LargeFileThreshold fw) (Fadvis.hinted fw)
          (dir_size w).

(** [mustOpenReader(name, fileSystem)]: the bytes of the file, a panic
    when it cannot be opened. *)
Definition mustOpenReader (name : string) (w : world) : outcome (list Byte.byte) :=
  match files w !! name with
  | Some (File c) => Returned c
  | _ => Panicked "cannot open"
  end.

(** The name under which a node lies directly in directory [d], if it
    does: the path is [d], a separator, and a non-empty name without
    separator. *)
Fixpoint strip_prefix (pre s : string) : option string :=
  match pre, s with
  | EmptyString, _ => Some s
  | String a pre', String b s' =>
      if Ascii.eqb a b then strip_prefix pre' s' else None
  | String _ _, EmptyString => None
  end.

Definition entry_name (d path : string) : option string :=
  match strip_prefix (d +:+ "/") path with
  | Some n => if (String.eqb n "" || Filepath.has_separator n)%bool then None else Some n
  | None => None
  end.

(** [fileSystem.ReadDir(d)]: the entries of the directory, by name. *)
Definition ReadDir (d : string) (w : world) : gmap string node :=
  map_fold (fun path nd (ee : gmap string node) =>
              match entry_name d path with
              | Some n => <[n := nd]> ee
              | None => ee
              end) ∅ (files w).

(** *** Flushing a memory part and opening a file part *)

Definition metadataFilename : string := "metadata.json".
Definition primaryFilename : string := "primary.bin".
Definition metaFilename : string := "meta.bin".
Definition timestampsFilename : string := "timestamps.bin".
Definition elementIndexFilename : string := "idx".
Definition tagFamiliesMetadataFilenameExt : string := ".tfm".
Definition tagFamiliesFilenameExt : string := ".tf".

(** The digits of [fmt.Sprintf("%x", v)], [n] of them, before [acc]. *)
Definition hex_digits : list ascii :=
  ["0"; "1"; "2"; "3"; "4"; "5"; "6"; "7"; "8"; "9";
   "a"; "b"; "c"; "d"; "e"; "f"]%char.

Definition hex_digit (d : Z) : ascii :=
  default "f"%char (hex_digits !! Z.to_nat d).

Fixpoint hex_go (n : nat) (v : Z) (acc : string) : string :=
  match n with
  | O => acc
  | S n' => hex_go n' (v / 16) (String (hex_digit (v mod 16)) acc)
  end.

(** [partName(epoch)]: [fmt.Sprintf("%016x", epoch)] for a [uint64]. *)
Definition partName (epoch : Z) : string := hex_go 16 (wrap64 epoch) "".

(** [partPath(root, epoch)]. *)
Definition partPath (root : string) (epoch : Z) : string :=
  Filepath.Join root (partName epoch).

(** [removeExt(nameWithExt, ext)]: [nameWithExt[:len(nameWithExt)-len(ext)]]. *)
Definition removeExt (nameWithExt ext : string) : string :=
  String.substring 0 (String.length nameWithExt - String.length ext) nameWithExt.

(** The names [mustFlush] writes under the directory of the part. *)
Definition flushed_name (mp : memPart) (x : string) : Prop :=
  x = metadataFilename \/ x = metaFilename \/ x = primaryFilename \/
  x = timestampsFilename \/
  (exists n, is_Some (mp_tagFamilies mp !! n) /\ x = n +:+ tagFamiliesFilenameExt) \/
  (exists n, is_Some (mp_tagFamilyMetadata mp !! n) /\
             x = n +:+ tagFamiliesMetadataFilenameExt).

(** A file system is well formed when every node lies in a directory
    that exists. *)
Definition well_formed (fs : gmap string node) : Prop :=
  forall path d n, is_Some (fs !! path) -> entry_name d path = Some n ->
                   fs !! d = Some Dir.

(** A world without files, with the default threshold of 64 MiB, on a
    file system whose directories have the size of a block. *)
Definition empty_world : world :=
  mkWorld ∅ [] (64 * 1024 * 1024) [] (fun _ _ => 4096).

(** A memory part with one tag family. *)
Definition example_memPart : memPart :=
  mkMemPart {[ "searchable" := [Byte.x01] ]} {[ "searchable" := [Byte.x02; Byte.x03] ]}
            [Byte.x04] [Byte.x05] [Byte.x06] (mkPartMetadata 10 1 1 7 7).

(** The bytes of a directory entry that is a file. *)
Definition file_content (o : option node) : option (list Byte.byte) :=
  match o with
  | Some (File c) => Some c
  | _ => None
  end.

Section FlushOpen.
(** The encoding of the metadata record ([partMetadata.mustWriteMetadata]
    and [mustReadMetadata]) and the decoding of the block-descriptor array
    ([mustReadPrimaryBlockMetadata]) are not in the source at hand. *)
Variable marshal : partMetadata -> list Byte.byte.
Variable unmarshal : list Byte.byte -> option partMetadata.
Variable decodePrimaryBlockMetadata : list Byte.byte -> option (list primaryBlockMetadata).

(** [pm.mustWriteMetadata(fileSystem, path)]. *)
Definition mustWriteMetadata (pm : partMetadata) (path : string) (w : world) : world :=
  MustFlush (marshal pm) (Filepath.Join path metadataFilename) w.

(** [mp.mustFlush(fileSystem, path)]. *)
Definition mustFlush (mp : memPart) (path : string) (w : world) : outcome world :=
  match MkdirPanicIfExist path w with
  | Panicked msg => Panicked msg
  | Returned w =>
      if String.eqb (Filepath.Base path) elementIndexFilename then Returned w
      else
        let w := MustFlush (mp_meta mp) (Filepath.Join path metaFilename) w in
        let w := MustFlush (mp_primary mp) (Filepath.Join path primaryFilename) w in
        let w := MustFlush (mp_timestamps mp) (Filepath.Join path timestampsFilename) w in
        let w := map_fold (fun name tf w =>
                   MustFlush tf (Filepath.Join path (name +:+ tagFamiliesFilenameExt)) w)
                   w (mp_tagFamilies mp) in
        let w := map_fold (fun name tfh w =>
                   MustFlush tfh (Filepath.Join path (name +:+ tagFamiliesMetadataFilenameExt)) w)
                   w (mp_tagFamilyMetadata mp) in
        let w := mustWriteMetadata (mp_partMetadata mp) path w in
        let w := SyncPath path w in
        let w := ApplyIfLarge (Filepath.Join path primaryFilename) w in
        let w := ApplyIfLarge (Filepath.Join path timestampsFilename) w in
        let w := map_fold (fun name (_ : list Byte.byte) w =>
                   ApplyIfLarge (Filepath.Join path (name +:+ tagFamiliesFilenameExt)) w)
                   w (mp_tagFamilies mp) in
        Returned w
  end.

(** [pm.mustReadMetadata(fileSystem, partPath)]. *)
Definition mustReadMetadata (partPath : string) (w : world) : outcome partMetadata :=
  match mustOpenReader (Filepath.Join partPath metadataFilename) w with
  | Panicked msg => Panicked msg
  | Returned data =>
      match unmarshal data with
      | Some pm => Returned pm
      | None => Panicked "cannot parse metadata"
      end
  end.

Definition set_ID (id : Z) (pm : partMetadata) : partMetadata :=
  mkPartMetadata id (BlocksCount pm) (TotalCount pm) (MinTimestamp pm) (MaxTimestamp pm).

(** One iteration of the loop over the directory entries: a
    directory is skipped; a file with one of the two extensions is opened
    and filed under its name without the extension. [None] when a reader
    cannot be opened. *)
Definition open_entry (partPath : string) (w : world) (name : string) (nd : node)
    (acc : option (gmap string (list Byte.byte) * gmap string (list Byte.byte)))
  : option (gmap string (list Byte.byte) * gmap string (list Byte.byte)) :=
  match nd with
  | Dir => acc
  | File _ =>
      let acc :=
        if String.eqb (Filepath.Ext name) tagFamiliesMetadataFilenameExt then
          match acc, mustOpenReader (Filepath.Join partPath name) w with
          | Some (tfm, tf), Returned c =>
              Some (<[removeExt name tagFamiliesMetadataFilenameExt := c]> tfm, tf)
          | _, _ => None
          end
        else acc in
      if String.eqb (Filepath.Ext name) tagFamiliesFilenameExt then
        match acc, mustOpenReader (Filepath.Join partPath name) w with
        | Some (tfm, tf), Returned c =>
            Some (tfm, <[removeExt name tagFamiliesFilenameExt := c]> tf)
        | _, _ => None
        end
      else acc
  end.

(** [mustOpenFilePart(id, root, fileSystem)]. *)
Definition mustOpenFilePart (id : Z) (root : string) (w : world) : outcome part :=
  let partPath := partPath root id in
  match mustReadMetadata partPath w with
  | Panicked msg => Panicked msg
  | Returned pm =>
      let pm := set_ID id pm in
      match mustOpenReader (Filepath.Join partPath metaFilename) w with
      | Panicked msg => Panicked msg
      | Returned pr =>
          match decodePrimaryBlockMetadata pr with
          | None => Panicked "cannot read primaryBlockMetadata"
          | Some pbm =>
              match mustOpenReader (Filepath.Join partPath primaryFilename) w,
                    mustOpenReader (Filepath.Join partPath timestampsFilename) w with
              | Returned primary, Returned timestamps =>
                  let ee := ReadDir partPath w in
                  match map_fold (open_entry partPath w) (Some (∅, ∅)) ee with
                  | Some (tfm, tf) =>
                      Returned (mkPart primary timestamps true tfm tf partPath pbm pm)
                  | None => Panicked "cannot open"
                  end
              | Panicked msg, _ => Panicked msg
              | _, Panicked msg => Panicked msg
              end
          end
      end
  end.

End FlushOpen.

(** The cleanup actions, as they are observed from outside. *)
Inductive cleanup : Type :=
  | ReleaseMemPart (mp : memPart)
  | ClosePart (path : string)
  | ScheduleRMAll (path : string).

Definition newPartWrapper (mp : option memPart) (p : option part) : partWrapper :=
  mkPartWrapper mp p 1 false.

Definition incRef (pw : partWrapper) : partWrapper :=
  mkPartWrapper (pw_mp pw) (pw_p pw) (wrap32 (ref pw + 1)) (removable pw).

(** [decRef]: the wrapper after the call and the cleanup actions it
    performed; [Panicked] is the nil dereference of [pw.p]. *)
Definition decRef (pw : partWrapper) : outcome (partWrapper * list cleanup) :=
  let n := wrap32 (ref pw - 1) in
  let pw1 := mkPartWrapper (pw_mp pw) (pw_p pw) n (removable pw) in
  if 0 <? n then Returned (pw1, [])
  else
    match pw_mp pw with
    | Some mp =>
        Returned (mkPartWrapper None None n (removable pw), [ReleaseMemPart mp])
    | None =>
        match pw_p pw with
        | None => Panicked "nil pointer dereference"
        | Some p =>
            Returned (pw1,
                      ClosePart (p_path p) ::
                      (if (removable pw && p_fileSystem p)%bool
                       then [ScheduleRMAll (p_path p)] else []))
        end
    end.

Inductive refOp : Type := IncRef | DecRef.

(** A sequence of calls, with the cleanup actions accumulated. *)
Fixpoint run_refs (ops : list refOp) (pw : partWrapper) (done : list cleanup)
  : outcome (partWrapper * list cleanup) :=
  match ops with
  | [] => Returned (pw, done)
  | IncRef :: ops' => run_refs ops' (incRef pw) done
  | DecRef :: ops' =>
      match decRef pw with
      | Panicked msg => Panicked msg
      | Returned (pw', acts) => run_refs ops' pw' (done ++ acts)
      end
  end.

(** A sequence is balanced when every [DecRef] releases a reference taken
    by an earlier [IncRef] of the sequence and none is left over; [depth]
    counts the references taken and not yet released. *)
Fixpoint balanced (depth : nat) (ops : list refOp) : bool :=
  match ops with
  | [] => (depth =? 0)%nat
  | IncRef :: ops' => balanced (S depth) ops'
  | DecRef :: ops' =>
      match depth with
      | O => false
      | S d => balanced d ops'
      end
  end.

(** The cleanup a wrapper owes when its last reference is released. *)
Definition cleanup_of (pw : partWrapper) : list cleanup :=
  match pw_mp pw, pw_p pw with
  | Some mp, _ => [ReleaseMemPart mp]
  | None, Some p =>
      ClosePart (p_path p) ::
      (if (removable pw && p_fileSystem p)%bool
       then [ScheduleRMAll (p_path p)] else [])
  | None, None => []
  end.

(** A metadata codec to run the flush and open with: the record as a
    tuple of integers, numbered, and the number written bit by bit. *)
Fixpoint bytes_of_positive (p : positive) : list Byte.byte :=
  match p with
  | xH => []
  | xO p' => Byte.x00 :: bytes_of_positive p'
  | xI p' => Byte.x01 :: bytes_of_positive p'
  end.

Fixpoint positive_of_bytes (bs : list Byte.byte) : positive :=
  match bs with
  | [] => xH
  | Byte.x00 :: bs' => xO (positive_of_bytes bs')
  | _ :: bs' => xI (positive_of_bytes bs')
  end.

Definition example_marshal (pm : partMetadata) : list Byte.byte :=
  bytes_of_positive
    (encode (ID pm, BlocksCount pm, TotalCount pm, MinTimestamp pm, MaxTimestamp pm)).

Definition example_unmarshal (bs : list Byte.byte) : option partMetadata :=
  match decode (positive_of_bytes bs) : option (Z * Z * Z * Z * Z) with
  | Some (i, b, t, mn, mx) => Some (mkPartMetadata i b t mn mx)
  | None => None
  end.

Definition example_decode (bs : list Byte.byte) : option (list primaryBlockMetadata) :=
  Some [].

End Stream.

(** ** banyand/fadvis/helper.go: the protector registration and the
    other hint helpers *)

Module FadvisHelper.
Import Measure.

(** A non-nil [*protector.Memory], as far as the helper uses it: what its
    [GetThreshold()] does, which is to return a threshold or to panic (the
    type is declared outside the source at hand). *)
Record Memory : Type := mkMemory {
  Memory_GetThreshold : outcome Z
}.

(** The state of the package: the registry of [Fadvis] (the atomic
    threshold, what [os.Stat] reports, the trace of [fadvis.Apply]),
    whether [memoryProtectorOnce] has fired, the protector kept in
    [memoryProtector], and the traces of [fadvis.MustApply] and
    [fadvis.MustApplySequential] (most recent call last). *)
Record state : Type := mkState {
  registry : Fadvis.world;
  onceDone : bool;
  memoryProtector : option Memory;
  mustApplied : list string;
  sequentialApplied : list string
}.

(** The state after [init()], before any call. *)
Definition init (st : string -> option Z) : state :=
  mkState (Fadvis.init st) false None [] [].

Definition SetThreshold (threshold : Z) (s : state) : state :=
  mkState (Fadvis.SetThreshold threshold (registry s)) (onceDone s)
          (memoryProtector s) (mustApplied s) (sequentialApplied s).

Definition GetThreshold (s : state) : Z := Fadvis.GetThreshold (registry s).

Definition ApplyIfLarge (filePath : string) (s : state) : state :=
  mkState (Fadvis.ApplyIfLarge filePath (registry s)) (onceDone s)
          (memoryProtector s) (mustApplied s) (sequentialApplied s).

(** [SetMemoryProtector(mp)] of helper.go. [sync.Once.Do] runs the function
    on the first call only, and counts the call as done even when the
    function panics. *)
Definition SetMemoryProtector (mp : option Memory) (s : state) : outcome state :=
  if onceDone s then Returned s
  else
    let s := mkState (registry s) true mp (mustApplied s) (sequentialApplied s) in
    match mp with
    | None => Returned s
    | Some m =>
        match Memory_GetThreshold m with
        | Panicked msg => Panicked msg
        | Returned threshold =>
            if 0 <? threshold then Returned (SetThreshold threshold s)
            else Returned s
        end
    end.

(** [fadvis.MustApply(filePath)] and [fadvis.MustApplySequential(filePath)]:
    the calls are recorded. *)
Definition MustApply (filePath : string) (s : state) : state :=
  mkState (registry s) (onceDone s) (memoryProtector s)
          (mustApplied s ++ [filePath]) (sequentialApplied s).

Definition MustApplySequential (filePath : string) (s : state) : state :=
  mkState (registry s) (onceDone s) (memoryProtector s)
          (mustApplied s) (sequentialApplied s ++ [filePath]).

Definition MustApplyIfLarge (filePath : string) (s : state) : state :=
  match Fadvis.stat (registry s) filePath with
  | Some size =>
      let threshold := Fadvis.LargeFileThreshold (registry s) in
      if threshold <? size then MustApply filePath s else s
  | None => s
  end.

(** [MustApplySequentialIfLarge(filePath, size)]: [int64(size)] is the
    value of the [int] it is given. *)
Definition MustApplySequentialIfLarge (filePath : string) (size : Z) (s : state) : state :=
  let threshold := Fadvis.LargeFileThreshold (registry s) in
  if threshold <? size then MustApplySequential filePath s else s.

(** The revision of the helper that keeps no protector and recovers from
    a panic of [GetThreshold]: the deferred function logs the panic and
    returns, and sets the threshold only when the call returned a positive
    value. *)
Module Revised.

Definition SetMemoryProtector (mp : option Memory) (s : state) : state :=
  if onceDone s then s
  else
    let s := mkState (registry s) true (memoryProtector s)
                     (mustApplied s) (sequentialApplied s) in
    match mp with
    | None => s
    | Some m =>
        match Memory_GetThreshold m with
        | Panicked _ => s
        | Returned threshold =>
            if 0 <? threshold then SetThreshold threshold s else s
        end
    end.

End Revised.

(** The calls a program can make on the package, and a sequence of them
    run in order. *)
Inductive call : Type :=
  | CallSetThreshold (threshold : Z)
  | CallSetMemoryProtector (mp : option Memory)
  | CallApplyIfLarge (filePath : string)
  | CallMustApplyIfLarge (filePath : string)
  | CallMustApplySequentialIfLarge (filePath : string) (size : Z).

Definition run_call (c : call) (s : state) : outcome state :=
  match c with
  | CallSetThreshold threshold => Returned (SetThreshold threshold s)
  | CallSetMemoryProtector mp => SetMemoryProtector mp s
  | CallApplyIfLarge filePath => Returned (ApplyIfLarge filePath s)
  | CallMustApplyIfLarge filePath => Returned (MustApplyIfLarge filePath s)
  | CallMustApplySequentialIfLarge filePath size =>
      Returned (MustApplySequentialIfLarge filePath size s)
  end.

Fixpoint run (cs : list call) (s : state) : outcome state :=
  match cs with
  | [] => Returned s
  | c :: cs' =>
      match run_call c s with
      | Panicked msg => Panicked msg
      | Returned s' => run cs' s'
      end
  end.

(** The last positive value of a list of thresholds, [d] when there is
    none. *)
Definition last_positive (d : Z) (vs : list Z) : Z :=
  foldl (fun acc v => if 0 <? v then v else acc) d vs.

End FadvisHelper.

(** ** banyand/measure/block_reader.go: the life of a [seqReader] *)

Module Readers.
Import Errors Measure Filepath.

(** The path up to and including its last separator: [path[:i+1]] after
    the scan of [filepath.Dir] from the end of the path. *)
Fixpoint dir_part (s : string) : string :=
  match s with
  | EmptyString => ""
  | String c s' =>
      if has_separator s' then String c (dir_part s')
      else if IsPathSeparator c then String c "" else ""
  end.

(** [filepath.Dir] on Unix (no volume name). *)
Definition Dir (path : string) : string := Clean (dir_part path).

(** An [fs.Reader], as far as [seqReader.init] uses it: its path and the
    sequential stream [SequentialRead()] opens. *)
Record Reader : Type := mkReader {
  Path : string;
  SequentialRead : SeqReader
}.

(** What the readers act on: the registry of banyand/fadvis with the trace
    of [pkgfadvis.Apply], and the numbers of sequential streams opened by
    [SequentialRead()] and closed by [fs.MustClose]. *)
Record env : Type := mkEnv {
  fadvis : Fadvis.world;
  opened : nat;
  closed : nat
}.

Section SeqReader.
(** The constant [indexDirName] is declared outside the source at hand:
    the name of the index subdirectory. *)
Variable indexDirName : string.

(** [sr.reset()]. The early [return] for a large file under the index
    directory leaves every field as it is and the stream open. *)
Definition seqReader_reset (s : seqReader) (e : env) : seqReader * env :=
  let large := (isLargeFile s && negb (String.eqb (filePath s) ""))%bool in
  if (large && String.eqb (Base (Dir (filePath s))) indexDirName)%bool
  then (s, e)
  else
    let e := if large
             then mkEnv (Fadvis.Apply (filePath s) (fadvis e)) (opened e) (closed e)
             else e in
    let e := match sr s with
             | Some _ => mkEnv (fadvis e) (opened e) (S (closed e))
             | None => e
             end in
    (mkseqReader None 0 "" 0 false, e).

(** [sr.init(r)]. *)
Definition seqReader_init (r : Reader) (s : seqReader) (e : env) : seqReader * env :=
  let '(s, e) := seqReader_reset s e in
  let e := mkEnv (fadvis e) (S (opened e)) (closed e) in
  let s := mkseqReader (Some (SequentialRead r)) (bytesRead s) (Path r)
                       (fileSize s) (isLargeFile s) in
  if String.eqb (Base (Dir (filePath s))) indexDirName then (s, e)
  else
    match Fadvis.stat (fadvis e) (filePath s) with
    | Some size =>
        (mkseqReader (sr s) (bytesRead s) (filePath s) size
                     (Fadvis.GetThreshold (fadvis e) <? size), e)
    | None => (s, e)
    end.

(** The calls made on a [seqReader] and a sequence of them run in order
    from a reader and an environment; a panic of [mustReadFull] ends the
    run. *)
Inductive op : Type :=
  | OpInit (r : Reader)
  | OpMustReadFull (data : list Byte.byte)
  | OpReset.

Fixpoint run (ops : list op) (s : seqReader) (e : env) : outcome (seqReader * env) :=
  match ops with
  | [] => Returned (s, e)
  | OpInit r :: ops' =>
      let '(s', e') := seqReader_init r s e in run ops' s' e'
  | OpMustReadFull data :: ops' =>
      match mustReadFull s data with
      | Panicked msg => Panicked msg
      | Returned (s', _) => run ops' s' e
      end
  | OpReset :: ops' =>
      let '(s', e') := seqReader_reset s e in run ops' s' e'
  end.

(** A large file is never one of the index directory. *)
Definition exempt_is_small (s : seqReader) : Prop :=
  isLargeFile s = true -> String.eqb (Base (Dir (filePath s))) indexDirName = false.

End SeqReader.

(** The zero value [&seqReader{}]. *)
Definition zero_seqReader : seqReader := mkseqReader None 0 "" 0 false.

(** Whether [init] finds the file of a reader large. *)
Definition large_file (indexDirName : string) (r : Reader) (w : Fadvis.world) : bool :=
  (negb (String.eqb (Base (Dir (Path r))) indexDirName) &&
   match Fadvis.stat w (Path r) with
   | Some size => Fadvis.GetThreshold w <? size
   | None => false
   end)%bool.

(** Every stream opened since [e0] has been closed, but for the one the
    reader holds. *)
Definition streams_balanced (e0 e : env) (s : seqReader) : Prop :=
  (opened e + closed e0
   = opened e0 + closed e + match sr s with Some _ => 1 | None => 0 end)%nat.

End Readers.

(** ** banyand/stream/part.go: the rest of the life of a part *)

Module StreamParts.
Import Measure Stream.

(** [mp.mustCreateMemTagFamilyWriters(name)]: the buffers of the family
    are emptied when the family is known, and made otherwise; the two
    writers returned are the two buffers found under [name] afterwards. A
    nil map is the empty map. [Panicked] is [tfh.Reset()] on the nil buffer
    that [mp.tagFamilyMetadata[name]] yields for a name it does not hold. *)
Definition mustCreateMemTagFamilyWriters (name : string) (mp : memPart)
  : outcome memPart :=
  match mp_tagFamilies mp !! name with
  | Some _ =>
      match mp_tagFamilyMetadata mp !! name with
      | Some _ =>
          Returned (mkMemPart (<[name := []]> (mp_tagFamilyMetadata mp))
                              (<[name := []]> (mp_tagFamilies mp))
                              (mp_meta mp) (mp_primary mp) (mp_timestamps mp)
                              (mp_partMetadata mp))
      | None => Panicked "nil pointer dereference"
      end
  | None =>
      Returned (mkMemPart (<[name := []]> (mp_tagFamilyMetadata mp))
                          (<[name := []]> (mp_tagFamilies mp))
                          (mp_meta mp) (mp_primary mp) (mp_timestamps mp)
                          (mp_partMetadata mp))
  end.

(** A [Write] through one of the writers returned for [name]: the bytes
    are appended to the buffer ([metadata] tells which of the two). *)
Definition write_family (metadata : bool) (name : string) (data : list Byte.byte)
    (mp : memPart) : memPart :=
  if metadata
  then mkMemPart (alter (fun buf => buf ++ data) name (mp_tagFamilyMetadata mp))
                 (mp_tagFamilies mp)
                 (mp_meta mp) (mp_primary mp) (mp_timestamps mp) (mp_partMetadata mp)
  else mkMemPart (mp_tagFamilyMetadata mp)
                 (alter (fun buf => buf ++ data) name (mp_tagFamilies mp))
                 (mp_meta mp) (mp_primary mp) (mp_timestamps mp) (mp_partMetadata mp).

Section Reset.
(** [partMetadata.reset()] is not in the source at hand. *)
Variable partMetadata_reset : partMetadata -> partMetadata.

(** [mp.reset()]: every buffer is emptied; the families stay. *)
Definition memPart_reset (mp : memPart) : memPart :=
  mkMemPart ((fun _ => []) <$> mp_tagFamilyMetadata mp)
            ((fun _ => []) <$> mp_tagFamilies mp)
            [] [] [] (partMetadata_reset (mp_partMetadata mp)).

(** The calls that shape a [memPart], and a sequence of them run in
    order. *)
Inductive memCall : Type :=
  | CallCreateWriters (name : string)
  | CallWrite (metadata : bool) (name : string) (data : list Byte.byte)
  | CallReset.

Fixpoint run_mem (cs : list memCall) (mp : memPart) : outcome memPart :=
  match cs with
  | [] => Returned mp
  | CallCreateWriters name :: cs' =>
      match mustCreateMemTagFamilyWriters name mp with
      | Panicked msg => Panicked msg
      | Returned mp' => run_mem cs' mp'
      end
  | CallWrite metadata name data :: cs' => run_mem cs' (write_family metadata name data mp)
  | CallReset :: cs' => run_mem cs' (memPart_reset mp)
  end.

End Reset.

(** The zero value [&memPart{}]. *)
Definition zero_memPart : memPart :=
  mkMemPart ∅ ∅ [] [] [] (mkPartMetadata 0 0 0 0 0).

(** The two maps hold the same families. *)
Definition paired (mp : memPart) : Prop :=
  forall name, is_Some (mp_tagFamilies mp !! name) <->
               is_Some (mp_tagFamilyMetadata mp !! name).

Section Open.
(** [mustReadPrimaryBlockMetadata] is not in the source at hand. *)
Variable decodePrimaryBlockMetadata : list Byte.byte -> option (list primaryBlockMetadata).


End Open.

(** [fileSystem.MkdirIfNotExist(path, perm)]. *)
Definition MkdirIfNotExist (path : string) (w : world) : world :=
  match files w !! path with
  | Some _ => w
  | None => mkWorld (<[path := Dir]> (files w)) (synced w) (threshold w) (hints w)
                    (dir_size w)
  end.

(** [_, err := os.Stat(path); err == nil]. *)
Definition stat_ok (path : string) (w : world) : bool :=
  match stat_size w path with
  | Some _ => true
  | None => false
  end.

(** [p.mustFlush()] of a file part. The record [part] holds what its
    readers read and has no nil reader; whether [p.primary] and
    [p.timestamps] are non-nil, which the two guards test, is given beside
    it as [primary_set] and [timestamps_set]. [Panicked] is the call on a
    nil [p.fileSystem]. *)
Definition part_mustFlush (primary_set timestamps_set : bool) (p : part) (w : world)
  : outcome world :=
  if negb (p_fileSystem p) then Panicked "nil pointer dereference"
  else
    let w := MkdirIfNotExist (p_path p) w in
    let primaryFile := Filepath.Join (p_path p) primaryFilename in
    let timestampsFile := Filepath.Join (p_path p) timestampsFilename in
    let w := SyncPath (p_path p) w in
    let w := if (stat_ok primaryFile w && primary_set)%bool
             then ApplyIfLarge primaryFile w else w in
    let w := if (stat_ok timestampsFile w && timestamps_set)%bool
             then ApplyIfLarge timestampsFile w else w in
    let w := map_fold (fun name (_ : list Byte.byte) w =>
                 let tfFile := Filepath.Join (p_path p) (name +:+ tagFamiliesFilenameExt) in
                 if stat_ok tfFile w then ApplyIfLarge tfFile w else w)
               w (p_tagFamilies p) in
    Returned w.

(** [pw.ID()]; [Panicked] is the nil dereference of [pw.p]. *)
Definition partWrapper_ID (pw : partWrapper) : outcome Z :=
  match pw_p pw with
  | Some p => Returned (ID (p_partMetadata p))
  | None => Panicked "nil pointer dereference"
  end.

(** Whether a file of the given size is hinted under the threshold of
    the world. *)
Definition large (w : world) (c : list Byte.byte) : Prop :=
  threshold w < Z.of_nat (length c).

End StreamParts.

(** ** The meter collections of the observability package *)

Module Observability.

Section Collections.
(** [float64], and the meters of pkg/meter: interfaces declared outside
    the source at hand. A meter is the state its methods act on. *)
Variable float64 : Type.

Class Counter (C : Type) : Type := {
  Counter_Inc : float64 -> list string -> C -> C;
  Counter_Delete : list string -> C -> bool * C
}.

Class Gauge (G : Type) : Type := {
  Gauge_Set : float64 -> list string -> G -> G;
  Gauge_Add : float64 -> list string -> G -> G;
  Gauge_Delete : list string -> G -> bool * G
}.

Class Histogram (H : Type) : Type := {
  Histogram_Observe : float64 -> list string -> H -> H;
  Histogram_Delete : list string -> H -> bool * H
}.

(** The loop of the three [Delete] methods:
    [success := true; for _, m := range ms { success = success &&
    m.Delete(labelValues...) }; return success]. The [&&] evaluates
    [m.Delete] only while [success] holds. The result is [success] and the
    meters after the loop. *)
Definition delete_loop {M : Type} (delete : list string -> M -> bool * M)
    (labelValues : list string) (ms : list M) : bool * list M :=
  foldl (fun (acc : bool * list M) (m : M) =>
           let '(success, seen) := acc in
           if success
           then let '(ok, m') := delete labelValues m in (ok, seen ++ [m'])
           else (false, seen ++ [m]))
        (true, []) ms.

Section Counters.
Context {C : Type} `{Counter C}.

(** [counterCollection]: the [counters] slice. *)
Definition counterCollection_Inc (delta : float64) (labelValues : list string)
    (counters : list C) : list C :=
  map (Counter_Inc delta labelValues) counters.

Definition counterCollection_Delete (labelValues : list string) (counters : list C)
  : bool * list C :=
  delete_loop Counter_Delete labelValues counters.

End Counters.

Section Gauges.
Context {G : Type} `{Gauge G}.

Definition gaugeCollection_Set (value : float64) (labelValues : list string)
    (gauges : list G) : list G :=
  map (Gauge_Set value labelValues) gauges.

Definition gaugeCollection_Add (delta : float64) (labelValues : list string)
    (gauges : list G) : list G :=
  map (Gauge_Add delta labelValues) gauges.

Definition gaugeCollection_Delete (labelValues : list string) (gauges : list G)
  : bool * list G :=
  delete_loop Gauge_Delete labelValues gauges.

End Gauges.

Section Histograms.
Context {H : Type} `{Histogram H}.

Definition histogramCollection_Observe (value : float64) (labelValues : list string)
    (histograms : list H) : list H :=
  map (Histogram_Observe value labelValues) histograms.

Definition histogramCollection_Delete (labelValues : list string) (histograms : list H)
  : bool * list H :=
  delete_loop Histogram_Delete labelValues histograms.

End Histograms.

End Collections.

(** A counter to run the collections with: the label sets it holds a
    value for, each with its count of increments. *)
Definition example_counter : Type := list (list string * nat).

Fixpoint example_inc (labelValues : list string) (c : example_counter) : example_counter :=
  match c with
  | [] => [(labelValues, 1%nat)]
  | (l, n) :: c' =>
      if decide (l = labelValues) then (l, S n) :: c'
      else (l, n) :: example_inc labelValues c'
  end.

Definition example_delete (labelValues : list string) (c : example_counter)
  : bool * example_counter :=
  (bool_decide (labelValues ∈ c.*1),
   filter (fun e => e.1 <> labelValues) c).

#[global] Instance example_Counter : Counter unit example_counter := {
  Counter_Inc _ labelValues c := example_inc labelValues c;
  Counter_Delete := example_delete
}.

End Observability.

(** ** pkg/index/analyzer: the filter of the URL analyzer *)

Module Analyzer.

(** An [*analysis.Token]: its [Term] and, in [other], the fields the
    filter does not touch. *)
Record Token (T : Type) : Type := mkToken {
  Term : list Byte.byte;
  other : T
}.
Arguments mkToken {T} Term other.
Arguments Term {T} t.
Arguments other {T} t.

Section Filter.
(** Runes, [unicode.IsLetter], [unicode.IsNumber], [bytes.Runes] (the
    UTF-8 decoding of a term) and [analysis.BuildTermFromRunes] (its
    encoding) are declared outside the source at hand. *)
Variable rune : Type.
Variable IsLetter IsNumber : rune -> bool.
Variable Runes : list Byte.byte -> list rune.
Variable BuildTermFromRunes : list rune -> list Byte.byte.

(** The inner loop: the runes of the term that are letters or numbers,
    appended in order. *)
Definition termRunes (term : list Byte.byte) : list rune :=
  foldl (fun (acc : list rune) (r : rune) =>
           if (IsLetter r || IsNumber r)%bool then acc ++ [r] else acc)
        [] (Runes term).

(** [alphanumericFilter.Filter(input)]: a token stream is a slice of
    pointers, so the loop rewrites the term of every token of [input],
    which is returned. *)
Definition Filter {T : Type} (input : list (Token T)) : list (Token T) :=
  map (fun token => mkToken (BuildTermFromRunes (termRunes (Term token))) (other token))
      input.

End Filter.

(** An encoding to run the filter with: one rune per byte, letters and
    digits of ASCII. *)
Definition ascii_IsLetter (b : Byte.byte) : bool :=
  let n := Byte.to_nat b in
  ((65 <=? n)%nat && (n <=? 90)%nat || (97 <=? n)%nat && (n <=? 122)%nat)%bool.

Definition ascii_IsNumber (b : Byte.byte) : bool :=
  let n := Byte.to_nat b in ((48 <=? n)%nat && (n <=? 57)%nat)%bool.

End Analyzer.

(** ** The object pools *)

Module Pool.
Import Measure.

(** A pool of pkg/pool (declared outside the source at hand; it wraps
    [sync.Pool]) is the objects put into it and not handed out since.
    [Get()] hands out one of them, any of them, or [nil]: [choice] says
    which, by position. *)
Definition Get {T : Type} (choice : option nat) (pool : list T) : option T * list T :=
  match choice with
  | Some i =>
      match pool !! i with
      | Some v => (Some v, delete i pool)
      | None => (None, pool)
      end
  | None => (None, pool)
  end.

Definition Put {T : Type} (v : T) (pool : list T) : list T := v :: pool.

Section SeqReaders.
Variable indexDirName : string.

(** [generateSeqReader()] and [releaseSeqReader(sr)]. *)
Definition generateSeqReader (choice : option nat) (pool : list seqReader)
  : seqReader * list seqReader :=
  match Get choice pool with
  | (Some v, pool') => (v, pool')
  | (None, pool') => (Readers.zero_seqReader, pool')
  end.

Definition releaseSeqReader (s : seqReader) (e : Readers.env) (pool : list seqReader)
  : Readers.env * list seqReader :=
  let '(s', e') := Readers.seqReader_reset indexDirName s e in
  (e', Put s' pool).

End SeqReaders.

(** The zero value [&blockReader{}]. *)
Definition zero_blockReader : blockReader := mkBlockReader None None [] false.

(** [generateBlockReader()] and [releaseBlockReader(br)]. *)
Definition generateBlockReader (choice : option nat) (pool : list blockReader)
  : blockReader * list blockReader :=
  match Get choice pool with
  | (Some v, pool') => (v, pool')
  | (None, pool') => (zero_blockReader, pool')
  end.

Definition releaseBlockReader (br : blockReader) (pool : list blockReader)
  : list blockReader :=
  Put (reset br) pool.

Section MemParts.
Variable partMetadata_reset : Stream.partMetadata -> Stream.partMetadata.

(** [generateMemPart()] and [releaseMemPart(mp)]. *)
Definition generateMemPart (choice : option nat) (pool : list Stream.memPart)
  : Stream.memPart * list Stream.memPart :=
  match Get choice pool with
  | (Some v, pool') => (v, pool')
  | (None, pool') => (StreamParts.zero_memPart, pool')
  end.

Definition releaseMemPart (mp : Stream.memPart) (pool : list Stream.memPart)
  : list Stream.memPart :=
  Put (StreamParts.memPart_reset partMetadata_reset mp) pool.

End MemParts.

(** A memory part without content: every buffer is empty. *)
Definition blank (mp : Stream.memPart) : Prop :=
  Stream.mp_meta mp = [] /\ Stream.mp_primary mp = [] /\ Stream.mp_timestamps mp = [] /\
  (forall n c, Stream.mp_tagFamilies mp !! n = Some c -> c = []) /\
  (forall n c, Stream.mp_tagFamilyMetadata mp !! n = Some c -> c = []).

End Pool.

(** ** The size of a row, in closed form *)

Module RowSize.
Import Stream.

(** The length of the tag name and the sizes of the values of one family. *)
Definition family_total (tv : tagValues) : Z :=
  Z.of_nat (String.length (tag tv)) +
  foldr (fun v n => Z.of_N (tagValue_size v) + n) 0 (values tv).

(** 16 bytes and the totals of the families of a row. *)
Definition row_total (e : element) : Z :=
  16 + foldr (fun tv n => family_total tv + n) 0 (e_tagFamilies e).

End RowSize.

(** ** banyand/measure/block_reader.go: the readers of one part *)

Module ReaderGroup.
Import Measure Readers Pool.

(** The part of the measure package (declared outside the source at
    hand), by the fields [seqReaders.init] reads. *)
Record part : Type := mkPart {
  p_primary : Reader;
  p_timestamps : Reader;
  p_fieldValues : Reader;
  p_tagFamilies : gmap string Reader;
  p_tagFamilyMetadata : gmap string Reader
}.

Record seqReaders : Type := mkSeqReaders {
  tagFamilyMetadata : gmap string seqReader;
  tagFamilies : gmap string seqReader;
  primary : seqReader;
  timestamps : seqReader;
  fieldValues : seqReader
}.

(** The zero value [seqReaders{}]; a nil map is the empty map. *)
Definition zero_seqReaders : seqReaders :=
  mkSeqReaders ∅ ∅ zero_seqReader zero_seqReader zero_seqReader.

Section Group.
Variable indexDirName : string.
(** Which object [seqReaderPool.Get()] hands out, given what the pool
    holds. *)
Variable pick : list seqReader -> option nat.

(** The two loops of [reset]: every reader of the map is released, and
    its entry deleted. *)
Definition release_all (m : gmap string seqReader) (e : env) (pool : list seqReader)
  : env * list seqReader :=
  map_fold (fun (_ : string) (r : seqReader) (acc : env * list seqReader) =>
              releaseSeqReader indexDirName r acc.1 acc.2)
           (e, pool) m.

(** [sr.reset()] of the group. *)
Definition seqReaders_reset (srs : seqReaders) (e : env) (pool : list seqReader)
  : seqReaders * env * list seqReader :=
  let '(primary', e) := seqReader_reset indexDirName (primary srs) e in
  let '(timestamps', e) := seqReader_reset indexDirName (timestamps srs) e in
  let '(fieldValues', e) := seqReader_reset indexDirName (fieldValues srs) e in
  let '(e, pool) := release_all (tagFamilyMetadata srs) e pool in
  let '(e, pool) := release_all (tagFamilies srs) e pool in
  (mkSeqReaders ∅ ∅ primary' timestamps' fieldValues', e, pool).

(** The state of the loop of [init] over [p.tagFamilies]. *)
Record initState : Type := mkInitState {
  is_tagFamilies : gmap string seqReader;
  is_tagFamilyMetadata : gmap string seqReader;
  is_env : env;
  is_pool : list seqReader
}.

(** One iteration, for the family [k] with reader [r]. [Panicked] is the
    call of [SequentialRead] on the nil reader that
    [p.tagFamilyMetadata[k]] yields for a family it does not hold. *)
Definition init_family (p : part) (k : string) (r : Reader)
    (acc : outcome initState) : outcome initState :=
  match acc with
  | Panicked msg => Panicked msg
  | Returned st =>
      let '(g, pool) := generateSeqReader (pick (is_pool st)) (is_pool st) in
      let '(g, e) := seqReader_init indexDirName r g (is_env st) in
      let tf := <[k := g]> (is_tagFamilies st) in
      let '(g', pool) := generateSeqReader (pick pool) pool in
      match p_tagFamilyMetadata p !! k with
      | None => Panicked "nil pointer dereference"
      | Some r' =>
          let '(g', e) := seqReader_init indexDirName r' g' e in
          Returned (mkInitState tf (<[k := g']> (is_tagFamilyMetadata st)) e pool)
      end
  end.

(** [sr.init(p)] of the group. *)
Definition seqReaders_init (p : part) (srs : seqReaders) (e : env)
    (pool : list seqReader) : outcome (seqReaders * env * list seqReader) :=
  let '(srs, e, pool) := seqReaders_reset srs e pool in
  let '(primary', e) := seqReader_init indexDirName (p_primary p) (primary srs) e in
  let '(timestamps', e) := seqReader_init indexDirName (p_timestamps p) (timestamps srs) e in
  let '(fieldValues', e) := seqReader_init indexDirName (p_fieldValues p) (fieldValues srs) e in
  match map_fold (init_family p)
                 (Returned (mkInitState (tagFamilies srs) (tagFamilyMetadata srs) e pool))
                 (p_tagFamilies p) with
  | Panicked msg => Panicked msg
  | Returned st =>
      Returned (mkSeqReaders (is_tagFamilyMetadata st) (is_tagFamilies st)
                             primary' timestamps' fieldValues',
                is_env st, is_pool st)
  end.

End Group.

(** The reader holds the stream of [r], at its start. *)
Definition holds (r : Reader) (s : seqReader) : Prop :=
  sr s = Some (SequentialRead r) /\ filePath s = Path r /\ bytesRead s = 0.

(** Every reader of the map holds a stream, and none is a large file of
    the index directory. *)
Definition all_open (indexDirName : string) (m : gmap string seqReader) : Prop :=
  forall k g, m !! k = Some g -> exempt_is_small indexDirName g /\ is_Some (sr g).

(** A part with one family. *)
Definition example_part : part :=
  mkPart (mkReader "data/primary.bin" (mkSeqReader [] Errors.EOF))
         (mkReader "data/timestamps.bin" (mkSeqReader [] Errors.EOF))
         (mkReader "data/fv.bin" (mkSeqReader [] Errors.EOF))
         {[ "searchable" := mkReader "data/searchable.tf" (mkSeqReader [] Errors.EOF) ]}
         {[ "searchable" := mkReader "data/searchable.tfm" (mkSeqReader [] Errors.EOF) ]}.

End ReaderGroup.

(** * Properties *)

Section FadvisProperties.
Import Fadvis.

Lemma SetThreshold_nonpositive (v : Z) (w : world) :
  v <= 0 -> SetThreshold v w = w.
Proof.
  intros Hv. unfold SetThreshold.
  destruct (Z.ltb_spec 0 v); [lia | reflexivity].
Qed.

Lemma SetThreshold_positive (v : Z) (w : world) :
  0 < v -> GetThreshold (SetThreshold v w) = v.
Proof.
  intros Hv. unfold SetThreshold.
  destruct (Z.ltb_spec 0 v); [reflexivity | lia].
Qed.

Lemma ApplyIfLarge_hinted (path : string) (w : world) (size : Z) :
  stat w path = Some size ->
  hinted (ApplyIfLarge path w) =
    if decide (GetThreshold w < size) then hinted w ++ [path] else hinted w.
Proof.
  intros Hs. unfold ApplyIfLarge, GetThreshold. rewrite Hs. cbn zeta.
  destruct (Z.ltb_spec (LargeFileThreshold w) size); case_decide; try lia; reflexivity.
Qed.

Lemma ApplyIfLarge_missing (path : string) (w : world) :
  stat w path = None -> ApplyIfLarge path w = w.
Proof. intros Hs. unfold ApplyIfLarge. now rewrite Hs. Qed.

(** C8. Threshold registry: [SetThreshold v] with [v <= 0] (in particular 0
    and -5) leaves the stored value unchanged; with [v > 0] (in particular
    33554432) a following [GetThreshold] returns [v]; and [ApplyIfLarge]
    invokes the cache-hint utility exactly when the size reported by stat is
    strictly larger than the current threshold: a file of exactly the
    threshold size is not hinted, a file one byte larger is. *)
Theorem threshold_registry_spec (w : world) :
  (forall v, v <= 0 -> GetThreshold (SetThreshold v w) = GetThreshold w) /\
  GetThreshold (SetThreshold 0 w) = GetThreshold w /\
  GetThreshold (SetThreshold (-5) w) = GetThreshold w /\
  (forall v, 0 < v -> GetThreshold (SetThreshold v w) = v) /\
  GetThreshold (SetThreshold 33554432 w) = 33554432 /\
  (forall path size, stat w path = Some size ->
     (hinted (ApplyIfLarge path w) = hinted w ++ [path] <-> GetThreshold w < size) /\
     (hinted (ApplyIfLarge path w) = hinted w <-> size <= GetThreshold w) /\
     (size = GetThreshold w -> hinted (ApplyIfLarge path w) = hinted w) /\
     (size = GetThreshold w + 1 -> hinted (ApplyIfLarge path w) = hinted w ++ [path])).
Proof.
  split; [intros v Hv; now rewrite SetThreshold_nonpositive|].
  split; [now rewrite SetThreshold_nonpositive|].
  split; [now rewrite SetThreshold_nonpositive|].
  split; [intros v Hv; now apply SetThreshold_positive|].
  split; [now apply SetThreshold_positive|].
  intros path size Hs. rewrite (ApplyIfLarge_hinted _ _ _ Hs).
  assert (Hne : hinted w ++ [path] <> hinted w).
  { intros Heq. apply (f_equal length) in Heq. rewrite length_app in Heq.
    simpl in Heq. lia. }
  case_decide; repeat split; intros; try lia; try congruence.
Qed.

End FadvisProperties.

Section CommonProperties.
Import Common.

Lemma elem_of_hash_of (c : ChunkIDs) (x : ChunkID) :
  x ∈ hash_of c <-> x ∈ c.
Proof.
  unfold hash_of.
  assert (H : forall (h : gset Z),
             x ∈ foldl (fun (h : gset Z) (item : ChunkID) => {[ item ]} ∪ h) h c
             <-> x ∈ h \/ x ∈ c).
  { induction c as [|a c IH]; intros h; simpl.
    - rewrite elem_of_nil. tauto.
    - rewrite IH, elem_of_union, elem_of_singleton, elem_of_cons. tauto. }
  rewrite H. rewrite elem_of_empty. tauto.
Qed.

Lemma collect_filter (hash : gset Z) (other : ChunkIDs) :
  collect hash other = filter (fun item => item ∈ hash) other.
Proof.
  unfold collect.
  assert (H : forall acc,
             foldl (fun (intersection : ChunkIDs) (item : ChunkID) =>
                      if decide (item ∈ hash) then intersection ++ [item] else intersection)
                   acc other
             = acc ++ filter (fun item => item ∈ hash) other).
  { induction other as [|a other IH]; intros acc; cbn [foldl].
    - now rewrite app_nil_r.
    - rewrite IH. rewrite filter_cons. case_decide.
      + now rewrite <- app_assoc.
      + reflexivity. }
  now rewrite H.
Qed.

Lemma HashIntersect_filter (c other : ChunkIDs) :
  HashIntersect c other = filter (fun item => item ∈ c) other.
Proof.
  unfold HashIntersect.
  destruct c as [|a c].
  - cbn [length Nat.eqb orb]. symmetry.
    induction other as [|b other IH]; [reflexivity|].
    rewrite filter_cons. case_decide as Hin; [now apply elem_of_nil in Hin | exact IH].
  - destruct other as [|b other]; [reflexivity|].
    cbn [length Nat.eqb orb].
    rewrite collect_filter.
    apply list_filter_iff. intros x. apply elem_of_hash_of.
Qed.

Lemma elem_of_HashIntersect (c other : ChunkIDs) (x : ChunkID) :
  x ∈ HashIntersect c other <-> x ∈ c /\ x ∈ other.
Proof. rewrite HashIntersect_filter, list_elem_of_filter. tauto. Qed.

Lemma HashIntersect_count (c other : list Z) (x : Z) :
  length (filter (fun y => y = x) (HashIntersect c other)) =
    if decide (x ∈ c) then length (filter (fun y => y = x) other) else 0%nat.
Proof.
  rewrite HashIntersect_filter.
  induction other as [|b other IH].
  - now case_decide.
  - rewrite (filter_cons (fun item => item ∈ c)).
    rewrite (filter_cons (fun y => y = x) b other).
    destruct (decide (b ∈ c)) as [Hb|Hb].
    + rewrite (filter_cons (fun y => y = x)).
      destruct (decide (b = x)) as [->|Hne].
      * rewrite decide_True in * by assumption. cbn [length]. now rewrite IH.
      * exact IH.
    + destruct (decide (b = x)) as [->|Hne].
      * now rewrite decide_False in * by assumption.
      * exact IH.
Qed.

(** C9, the claim as stated fails: with a repeated element in the
    argument the result repeats it. *)
Lemma HashIntersect_duplicates :
  HashIntersect [1] [1; 1] = [1; 1] /\
  ~ NoDup (HashIntersect [1] [1; 1]) /\
  HashIntersect [1; 1] [1] = [1].
Proof.
  split; [reflexivity|]. split; [|reflexivity].
  change (HashIntersect [1] [1; 1]) with [1; 1].
  intros H. apply NoDup_cons in H as [H _]. apply H. apply elem_of_cons. now left.
Qed.

(** C9, amended. [HashIntersect] is commutative as far as the identifiers
    contained are concerned, is empty whenever either input is empty, and
    contains exactly the identifiers present in both inputs; each of them
    occurs as often as it occurs in the argument [other], so the result is
    free of duplicates when [other] is. *)
Theorem HashIntersect_spec (a b : list Z) :
  (forall x, x ∈ HashIntersect a b <-> x ∈ HashIntersect b a) /\
  HashIntersect [] b = [] /\
  HashIntersect a [] = [] /\
  (forall x, x ∈ HashIntersect a b <-> x ∈ a /\ x ∈ b) /\
  (forall x, length (filter (fun y => y = x) (HashIntersect a b)) =
             if decide (x ∈ a) then length (filter (fun y => y = x) b) else 0%nat) /\
  (NoDup b -> NoDup (HashIntersect a b)).
Proof.
  split; [intros x; rewrite !elem_of_HashIntersect; tauto|].
  split; [reflexivity|].
  split; [unfold HashIntersect; now destruct a|].
  split; [apply elem_of_HashIntersect|].
  split; [apply HashIntersect_count|].
  rewrite HashIntersect_filter. apply NoDup_filter.
Qed.

End CommonProperties.

(** ** container/heap: the heap order is established and maintained *)

Section HeapProperties.
Import Heap.
Context {A : Type}.
Variable less : A -> A -> bool.

Local Abbreviation le := (Heap.le less).
Local Abbreviation ok_at := (Heap.ok_at less).
Local Abbreviation heap_ok := (Heap.heap_ok less).

Hypothesis less_asym : forall x y, less x y = true -> less y x = false.
Hypothesis le_trans : forall x y z, le x y -> le y z -> le x z.

Lemma le_refl (x : A) : le x x.
Proof.
  unfold le. destruct (less x x) eqn:E; [|reflexivity].
  pose proof (less_asym _ _ E). congruence.
Qed.

Lemma Swap_length (h : list A) i j : length (Swap h i j) = length h.
Proof.
  unfold Swap. destruct (h !! i), (h !! j); try reflexivity.
  now rewrite !length_insert.
Qed.

Lemma Swap_lookup (h : list A) i j k :
  (i < length h)%nat -> (j < length h)%nat ->
  Swap h i j !! k =
    if decide (k = i) then h !! j
    else if decide (k = j) then h !! i else h !! k.
Proof.
  intros Hi Hj. unfold Swap.
  destruct (lookup_lt_is_Some_2 h i Hi) as [x Hx].
  destruct (lookup_lt_is_Some_2 h j Hj) as [y Hy].
  rewrite Hx, Hy.
  destruct (decide (k = i)) as [->|Hki].
  - rewrite list_lookup_insert_eq; [reflexivity | now rewrite length_insert].
  - rewrite list_lookup_insert_ne by congruence.
    destruct (decide (k = j)) as [->|Hkj].
    + now rewrite list_lookup_insert_eq.
    + now rewrite list_lookup_insert_ne by congruence.
Qed.

Lemma Swap_oob (h : list A) i j :
  (length h <= i)%nat \/ (length h <= j)%nat -> Swap h i j = h.
Proof.
  intros [H|H]; unfold Swap.
  - now rewrite (lookup_ge_None_2 h i H).
  - rewrite (lookup_ge_None_2 h j H). now destruct (h !! i).
Qed.

Lemma Swap_perm (h : list A) i j : Swap h i j ≡ₚ h.
Proof.
  destruct (decide (i < length h)%nat) as [Hi|Hi];
    [|rewrite Swap_oob; [reflexivity | left; lia]].
  destruct (decide (j < length h)%nat) as [Hj|Hj];
    [|rewrite Swap_oob; [reflexivity | right; lia]].
  apply Permutation_inj. split; [apply Swap_length|].
  exists (fun k => if decide (k = i) then j else if decide (k = j) then i else k).
  split.
  - intros a b. repeat case_decide; intros; subst; congruence.
  - intros k. rewrite Swap_lookup by assumption.
    repeat case_decide; subst; congruence.
Qed.

Lemma down_loop_length fuel (h : list A) i n :
  length (fst (down_loop less fuel h i n)) = length h.
Proof.
  revert h i. induction fuel as [|fuel IH]; intros h i; [reflexivity|].
  cbn [down_loop]. cbv zeta.
  destruct (n <=? 2 * i + 1)%nat; [reflexivity|].
  match goal with |- context [negb ?b] => destruct b end; cbn [negb];
    [|reflexivity].
  rewrite IH. apply Swap_length.
Qed.

Lemma down_loop_perm fuel (h : list A) i n :
  fst (down_loop less fuel h i n) ≡ₚ h.
Proof.
  revert h i. induction fuel as [|fuel IH]; intros h i; [reflexivity|].
  cbn [down_loop]. cbv zeta.
  destruct (n <=? 2 * i + 1)%nat; [reflexivity|].
  match goal with |- context [negb ?b] => destruct b end; cbn [negb];
    [|reflexivity].
  rewrite IH. apply Swap_perm.
Qed.

(** [down] never touches a position outside [i .. n-1]. *)
Lemma down_loop_outside fuel (h : list A) i n k :
  (n <= length h)%nat -> (k < i \/ n <= k)%nat ->
  fst (down_loop less fuel h i n) !! k = h !! k.
Proof.
  revert h i. induction fuel as [|fuel IH]; intros h i Hn Hk; [reflexivity|].
  cbn [down_loop]. cbv zeta.
  destruct (Nat.leb_spec n (2 * i + 1)); [reflexivity|].
  match goal with |- context [negb ?b] => destruct b end; cbn [negb];
    [|reflexivity].
  match goal with |- context [Swap h i ?j] => set (jj := j) end.
  assert (Hj : (jj = 2 * i + 1 \/ jj = 2 * i + 1 + 1)%nat /\ (jj < n)%nat).
  { subst jj. destruct (Nat.ltb_spec (2 * i + 1 + 1) n); cbn [andb].
    - destruct (Less less h (2 * i + 1 + 1) (2 * i + 1)); lia.
    - lia. }
  rewrite IH; [|rewrite Swap_length; lia|lia].
  rewrite Swap_lookup by lia.
  repeat case_decide; try lia. reflexivity.
Qed.

Lemma Less_true (h : list A) i j :
  Less less h i j = true ->
  exists x y, h !! i = Some x /\ h !! j = Some y /\ less x y = true.
Proof.
  unfold Less. destruct (h !! i) as [x|]; [|discriminate].
  destruct (h !! j) as [y|]; [|discriminate]. eauto.
Qed.

Lemma Less_false (h : list A) i j x y :
  Less less h i j = false -> h !! i = Some x -> h !! j = Some y -> le y x.
Proof. unfold Less, le. intros H Hi Hj. now rewrite Hi, Hj in H. Qed.

(** The sift-down invariant: every position from [i0] on is in order with
    its children except the current position [i], whose children are in
    order with the parent of [i]. *)
Lemma down_loop_ok fuel (h : list A) i0 i n :
  (n <= length h)%nat -> (i0 <= i)%nat -> (n <= i + fuel)%nat ->
  (forall p, (i0 <= p)%nat -> p <> i -> ok_at n h p) ->
  (forall p c x y, (i0 <= p)%nat -> child p i -> child i c -> (c < n)%nat ->
     h !! p = Some x -> h !! c = Some y -> le x y) ->
  forall p, (i0 <= p)%nat -> ok_at n (fst (down_loop less fuel h i n)) p.
Proof.
  revert h i. induction fuel as [|fuel IH]; intros h i Hn Hi Hfuel Hok Hgp.
  - cbn [down_loop fst]. intros p Hp.
    destruct (decide (p = i)) as [->|Hne]; [|now apply Hok].
    intros c x y [Hc|Hc] Hcn; lia.
  - cbn [down_loop]. cbv zeta.
    destruct (Nat.leb_spec n (2 * i + 1)) as [Hleaf|Hleft].
    { cbn [fst]. intros p Hp.
      destruct (decide (p = i)) as [->|Hne]; [|now apply Hok].
      intros c x y [Hc|Hc] Hcn; lia. }
    match goal with |- context [Swap h i ?j] => set (jj := j) end.
    (* [jj] is the least child of [i] *)
    assert (Hjj : child i jj /\ (jj < n)%nat /\
                  forall c x y, child i c -> (c < n)%nat ->
                    h !! jj = Some x -> h !! c = Some y -> le x y).
    { subst jj. unfold child.
      destruct (Nat.ltb_spec (2 * i + 1 + 1) n) as [Hr|Hr]; cbn [andb].
      - destruct (Less less h (2 * i + 1 + 1) (2 * i + 1)) eqn:HL.
        + split; [lia|]. split; [lia|].
          apply Less_true in HL as (x2 & x1 & H2 & H1 & Hlt).
          intros c x y [-> | ->] Hcn Hx Hy.
          * replace (2 * i + 1 + 1)%nat with (2 * i + 2)%nat in * by lia.
            rewrite H2 in Hx. rewrite Hy in H1. simplify_eq.
            unfold le. now apply less_asym.
          * replace (2 * i + 1 + 1)%nat with (2 * i + 2)%nat in * by lia.
            assert (x = y) as -> by congruence. apply le_refl.
        + split; [lia|]. split; [lia|].
          intros c x y [-> | ->] Hcn Hx Hy.
          * assert (x = y) as -> by congruence. apply le_refl.
          * replace (2 * i + 2)%nat with (2 * i + 1 + 1)%nat in * by lia.
            eapply Less_false; eauto.
      - split; [lia|]. split; [lia|].
        intros c x y [-> | ->] Hcn Hx Hy; [|lia].
        assert (x = y) as -> by congruence. apply le_refl. }
    destruct Hjj as (Hchild & Hjn & Hmin).
    destruct (Less less h jj i) eqn:HL; cbn [negb].
    + (* the child is smaller: swap and continue from it *)
      apply Less_true in HL as (xj & xi & Hxj & Hxi & Hlt).
      assert (Hij : (i < jj)%nat) by (destruct Hchild; lia).
      apply IH.
      * rewrite Swap_length. lia.
      * lia.
      * lia.
      * intros p Hp Hpj.
        intros c x y Hpc Hcn. rewrite !Swap_lookup by lia.
        destruct (decide (p = i)) as [->|Hpi].
        { (* the old position of the element now holds the least child *)
          intros Hx. rewrite Hxj in Hx. simplify_eq.
          destruct (decide (c = i)) as [->|Hci]; [destruct Hpc; lia|].
          destruct (decide (c = jj)) as [->|Hcj].
          - intros Hy. rewrite Hxi in Hy. simplify_eq.
            unfold le. now apply less_asym.
          - intros Hy. eapply Hmin; eauto. }
        destruct (decide (p = jj)) as [->|Hpj2]; [congruence|].
        intros Hx.
        destruct (decide (c = i)) as [->|Hci].
        { (* [p] is the parent of [i] *)
          intros Hy. rewrite Hxj in Hy. simplify_eq.
          eapply (Hgp p jj x y); eauto. }
        destruct (decide (c = jj)) as [->|Hcj].
        { destruct Hpc, Hchild; lia. }
        intros Hy. eapply (Hok p Hp Hpi c x y); eauto.
      * intros p c x y Hp Hpjj Hjc Hcn.
        assert (p = i) as -> by (destruct Hpjj, Hchild; lia).
        rewrite !Swap_lookup by lia.
        rewrite decide_True by reflexivity.
        destruct (decide (c = i)) as [->|Hci]; [destruct Hjc; lia|].
        destruct (decide (c = jj)) as [->|Hcj]; [destruct Hjc; lia|].
        intros Hx Hy. rewrite Hxj in Hx. simplify_eq.
        eapply (Hok jj ltac:(lia) ltac:(lia) c x y); eauto.
    + (* no child is smaller: the loop breaks *)
      cbn [fst]. intros p Hp.
      destruct (decide (p = i)) as [->|Hne]; [|now apply Hok].
      intros c x y Hc Hcn Hx Hy.
      destruct (lookup_lt_is_Some_2 h jj ltac:(lia)) as [xj Hxj].
      apply le_trans with xj.
      * eapply Less_false; eauto.
      * eapply Hmin; eauto.
Qed.

Lemma down_ok (h : list A) i0 n :
  (n <= length h)%nat ->
  (forall p, (i0 < p)%nat -> ok_at n h p) ->
  forall p, (i0 <= p)%nat -> ok_at n (fst (down less h i0 n)) p.
Proof.
  intros Hn Hok p Hp. unfold down.
  pose proof (down_loop_ok n h i0 i0 n Hn (le_n _) ltac:(lia)) as H.
  destruct (down_loop less n h i0 n) as [h' i] eqn:E. cbn [fst] in *.
  apply H; [| |assumption].
  - intros q Hq Hne. apply Hok. lia.
  - intros q c x y Hq [Hc|Hc]; lia.
Qed.

Lemma down_length (h : list A) i0 n : length (fst (down less h i0 n)) = length h.
Proof.
  unfold down. pose proof (down_loop_length n h i0 n) as H.
  destruct (down_loop less n h i0 n). exact H.
Qed.

Lemma down_perm (h : list A) i0 n : fst (down less h i0 n) ≡ₚ h.
Proof.
  unfold down. pose proof (down_loop_perm n h i0 n) as H.
  destruct (down_loop less n h i0 n). exact H.
Qed.

Lemma down_outside (h : list A) i0 n k :
  (n <= length h)%nat -> (k < i0 \/ n <= k)%nat ->
  fst (down less h i0 n) !! k = h !! k.
Proof.
  intros Hn Hk. unfold down.
  pose proof (down_loop_outside n h i0 n k Hn Hk) as H.
  destruct (down_loop less n h i0 n). exact H.
Qed.

Lemma Init_loop_ok (n m : nat) (h : list A) :
  length h = n ->
  (forall p, (m <= p)%nat -> ok_at n h p) ->
  let h' := foldl (fun h i => fst (down less h i n)) h (rev (seq 0 m)) in
  length h' = n /\ h' ≡ₚ h /\ forall p, ok_at n h' p.
Proof.
  revert h. induction m as [|m IH]; intros h Hlen Hok.
  - cbn. repeat split; try done. intros p. apply Hok. lia.
  - rewrite seq_S, rev_app_distr. cbn [rev app foldl Nat.add].
    destruct (IH (fst (down less h m n))) as (Hl & Hp & Ho).
    + now rewrite down_length.
    + apply down_ok; [lia|]. intros p Hp. apply Hok. lia.
    + cbv zeta. repeat split; try done. now rewrite Hp, down_perm.
Qed.

Lemma half_children (n p : nat) : (n / 2 <= p)%nat -> (n <= 2 * p + 1)%nat.
Proof.
  intros H. pose proof (Nat.div_mod_eq n 2) as E.
  pose proof (Nat.mod_upper_bound n 2 ltac:(lia)). lia.
Qed.

Theorem Init_spec (h : list A) : heap_ok (Init less h) /\ Init less h ≡ₚ h.
Proof.
  unfold Init.
  destruct (Init_loop_ok (length h) (length h / 2) h eq_refl) as (Hl & Hp & Ho).
  - intros p Hp c x y [Hc|Hc] Hcn; apply half_children in Hp; lia.
  - cbv zeta in *. split; [|exact Hp]. intros p. rewrite Hl. apply Ho.
Qed.

Lemma up_root (h : list A) : up less h 0 = h.
Proof. reflexivity. Qed.

(** [heap.Fix(h, 0)] after the element at the root has been replaced. *)
Theorem Fix_root_spec (h : list A) :
  (forall p, (0 < p)%nat -> ok_at (length h) h p) ->
  heap_ok (Fix less h 0) /\ Fix less h 0 ≡ₚ h.
Proof.
  intros Hok. unfold Fix.
  pose proof (down_ok h 0 (length h) (le_n _) Hok) as Ho.
  pose proof (down_perm h 0 (length h)) as Hp.
  pose proof (down_length h 0 (length h)) as Hl.
  destruct (down less h 0 (length h)) as [h' moved]. cbn [fst] in *.
  assert (Hh : heap_ok h').
  { intros p. rewrite Hl. apply Ho. lia. }
  destruct moved; [|rewrite up_root]; auto.
Qed.

Lemma Fix_root_perm (h : list A) : Fix less h 0 ≡ₚ h.
Proof.
  unfold Fix. pose proof (down_perm h 0 (length h)) as Hp.
  destruct (down less h 0 (length h)) as [h' moved]. cbn [fst] in *.
  destruct moved; [|rewrite up_root]; auto.
Qed.

(** [heap.Pop] removes the first element and returns it; what it leaves
    are the other elements, and a heap when it was given one. *)
Theorem Pop_spec (x : A) (tl : list A) :
  exists h', Pop less (x :: tl) = Some (x, h') /\ h' ≡ₚ tl /\
             (heap_ok (x :: tl) -> heap_ok h').
Proof.
  unfold Pop.
  set (h := x :: tl) in *. set (n := (length h - 1)%nat).
  assert (Hlen : length h = S n) by (subst n h; cbn [length]; lia).
  set (h1 := Swap h 0 n).
  assert (Hl1 : length h1 = S n) by (subst h1; now rewrite Swap_length).
  assert (H1n : h1 !! n = Some x).
  { subst h1. rewrite Swap_lookup by lia.
    destruct (decide (n = 0%nat)) as [->|?]; [reflexivity|].
    now rewrite decide_True by reflexivity. }
  pose proof (down_length h1 0 n) as Hl2.
  pose proof (down_perm h1 0 n) as Hp2.
  pose proof (down_outside h1 0 n n ltac:(lia) ltac:(lia)) as Hout.
  assert (Ho2 : heap_ok h -> forall p, ok_at n (fst (down less h1 0 n)) p).
  { intros Hok p. apply down_ok; [lia| |lia].
    intros q Hq c a b Hqc Hcn. subst h1. rewrite !Swap_lookup by lia.
    assert (q <> 0 /\ q <> n /\ c <> 0 /\ c <> n)%nat as (?&?&?&?)
      by (destruct Hqc; lia).
    rewrite !decide_False by assumption.
    intros Ha Hb. eapply (Hok q c a b); eauto. lia. }
  set (h2 := fst (down less h1 0 n)) in *.
  exists (take n h2). split; [now rewrite Hout, H1n|].
  assert (Hsplit : h2 = take n h2 ++ [x]).
  { rewrite <- (take_drop n h2) at 1. f_equal.
    apply list_eq. intros k. rewrite lookup_drop.
    destruct k as [|k].
    - now rewrite Nat.add_0_r, Hout, H1n.
    - rewrite lookup_ge_None_2 by lia. reflexivity. }
  split.
  - apply (Permutation_app_inv_r [x]).
    rewrite <- Hsplit, Hp2. subst h1. rewrite Swap_perm.
    subst h. change (x :: tl) with ([x] ++ tl). apply Permutation_app_comm.
  - intros Hok p c a b Hpc Hcn Ha Hb.
    rewrite length_take in Hcn.
    rewrite lookup_take_lt in Ha by (destruct Hpc; lia).
    rewrite lookup_take_lt in Hb by lia.
    eapply (Ho2 Hok p c a b); eauto. lia.
Qed.

Lemma parent_exists (j : nat) : (0 < j)%nat -> exists p, Heap.child p j.
Proof.
  unfold Heap.child. induction j as [|j IH]; [lia|]. intros _.
  destruct j as [|j]; [exists 0%nat; lia|].
  destruct IH as [p [Hp|Hp]]; [lia| |].
  - exists p. lia.
  - exists (S p). lia.
Qed.

(** The root of a heap does not come after any element. *)
Theorem root_minimal (h : list A) (x y : A) :
  heap_ok h -> h !! 0%nat = Some x -> y ∈ h -> le x y.
Proof.
  intros Hok Hx Hy. apply list_elem_of_lookup in Hy as [j Hj].
  revert y Hj. induction (lt_wf j) as [j _ IH]. intros y Hj.
  destruct (decide (j = 0%nat)) as [->|Hne].
  - assert (x = y) as -> by congruence. apply le_refl.
  - destruct (parent_exists j ltac:(lia)) as [p Hp].
    pose proof (lookup_lt_Some _ _ _ Hj) as Hjl.
    destruct (lookup_lt_is_Some_2 h p ltac:(destruct Hp; lia)) as [z Hz].
    apply le_trans with z.
    + apply (IH p); [destruct Hp; lia | exact Hz].
    + eapply (Hok p j z y); eauto.
Qed.

End HeapProperties.

(** ** The sequential reader *)

Section SeqReaderProperties.
Import Errors Measure.

(** What the loop of [io.ReadAtLeast] delivers, in terms of the bytes the
    stream still holds. *)
Lemma read_loop_spec (at_end : error) (pending : list (list Byte.byte)) :
  forall (need : nat) (got : list Byte.byte),
  exists rest,
    read_loop at_end pending need got =
      (got ++ take need (concat pending),
       if decide (length (concat pending) < need)%nat then Some at_end else None,
       rest).
Proof.
  induction pending as [|c pending IH]; intros need got.
  - destruct need as [|need]; cbn [read_loop concat].
    + eexists. rewrite app_nil_r. reflexivity.
    + eexists. rewrite take_nil, app_nil_r.
      rewrite decide_True by (cbn; lia). reflexivity.
  - destruct need as [|need].
    + cbn [read_loop]. eexists. rewrite take_0, app_nil_r.
      rewrite decide_False by lia. reflexivity.
    + cbn [read_loop concat]. rewrite length_app.
      destruct (Nat.leb_spec (length c) (S need)) as [Hle|Hgt].
      * destruct (IH (S need - length c)%nat (got ++ c)) as [rest ->].
        exists rest. rewrite <- app_assoc.
        assert (Ht : take (S need) (c ++ concat pending) =
                     c ++ take (S need - length c) (concat pending)).
        { rewrite take_app. now rewrite take_ge by lia. }
        rewrite Ht. repeat case_decide; try lia; reflexivity.
      * eexists. rewrite take_app.
        replace (S need - length c)%nat with 0%nat by lia.
        rewrite take_0, app_nil_r. rewrite decide_False by lia. reflexivity.
Qed.

Lemma ReadFull_spec (r : SeqReader) (len_buf : nat) :
  let avail := concat (chunks r) in
  exists r',
    ReadFull r len_buf =
      (take len_buf avail,
       if decide (len_buf <= length avail)%nat then None
       else if ((0 <? length avail)%nat && eq_EOF (at_end r))%bool
            then Some ErrUnexpectedEOF else Some (at_end r),
       r').
Proof.
  intros avail. unfold ReadFull.
  destruct (read_loop_spec (at_end r) (chunks r) len_buf []) as [rest ->].
  cbn [app]. fold avail. eexists.
  rewrite length_take.
  destruct (decide (len_buf <= length avail)%nat) as [Hle|Hgt].
  - rewrite (proj2 (Nat.leb_le _ _)) by lia. reflexivity.
  - rewrite (proj2 (Nat.leb_gt _ _)) by lia.
    rewrite decide_True by lia.
    replace (len_buf `min` length avail)%nat with (length avail) by lia.
    reflexivity.
Qed.

(** C10, amended. When [mustReadFull] is invoked with the stream already
    at end-of-file (the read delivers zero bytes and a clean [io.EOF]) it
    returns without panicking, leaves the destination buffer as it was and
    does not advance [bytesRead]. A partial read (some but not all of the
    requested bytes) makes it panic when the stream then ends with
    [io.EOF] itself or with an error that does not wrap [io.EOF]; when the
    stream ends with an error that wraps [io.EOF] without being it, the
    partial read returns silently as well: the buffer holds the bytes
    delivered followed by what it held before, and [bytesRead] is not
    advanced. *)
Theorem mustReadFull_eof_silent_partial_panics
    (s : seqReader) (r : SeqReader) (data : list Byte.byte) :
  sr s = Some r ->
  (concat (chunks r) = [] -> at_end r = EOF -> data <> [] ->
     exists s', mustReadFull s data = Returned (s', data) /\
                bytesRead s' = bytesRead s) /\
  ((0 < length (concat (chunks r)) < length data)%nat ->
   at_end r = EOF \/ is_eof (at_end r) = false ->
     mustReadFull s data = Panicked "cannot read data") /\
  ((0 < length (concat (chunks r)) < length data)%nat ->
   at_end r <> EOF -> is_eof (at_end r) = true ->
     exists s',
       mustReadFull s data =
         Returned (s', concat (chunks r) ++ drop (length (concat (chunks r))) data) /\
       bytesRead s' = bytesRead s).
Proof.
  intros Hsr. unfold mustReadFull. rewrite Hsr.
  destruct (ReadFull_spec r (length data)) as [r' ->]. cbv zeta.
  split; [|split].
  - intros Hnil Heof Hdata. rewrite Hnil, Heof. cbn [length].
    destruct data as [|d data]; [congruence|].
    rewrite decide_False by (cbn [length]; lia).
    cbn [Nat.ltb Nat.leb andb is_eof take drop app length].
    eexists. split; reflexivity.
  - intros [Hpos Hlt] Hend.
    rewrite decide_False by lia.
    rewrite (proj2 (Nat.ltb_lt _ _)) by lia. cbn [andb].
    destruct Hend as [-> | Hne].
    + reflexivity.
    + destruct (eq_EOF (at_end r)) eqn:He.
      * destruct (at_end r); try discriminate.
      * now rewrite Hne.
  - intros [Hpos Hlt] Hne Hwrap.
    rewrite decide_False by lia.
    assert (He : eq_EOF (at_end r) = false)
      by (destruct (at_end r); try reflexivity; congruence).
    rewrite He, andb_false_r, Hwrap.
    rewrite take_ge by lia.
    eexists. split; reflexivity.
Qed.

Lemma mustReadFull_eof_silent_partial_panics_witness :
  let rd := mkSeqReader [[Byte.x61; Byte.x62]] EOF in
  let s := mkseqReader (Some rd) 7 "primary.bin" 0 false in
  let data := [Byte.x78; Byte.x79; Byte.x7a] in
  sr s = Some rd /\ mustReadFull s data = Panicked "cannot read data".
Proof.
  cbv zeta. split; [reflexivity|].
  apply (mustReadFull_eof_silent_partial_panics
           (mkseqReader (Some (mkSeqReader [[Byte.x61; Byte.x62]] EOF)) 7 "primary.bin" 0 false)
           (mkSeqReader [[Byte.x61; Byte.x62]] EOF)
           [Byte.x78; Byte.x79; Byte.x7a] eq_refl).
  - cbn. lia.
  - now left.
Defined.

(** C10, the claim as stated fails: a partial read does not always panic.
    A stream that ends with an error which merely wraps [io.EOF] is not
    told apart from a clean end: one byte of the two asked for is
    delivered, and the call returns with the buffer half filled. *)
Example mustReadFull_wrapped_eof :
  let rd := mkSeqReader [[Byte.x61]] (Wrap "closed" EOF) in
  let s := mkseqReader (Some rd) 0 "primary.bin" 0 false in
  exists s', mustReadFull s [Byte.x78; Byte.x79] = Returned (s', [Byte.x61; Byte.x79]).
Proof. cbv zeta. eexists. reflexivity. Qed.

Example mustReadFull_at_eof :
  let rd := mkSeqReader [] EOF in
  let s := mkseqReader (Some rd) 5 "primary.bin" 0 false in
  mustReadFull s [Byte.x78; Byte.x79] = Returned (s, [Byte.x78; Byte.x79]).
Proof. reflexivity. Qed.

Example mustReadFull_complete :
  let rd := mkSeqReader [[Byte.x61]; [Byte.x62; Byte.x63]] EOF in
  let s := mkseqReader (Some rd) 5 "primary.bin" 0 false in
  mustReadFull s [Byte.x78; Byte.x79] =
    Returned (mkseqReader (Some (mkSeqReader [[Byte.x63]] EOF)) 7 "primary.bin" 0 false,
              [Byte.x61; Byte.x62]).
Proof. reflexivity. Qed.

End SeqReaderProperties.

(** ** The merge reader *)

Section MergeProperties.
Import Errors Heap Measure.

Lemma block_le_iff (a b : blockMetadata) :
  block_le a b <->
  seriesID a < seriesID b \/
  (seriesID a = seriesID b /\ minTimestamp a <= minTimestamp b).
Proof.
  unfold block_le, less.
  destruct (Z.eqb_spec (seriesID b) (seriesID a));
    destruct (Z.ltb_spec (minTimestamp b) (minTimestamp a));
    destruct (Z.ltb_spec (seriesID b) (seriesID a));
    split; intros; try lia; try discriminate; try reflexivity.
Qed.

#[local] Instance block_le_refl : Reflexive block_le.
Proof. intros a. apply block_le_iff. lia. Qed.

#[local] Instance block_le_trans : Transitive block_le.
Proof. intros a b c. rewrite !block_le_iff. lia. Qed.

Lemma pih_less_asym (x y : partMergeIter) :
  pih_less x y = true -> pih_less y x = false.
Proof.
  unfold pih_less, less.
  destruct (Z.eqb_spec (seriesID (block x)) (seriesID (block y)));
    destruct (Z.eqb_spec (seriesID (block y)) (seriesID (block x)));
    try lia; rewrite ?Z.ltb_lt, ?Z.ltb_ge; lia.
Qed.

Lemma pih_le_trans (x y z : partMergeIter) :
  le pih_less x y -> le pih_less y z -> le pih_less x z.
Proof.
  unfold le, pih_less. intros H1 H2.
  change (block_le (block x) (block z)).
  transitivity (block y); assumption.
Qed.

(** Replacing the root by an element with the same key keeps the heap. *)
Lemma heap_ok_same_key (x x' : partMergeIter) (tl : list partMergeIter) :
  block x' = block x ->
  heap_ok pih_less (x :: tl) -> heap_ok pih_less (x' :: tl).
Proof.
  intros Hk Hok p c a b Hpc Hcn Ha Hb.
  assert (Hc0 : exists c', c = S c') by (destruct Hpc; exists (pred c); lia).
  destruct Hc0 as [c' ->]. cbn in Hb.
  destruct p as [|p']; cbn in Ha.
  - injection Ha as <-.
    pose proof (Hok 0%nat (S c') x b Hpc Hcn eq_refl Hb) as H.
    unfold le, pih_less in *. now rewrite Hk.
  - exact (Hok (S p') (S c') a b Hpc Hcn Ha Hb).
Qed.

(** After the root has been replaced, every other position is still in
    order with its children. *)
Lemma heap_ok_below_root (x x' : partMergeIter) (tl : list partMergeIter) p :
  heap_ok pih_less (x :: tl) -> (0 < p)%nat ->
  ok_at pih_less (length (x' :: tl)) (x' :: tl) p.
Proof.
  intros Hok Hp c a b Hpc Hcn Ha Hb.
  destruct p as [|p']; [lia|].
  assert (Hc0 : exists c', c = S c') by (destruct Hpc; exists (pred c); lia).
  destruct Hc0 as [c' ->].
  exact (Hok (S p') (S c') a b Hpc Hcn Ha Hb).
Qed.

Lemma contents_cons (it : partMergeIter) (h : list partMergeIter) :
  contents (it :: h) = block it :: upcoming it ++ contents h.
Proof. reflexivity. Qed.

Lemma contents_perm (h h' : list partMergeIter) :
  h ≡ₚ h' -> contents h ≡ₚ contents h'.
Proof. intros H. unfold contents. now rewrite H. Qed.

Lemma elem_of_contents (x : blockMetadata) (h : list partMergeIter) :
  x ∈ contents h <-> exists it, it ∈ h /\ (x = block it \/ x ∈ upcoming it).
Proof.
  unfold contents. rewrite list_elem_of_bind. unfold remaining.
  split; intros (it & H1 & H2); exists it.
  - apply elem_of_cons in H1. tauto.
  - rewrite elem_of_cons. tauto.
Qed.

(** In a heap of iterators over sorted sequences nothing comes before the
    current block of the root. *)
Lemma root_block_least (head : partMergeIter) (tl : list partMergeIter) :
  heap_ok pih_less (head :: tl) ->
  Forall (fun it => StronglySorted block_le (remaining it)) (head :: tl) ->
  Forall (block_le (block head)) (contents (head :: tl)).
Proof.
  intros Hok Hs. apply Forall_forall. intros x Hx.
  apply elem_of_contents in Hx as (it & Hit & Hx).
  assert (Hle : block_le (block head) (block it)).
  { exact (root_minimal pih_less pih_less_asym pih_le_trans
             (head :: tl) head it Hok eq_refl Hit). }
  destruct Hx as [->|Hx]; [exact Hle|].
  rewrite Forall_forall in Hs. specialize (Hs it Hit).
  unfold remaining in Hs. apply StronglySorted_inv in Hs as [_ Hall].
  rewrite Forall_forall in Hall. transitivity (block it); auto.
Qed.

Lemma head_block_cons (it : partMergeIter) (h : list partMergeIter) :
  head_block (it :: h) = Some (block it).
Proof. reflexivity. Qed.

Lemma nonempty_perm {T} (h h' : list T) : h ≡ₚ h' -> h' <> [] -> h <> [].
Proof. intros H Hne ->. apply Permutation_nil_l in H. congruence. Qed.

(** One call of [nextMetadata] when the head has a next block. *)
Lemma nextMetadata_advance (br : blockReader) head tl b rest :
  pih br = head :: tl -> upcoming head = b :: rest ->
  nextMetadata br =
    let h' := Fix pih_less
                (mkPartMergeIter b rest (failure head) (pmi_err head) :: tl) 0 in
    Returned (None, mkBlockReader (err br) (head_block h') h' (nextBlockNoop br)).
Proof.
  intros Hp Hu. unfold nextMetadata, pmi_nextBlockMetadata. now rewrite Hp, Hu.
Qed.

(** One call of [nextMetadata] when the head is exhausted by an error. *)
Lemma nextMetadata_fail (br : blockReader) head tl :
  pih br = head :: tl -> upcoming head = [] -> fails head = true ->
  exists e h', failure head = Some e /\ is_eof e = false /\
    nextMetadata br =
      Returned (Some e, mkBlockReader (err br) None h' (nextBlockNoop br)).
Proof.
  intros Hp Hu Hf. unfold fails in Hf.
  destruct (failure head) as [e|] eqn:He; [|discriminate].
  apply negb_true_iff in Hf.
  exists e. eexists. split; [reflexivity|]. split; [assumption|].
  unfold nextMetadata, pmi_nextBlockMetadata. rewrite Hp, Hu.
  unfold pmi_error. cbn [pmi_err]. rewrite He. cbn [from_option]. unfold id.
  rewrite Hf.
  reflexivity.
Qed.

(** One call of [nextMetadata] when the head is cleanly exhausted. *)
Lemma nextMetadata_pop (br : blockReader) head tl :
  pih br = head :: tl -> upcoming head = [] -> fails head = false ->
  exists h', h' ≡ₚ tl /\
    (heap_ok pih_less (head :: tl) -> heap_ok pih_less h') /\
    nextMetadata br =
      if (length h' =? 0)%nat
      then Returned (Some EOF, mkBlockReader (err br) None h' (nextBlockNoop br))
      else Returned (None, mkBlockReader (err br) (head_block h') h' (nextBlockNoop br)).
Proof.
  intros Hp Hu Hf.
  set (head' := mkPartMergeIter (block head) [] (failure head)
                  (Some (default EOF (failure head)))).
  destruct (Pop_spec pih_less pih_less_asym pih_le_trans head' tl)
    as (h' & HPop & Hperm & Hheap).
  exists h'. split; [exact Hperm|]. split.
  - intros Hok. apply Hheap. now apply (heap_ok_same_key head).
  - unfold nextMetadata, pmi_nextBlockMetadata. rewrite Hp, Hu.
    fold head'.
    assert (Hclean : pmi_error head' = None).
    { unfold pmi_error, head'. cbn [pmi_err]. unfold fails in Hf.
      destruct (failure head) as [e|]; cbn [from_option]; unfold id.
      - apply negb_false_iff in Hf. now rewrite Hf.
      - reflexivity. }
    rewrite Hclean, HPop. reflexivity.
Qed.

(** The caller's loop from a state whose current block has been handed
    out: it ends; with iterators that all end cleanly it ends in
    end-of-stream having produced every remaining descriptor, in ascending
    order when the queue is a heap over sorted sequences; with an iterator
    that fails it ends with that failure wrapped. *)
Lemma drain_spec (fuel : nat) :
  forall (h : list partMergeIter) (blk : option blockMetadata),
  h <> [] -> (length (contents h) <= fuel)%nat ->
  exists out br',
    drain fuel (mkBlockReader None blk h false) = Some (out, br') /\
    (Forall (fun it => fails it = false) h ->
       err br' = Some EOF /\
       forall hd, head_block h = Some hd ->
         hd :: out ≡ₚ contents h /\
         (heap_ok pih_less h ->
          Forall (fun it => StronglySorted block_le (remaining it)) h ->
          StronglySorted block_le (hd :: out))) /\
    ((exists it, it ∈ h /\ fails it = true) ->
       exists it e, it ∈ h /\ failure it = Some e /\ is_eof e = false /\
         err br' = Some (Wrap merge_msg e)).
Proof.
  induction fuel as [|fuel IH]; intros h blk Hne Hlen.
  { destruct h as [|head tl]; [congruence|].
    rewrite contents_cons in Hlen. cbn [length] in Hlen. lia. }
  destruct h as [|head tl]; [congruence|]. clear Hne.
  set (br := mkBlockReader None blk (head :: tl) false).
  cbn [drain]. unfold nextBlockMetadata. cbn [err nextBlockNoop br].
  destruct (upcoming head) as [|b rest] eqn:Hu.
  - (* the head is exhausted *)
    destruct (fails head) eqn:Hf.
    + (* by an error *)
      destruct (nextMetadata_fail br head tl eq_refl Hu Hf)
        as (e & h' & He & Heof & Hnm).
      fold br. rewrite Hnm, Heof.
      eexists _, _. split; [reflexivity|]. split.
      * intros Hall. apply Forall_cons_1 in Hall as [Hc _]. congruence.
      * intros _. exists head, e. split; [apply elem_of_cons; now left|].
        repeat split; assumption.
    + (* cleanly: it leaves the queue *)
      destruct (nextMetadata_pop br head tl eq_refl Hu Hf)
        as (h' & Hperm & Hheap & Hnm).
      fold br. rewrite Hnm. rewrite contents_cons, Hu in Hlen.
      cbn [length app] in Hlen.
      destruct h' as [|head2 tl2] eqn:Hh'.
      * (* the queue is empty: end of stream *)
        cbn [length Nat.eqb is_eof].
        apply Permutation_nil_l in Hperm. subst tl.
        eexists _, _. split; [reflexivity|]. split.
        -- intros _. split; [reflexivity|].
           intros hd Hhd. rewrite head_block_cons in Hhd. injection Hhd as <-.
           rewrite contents_cons, Hu. split; [reflexivity|].
           intros _ _. repeat constructor.
        -- intros (it & Hit & Hfi). apply list_elem_of_singleton in Hit.
           subst it. congruence.
      * cbn [length Nat.eqb]. unfold set_err, br.
        cbn [err br_block pih nextBlockNoop].
        rewrite head_block_cons. rewrite <- Hh' in *.
        assert (Hne' : h' <> []) by (rewrite Hh'; discriminate).
        destruct (IH h' (Some (block head2)) Hne') as (out & br' & Hd & Hclean & Herr).
        { rewrite (Permutation_length (contents_perm _ _ Hperm)). lia. }
        exists (block head2 :: out), br'. split; [now rewrite Hd|]. split.
        -- intros Hall. apply Forall_cons_1 in Hall as [_ Hall].
           rewrite <- Hperm in Hall.
           destruct (Hclean Hall) as (Herr' & Hout). split; [exact Herr'|].
           intros hd Hhd. rewrite head_block_cons in Hhd. injection Hhd as <-.
           destruct (Hout (block head2)) as (Hp2 & Hs2);
             [rewrite Hh'; apply head_block_cons|].
           split.
           ++ rewrite contents_cons, Hu. cbn [app].
              now rewrite Hp2, (contents_perm _ _ Hperm).
           ++ intros Hok Hsorted. constructor.
              ** apply Hs2; [now apply Hheap|].
                 rewrite Hperm. now apply Forall_cons_1 in Hsorted as [_ ?].
              ** pose proof (root_block_least head tl Hok Hsorted) as Hge.
                 rewrite contents_cons, Hu in Hge. cbn [app] in Hge.
                 apply Forall_cons_1 in Hge as [_ Hge].
                 now rewrite Hp2, (contents_perm _ _ Hperm).
        -- intros (it & Hit & Hfi).
           apply elem_of_cons in Hit as [->|Hit]; [congruence|].
           destruct Herr as (it' & e & Hit' & Hrest).
           { exists it. split; [now rewrite Hperm|assumption]. }
           exists it', e. split; [|exact Hrest].
           apply elem_of_cons. right. now rewrite <- Hperm.
  - (* the head has a next block: it stays in the queue *)
    fold br. rewrite (nextMetadata_advance br head tl b rest eq_refl Hu).
    cbv zeta. unfold set_err, br. cbn [err br_block pih nextBlockNoop].
    set (head' := mkPartMergeIter b rest (failure head) (pmi_err head)).
    set (h' := Fix pih_less (head' :: tl) 0).
    assert (Hperm : h' ≡ₚ head' :: tl) by apply Fix_root_perm.
    assert (Hne' : h' <> []) by (eapply nonempty_perm; [exact Hperm|discriminate]).
    rewrite contents_cons, Hu in Hlen. cbn [length app] in Hlen.
    destruct h' as [|head2 tl2] eqn:Hh'; [congruence|].
    rewrite head_block_cons. rewrite <- Hh' in *.
    destruct (IH h' (Some (block head2)) Hne') as (out & br' & Hd & Hclean & Herr).
    { rewrite (Permutation_length (contents_perm _ _ Hperm)).
      rewrite contents_cons. cbn [length upcoming head']. lia. }
    exists (block head2 :: out), br'. split; [now rewrite Hd|]. split.
    + intros Hall.
      assert (Hall' : Forall (fun it => fails it = false) h').
      { rewrite Hperm. apply Forall_cons_1 in Hall as [Hc Hall].
        constructor; assumption. }
      destruct (Hclean Hall') as (Herr' & Hout). split; [exact Herr'|].
      intros hd Hhd. rewrite head_block_cons in Hhd. injection Hhd as <-.
      destruct (Hout (block head2)) as (Hp2 & Hs2);
        [rewrite Hh'; apply head_block_cons|].
      split.
      * rewrite contents_cons, Hu.
        now rewrite Hp2, (contents_perm _ _ Hperm).
      * intros Hok Hsorted. constructor.
        -- apply Hs2.
           ++ subst h'. apply (Fix_root_spec pih_less pih_less_asym pih_le_trans).
              intros p Hp. now apply (heap_ok_below_root head).
           ++ rewrite Hperm. apply Forall_cons_1 in Hsorted as [Hsh Hst].
              constructor; [|assumption].
              unfold remaining in *. rewrite Hu in Hsh.
              now apply StronglySorted_inv in Hsh as [? _].
        -- pose proof (root_block_least head tl Hok Hsorted) as Hge.
           rewrite contents_cons, Hu in Hge.
           apply Forall_cons_1 in Hge as [_ Hge].
           now rewrite Hp2, (contents_perm _ _ Hperm).
    + intros (it & Hit & Hfi).
      destruct Herr as (it' & e & Hit' & Hfail & Hrest).
      { apply elem_of_cons in Hit as [->|Hit].
        - exists head'. split; [rewrite Hperm; apply elem_of_cons; now left|].
          exact Hfi.
        - exists it. split; [rewrite Hperm; apply elem_of_cons; now right|].
          exact Hfi. }
      rewrite Hperm in Hit'. apply elem_of_cons in Hit' as [->|Hit'].
      * exists head, e. split; [apply elem_of_cons; now left|].
        split; [exact Hfail|exact Hrest].
      * exists it', e. split; [apply elem_of_cons; now right|].
        split; [exact Hfail|exact Hrest].
Qed.

(** *** [init] *)

Lemma advanced_cons (pi : partMergeIter) (pii : list partMergeIter) :
  advanced (pi :: pii) =
    match upcoming pi with
    | b :: rest => mkPartMergeIter b rest (failure pi) (pmi_err pi) :: advanced pii
    | [] => advanced pii
    end.
Proof. unfold advanced. cbn [omap list_omap]. now destruct (upcoming pi). Qed.

Lemma contents_advanced (pii : list partMergeIter) :
  contents (advanced pii) = pii ≫= upcoming.
Proof.
  induction pii as [|pi pii IH]; [reflexivity|].
  rewrite advanced_cons. cbn [mbind list_bind].
  destruct (upcoming pi) as [|b rest].
  - exact IH.
  - rewrite contents_cons. cbn [block upcoming app]. now rewrite IH.
Qed.

Lemma elem_of_advanced (it : partMergeIter) (pii : list partMergeIter) :
  it ∈ advanced pii <->
  exists pi b rest, pi ∈ pii /\ upcoming pi = b :: rest /\
    it = mkPartMergeIter b rest (failure pi) (pmi_err pi).
Proof.
  unfold advanced. rewrite list_elem_of_omap. split.
  - intros (pi & Hpi & H). destruct (upcoming pi) as [|b rest] eqn:Hu; [discriminate|].
    injection H as <-. eauto 6.
  - intros (pi & b & rest & Hpi & Hu & ->). exists pi. split; [exact Hpi|].
    now rewrite Hu.
Qed.

(** The loop of [init] either runs to its end, having queued the
    iterators that have a first block, or returns at the first iterator
    that is exhausted by an error before its first block. *)
Lemma init_loop_spec (pii : list partMergeIter) :
  forall br,
  match init_loop pii br with
  | inr br' =>
      br' = mkBlockReader (err br) (br_block br) (pih br ++ advanced pii)
                          (nextBlockNoop br) /\
      Forall (fun it => upcoming it = [] -> fails it = false) pii
  | inl br' =>
      exists it e, it ∈ pii /\ upcoming it = [] /\ failure it = Some e /\
        is_eof e = false /\ err br' = Some (Wrap merge_msg e)
  end.
Proof.
  induction pii as [|pi pii IH]; intros br.
  - cbn [init_loop]. split; [|constructor].
    unfold advanced. cbn [omap list_omap]. rewrite app_nil_r. now destruct br.
  - cbn [init_loop]. unfold pmi_nextBlockMetadata. rewrite advanced_cons.
    destruct (upcoming pi) as [|b rest] eqn:Hu.
    + unfold pmi_error. cbn [pmi_err].
      destruct (failure pi) as [e|] eqn:Hf; cbn [from_option]; unfold id.
      * destruct (is_eof e) eqn:He.
        -- specialize (IH br). destruct (init_loop pii br) as [br'|br'].
           ++ destruct IH as (it & e' & Hit & Hrest).
              exists it, e'. split; [apply elem_of_cons; now right|exact Hrest].
           ++ destruct IH as [-> Hall]. split; [reflexivity|].
              constructor; [|exact Hall]. intros _. unfold fails.
              now rewrite Hf, He.
        -- exists pi, e. split; [apply elem_of_cons; now left|].
           repeat split; assumption.
      * cbn [is_eof].
        specialize (IH br). destruct (init_loop pii br) as [br'|br'].
        -- destruct IH as (it & e' & Hit & Hrest).
           exists it, e'. split; [apply elem_of_cons; now right|exact Hrest].
        -- destruct IH as [-> Hall]. split; [reflexivity|].
           constructor; [|exact Hall]. intros _. unfold fails. now rewrite Hf.
    + match goal with |- context [init_loop pii ?b] =>
        specialize (IH b); destruct (init_loop pii b) as [br'|br'] end.
      * destruct IH as (it & e' & Hit & Hrest).
        exists it, e'. split; [apply elem_of_cons; now right|exact Hrest].
      * destruct IH as [-> Hall]. cbn [err br_block pih nextBlockNoop].
        split; [now rewrite <- app_assoc|].
        constructor; [|exact Hall]. intros Hnil. congruence.
Qed.

(** An iterator that yields no blocks and no error is invisible to [init]. *)
Lemma init_loop_skip_empty (l1 l2 : list partMergeIter) (e : partMergeIter) :
  upcoming e = [] -> fails e = false ->
  forall br, init_loop (l1 ++ e :: l2) br = init_loop (l1 ++ l2) br.
Proof.
  intros Hu Hf. induction l1 as [|pi l1 IH]; intros br.
  - cbn [app init_loop]. unfold pmi_nextBlockMetadata. rewrite Hu.
    unfold pmi_error. cbn [pmi_err]. unfold fails in Hf.
    destruct (failure e) as [x|]; cbn [from_option]; unfold id.
    + apply negb_false_iff in Hf. now rewrite Hf.
    + reflexivity.
  - cbn [app init_loop]. destruct (pmi_nextBlockMetadata pi) as [ok pi'].
    destruct ok; [apply IH|]. destruct (pmi_error pi'); [reflexivity|apply IH].
Qed.

Lemma merge_skip_empty (l1 l2 : list partMergeIter) (e : partMergeIter) :
  upcoming e = [] -> fails e = false ->
  merge (l1 ++ e :: l2) = merge (l1 ++ l2).
Proof.
  intros Hu Hf. unfold merge, init, reset.
  rewrite (init_loop_skip_empty l1 l2 e Hu Hf).
  replace (total_blocks (l1 ++ e :: l2)) with (total_blocks (l1 ++ l2));
    [reflexivity|].
  unfold total_blocks. rewrite !bind_app. cbn [mbind list_bind].
  now rewrite Hu.
Qed.

(** Once an error is recorded every further call returns false. *)
Lemma nextBlockMetadata_stopped (br : blockReader) :
  err br <> None -> nextBlockMetadata br = Returned (false, br).
Proof. unfold nextBlockMetadata. destruct (err br); congruence. Qed.

(** The whole merge, in the three ways it can go. *)
Lemma merge_spec (pii : list partMergeIter) :
  exists out br',
    merge pii = Some (out, br') /\
    nextBlockMetadata br' = Returned (false, br') /\
    (Forall (fun it => fails it = false) pii ->
       err br' = Some EOF /\
       out ≡ₚ pii ≫= upcoming /\
       (Forall (fun it => Sorted block_le (upcoming it)) pii ->
        StronglySorted block_le out)) /\
    ((exists it, it ∈ pii /\ fails it = true) ->
       exists it e, it ∈ pii /\ failure it = Some e /\ is_eof e = false /\
         err br' = Some (Wrap merge_msg e)).
Proof.
  unfold merge, init, reset.
  pose proof (init_loop_spec pii (mkBlockReader None None [] false)) as Hinit.
  destruct (init_loop pii (mkBlockReader None None [] false)) as [br1|br1].
  - (* an iterator failed before its first block *)
    destruct Hinit as (it & e & Hit & Hu & Hf & Heof & Herr).
    exists [], br1. cbn [drain].
    rewrite nextBlockMetadata_stopped by (rewrite Herr; discriminate).
    split; [reflexivity|]. split; [reflexivity|]. split.
    + intros Hall. rewrite Forall_forall in Hall. specialize (Hall it Hit).
      unfold fails in Hall. rewrite Hf, Heof in Hall. discriminate.
    + intros _. exists it, e. repeat split; assumption.
  - destruct Hinit as [-> Hfirst]. cbn [pih app err br_block nextBlockNoop].
    destruct (advanced pii) as [|a0 adv] eqn:Hadv.
    + (* nothing to merge *)
      cbn [length Nat.eqb].
      eexists [], _. cbn [drain]. unfold nextBlockMetadata. cbn [err].
      split; [reflexivity|]. split; [reflexivity|].
      pose proof (contents_advanced pii) as Hc. rewrite Hadv in Hc.
      split.
      * intros _. split; [reflexivity|]. rewrite <- Hc. split; [reflexivity|].
        intros _. constructor.
      * intros (it & Hit & Hf). exfalso.
        rewrite Forall_forall in Hfirst. specialize (Hfirst it Hit).
        destruct (upcoming it) as [|b rest] eqn:Hu.
        -- rewrite Hfirst in Hf by reflexivity. discriminate.
        -- assert (Hin : mkPartMergeIter b rest (failure it) (pmi_err it) ∈ advanced pii).
           { apply elem_of_advanced. eauto 6. }
           rewrite Hadv in Hin. now apply elem_of_nil in Hin.
    + rewrite <- Hadv.
      assert (Hlen0 : (length (advanced pii) =? 0)%nat = false)
        by (rewrite Hadv; reflexivity).
      rewrite Hlen0.
      destruct (Init_spec pih_less pih_less_asym pih_le_trans (advanced pii))
        as [Hheap Hperm].
      set (h := Init pih_less (advanced pii)) in *.
      assert (Hne : h <> []).
      { eapply nonempty_perm; [exact Hperm|]. rewrite Hadv. discriminate. }
      cbn [drain]. unfold nextBlockMetadata. cbn [err nextBlockNoop br_block pih].
      destruct h as [|head tl] eqn:Hh; [congruence|].
      rewrite head_block_cons. rewrite <- Hh in *.
      destruct (drain_spec (total_blocks pii) h (Some (block head)) Hne)
        as (out & br' & Hd & Hclean & Herr).
      { unfold total_blocks. rewrite <- contents_advanced.
        now rewrite (Permutation_length (contents_perm _ _ Hperm)). }
      exists (block head :: out), br'. split; [now rewrite Hd|].
      assert (Hstop : nextBlockMetadata br' = Returned (false, br')).
      { destruct (decide (Forall (fun it => fails it = false) h)) as [Hall|Hex].
        - destruct (Hclean Hall) as [He _].
          apply nextBlockMetadata_stopped. rewrite He. discriminate.
        - apply not_Forall_Exists in Hex; [|intros x; apply _].
          apply Exists_exists in Hex as (it & Hit & Hf).
          destruct Herr as (it' & e & _ & _ & _ & He).
          { exists it. split; [exact Hit|]. cbn in Hf.
            destruct (fails it); [reflexivity|congruence]. }
          apply nextBlockMetadata_stopped. rewrite He. discriminate. }
      split; [exact Hstop|]. split.
      * intros Hall.
        assert (Hall' : Forall (fun it => fails it = false) h).
        { rewrite Hperm. apply Forall_forall. intros it Hit.
          apply elem_of_advanced in Hit as (pi & b & rest & Hpi & Hu & ->).
          rewrite Forall_forall in Hall. exact (Hall pi Hpi). }
        destruct (Hclean Hall') as (He & Hout). split; [exact He|].
        destruct (Hout (block head)) as (Hp & Hs);
          [rewrite Hh; apply head_block_cons|].
        split.
        -- now rewrite Hp, (contents_perm _ _ Hperm), contents_advanced.
        -- intros Hsorted. apply Hs; [exact Hheap|].
           rewrite Hperm. apply Forall_forall. intros it Hit.
           apply elem_of_advanced in Hit as (pi & b & rest & Hpi & Hu & ->).
           rewrite Forall_forall in Hsorted. specialize (Hsorted pi Hpi).
           unfold remaining. cbn [block upcoming]. rewrite <- Hu.
           exact (@Sorted_StronglySorted _ block_le block_le_trans _ Hsorted).
      * intros (it & Hit & Hf).
        destruct (upcoming it) as [|b rest] eqn:Hu.
        { (* such an iterator would have stopped [init] *)
          rewrite Forall_forall in Hfirst.
          rewrite (Hfirst it Hit Hu) in Hf. discriminate. }
        destruct Herr as (it' & e & Hit' & Hfail & Heof & He).
        { exists (mkPartMergeIter b rest (failure it) (pmi_err it)).
          split; [|exact Hf].
          rewrite Hperm. apply elem_of_advanced. eauto 6. }
        rewrite Hperm in Hit'.
        apply elem_of_advanced in Hit' as (pi & b' & rest' & Hpi & Hu' & ->).
        exists pi, e. repeat split; assumption.
Qed.

(** C1. For iterators whose block-metadata sequences are each sorted by
    (series identifier, timestamp) and which end without error,
    [blockReader.init] followed by [nextBlockMetadata] until it returns
    false emits exactly the multiset union of the input sequences, in
    ascending order by (series identifier, timestamp), and ends cleanly;
    adding or removing an iterator that yields no blocks and no error
    does not change what is emitted. *)
Theorem merge_sorted_union (pii : list partMergeIter) :
  Forall (fun it => fails it = false) pii ->
  Forall (fun it => Sorted block_le (upcoming it)) pii ->
  exists out br',
    merge pii = Some (out, br') /\
    out ≡ₚ pii ≫= upcoming /\
    Sorted block_le out /\
    nextBlockMetadata br' = Returned (false, br') /\
    error_of br' = None /\
    (forall l1 l2 e, pii = l1 ++ l2 -> upcoming e = [] -> fails e = false ->
       merge (l1 ++ e :: l2) = Some (out, br')) /\
    (forall l1 l2 e, pii = l1 ++ e :: l2 -> upcoming e = [] ->
       merge (l1 ++ l2) = Some (out, br')).
Proof.
  intros Hclean Hsorted.
  destruct (merge_spec pii) as (out & br' & Hm & Hstop & Hc & _).
  destruct (Hc Hclean) as (Herr & Hperm & Hs).
  exists out, br'. split; [exact Hm|]. split; [exact Hperm|].
  split; [apply StronglySorted_Sorted; auto|].
  split; [exact Hstop|].
  split; [unfold error_of; now rewrite Herr|].
  split.
  - intros l1 l2 e -> Hu Hf. now rewrite merge_skip_empty.
  - intros l1 l2 e -> Hu. rewrite <- Hm. symmetry.
    apply merge_skip_empty; [exact Hu|].
    rewrite Forall_forall in Hclean. apply Hclean.
    rewrite elem_of_app, elem_of_cons. tauto.
Qed.

Lemma merge_sorted_union_witness :
  Forall (fun it => fails it = false) example_iters /\
  Forall (fun it => Sorted block_le (upcoming it)) example_iters /\
  exists out br',
    merge example_iters = Some (out, br') /\
    out ≡ₚ example_iters ≫= upcoming /\
    Sorted block_le out.
Proof.
  assert (H1 : Forall (fun it => fails it = false) example_iters)
    by (repeat constructor).
  assert (H2 : Forall (fun it => Sorted block_le (upcoming it)) example_iters)
    by (repeat constructor).
  split; [exact H1|]. split; [exact H2|].
  destruct (merge_sorted_union example_iters H1 H2)
    as (out & br' & Hm & Hp & Hs & _).
  exists out, br'. auto.
Defined.




End MergeProperties.

(** ** Building blocks from a batch *)

Section SortProperties.
Import Stream.

Lemma element_le_iff (a b : element) :
  element_le a b <->
  e_seriesID a < e_seriesID b \/
  (e_seriesID a = e_seriesID b /\ e_timestamp a <= e_timestamp b).
Proof.
  unfold element_le, element_less.
  destruct (Z.eqb_spec (e_seriesID b) (e_seriesID a));
    destruct (Z.ltb_spec (e_timestamp b) (e_timestamp a));
    destruct (Z.ltb_spec (e_seriesID b) (e_seriesID a));
    split; intros; try lia; try discriminate; try reflexivity.
Qed.

Lemma element_le_trans (a b c : element) :
  element_le a b -> element_le b c -> element_le a c.
Proof. rewrite !element_le_iff. lia. Qed.

Lemma element_less_le (a b : element) : element_less a b = true -> element_le a b.
Proof.
  intros H. apply element_le_iff. unfold element_less in H.
  destruct (Z.eqb_spec (e_seriesID a) (e_seriesID b)); lia.
Qed.

Lemma sort_insert_perm (x : element) (l : list element) :
  sort_insert x l ≡ₚ x :: l.
Proof.
  induction l as [|y l IH]; [reflexivity|]. cbn [sort_insert].
  destruct (element_less y x); [|reflexivity].
  rewrite IH. apply Permutation_swap.
Qed.

Lemma sort_elements_perm (es : list element) : sort_elements es ≡ₚ es.
Proof.
  induction es as [|e es IH]; [reflexivity|].
  cbn [sort_elements foldr]. fold (sort_elements es).
  now rewrite sort_insert_perm, IH.
Qed.

Lemma sort_insert_sorted (x : element) (l : list element) :
  StronglySorted element_le l -> StronglySorted element_le (sort_insert x l).
Proof.
  induction l as [|y l IH]; intros Hs; cbn [sort_insert].
  - repeat constructor.
  - apply StronglySorted_inv in Hs as [Hs Hall].
    destruct (element_less y x) eqn:Hlt.
    + constructor; [now apply IH|].
      rewrite sort_insert_perm. constructor; [now apply element_less_le|exact Hall].
    + constructor; [now constructor|].
      constructor; [exact Hlt|].
      eapply Forall_impl; [exact Hall|]. intros z Hz.
      now apply element_le_trans with y.
Qed.

Lemma sort_elements_sorted (es : list element) :
  StronglySorted element_le (sort_elements es).
Proof.
  induction es as [|e es IH]; [constructor|].
  cbn [sort_elements foldr]. now apply sort_insert_sorted.
Qed.

End SortProperties.

Section BuilderProperties.
Import Measure Stream.
Variable cap : Z.
Variable sort_Sort : list element -> list element.

Local Abbreviation sz := uncompressedElementSizeBytes.

(** Two rows in ascending order with distinct keys are left in that order
    by every sort. *)
Lemma sorted_pair (f : list element -> list element) (a b : element) :
  element_less a b = true ->
  f [a; b] ≡ₚ [a; b] -> Sorted element_le (f [a; b]) -> f [a; b] = [a; b].
Proof.
  intros Hab Hp Hs. symmetry in Hp.
  apply Permutation_length_2_inv in Hp as [Heq|Heq]; [exact Heq|].
  rewrite Heq in Hs. apply Sorted_inv in Hs as [_ Hhd].
  apply HdRel_inv in Hhd. unfold element_le in Hhd. congruence.
Qed.

Lemma sorted_batch_nonempty (es : list element) :
  sort_Sort es ≡ₚ es -> es <> [] -> sort_Sort es <> [].
Proof.
  intros Hp Hne Hnil. rewrite Hnil in Hp.
  apply Permutation_nil_l in Hp. congruence.
Qed.

Lemma wrap64_range (x : Z) : 0 <= wrap64 x < 2 ^ 64.
Proof. unfold wrap64. apply Z.mod_pos_bound. lia. Qed.

Lemma wrap64_small (x : Z) : 0 <= x < 2 ^ 64 -> wrap64 x = x.
Proof. intros H. unfold wrap64. now apply Z.mod_small. Qed.

Lemma tagValues_size_range (n : Z) (tv : tagValues) :
  0 <= tagValues_size n tv < 2 ^ 64.
Proof.
  unfold tagValues_size.
  generalize (wrap64_range (n + Z.of_nat (String.length (tag tv)))).
  generalize (wrap64 (n + Z.of_nat (String.length (tag tv)))).
  induction (values tv) as [|v vs IH]; intros acc Hacc; cbn [foldl]; [exact Hacc|].
  apply IH, wrap64_range.
Qed.

Lemma sz_range (e : element) : 0 <= sz e < 2 ^ 64.
Proof.
  unfold uncompressedElementSizeBytes.
  assert (H : 0 <= 8 + 8 < 2 ^ 64) by lia. revert H.
  generalize (8 + 8).
  induction (e_tagFamilies e) as [|tv tvs IH]; intros acc Hacc; cbn [foldl];
    [exact Hacc|].
  apply IH, tagValues_size_range.
Qed.

Lemma rows_size_cons (e : element) (a : list element) :
  rows_size (e :: a) = sz e + rows_size a.
Proof. reflexivity. Qed.

Lemma rows_size_app (a b : list element) :
  rows_size (a ++ b) = rows_size a + rows_size b.
Proof.
  induction a as [|e a IH]; [reflexivity|].
  cbn [app]. rewrite !rows_size_cons. lia.
Qed.

Lemma rows_size_nonneg (a : list element) : 0 <= rows_size a.
Proof.
  induction a as [|e a IH]; [cbn; lia|].
  rewrite rows_size_cons. pose proof (sz_range e). lia.
Qed.

Lemma rows_size_perm (a b : list element) : a ≡ₚ b -> rows_size a = rows_size b.
Proof. induction 1; rewrite ?rows_size_cons; lia. Qed.

(** The index form and the accumulator form of the loop agree. *)
Lemma loop_blocks_from (rest : list element) :
  forall (pre : list element) (st : loopState),
  (indexPrev st <= length pre)%nat ->
  let st' := loop cap (pre ++ rest) rest (length pre) st in
  written st' ++
    [mkWrittenBlock (sidPrev st') (drop (indexPrev st') (pre ++ rest))]
  = written st ++
      blocks_from cap rest (sidPrev st) (uncompressedBlockSizeBytes st)
        (drop (indexPrev st) pre).
Proof.
  induction rest as [|e rest IH]; intros pre st Hle; cbv zeta.
  - cbn [loop blocks_from]. now rewrite app_nil_r.
  - cbn [loop blocks_from].
    replace (pre ++ e :: rest) with ((pre ++ [e]) ++ rest)
      by (now rewrite <- app_assoc).
    replace (S (length pre)) with (length (pre ++ [e]))
      by (rewrite length_app; cbn; lia).
    assert (Hslice : slice (indexPrev st) (length pre) ((pre ++ [e]) ++ rest)
                     = drop (indexPrev st) pre).
    { unfold slice. rewrite <- app_assoc, drop_app_le by lia.
      rewrite take_app_le by (rewrite length_drop; lia).
      apply take_ge. rewrite length_drop. lia. }
    specialize (IH (pre ++ [e])
                  (loop_step cap ((pre ++ [e]) ++ rest) (length pre) e st)).
    cbv zeta in IH. rewrite IH; clear IH.
    + unfold loop_step. cbv zeta.
      destruct ((cap <=? uncompressedBlockSizeBytes st)
                || negb (e_seriesID e =?
                         (if sidPrev st =? 0 then e_seriesID e else sidPrev st)))%bool.
      * cbn [written sidPrev uncompressedBlockSizeBytes indexPrev].
        rewrite Hslice, <- app_assoc. cbn [app].
        rewrite drop_app_length. reflexivity.
      * cbn [written sidPrev uncompressedBlockSizeBytes indexPrev].
        now rewrite drop_app_le by lia.
    + unfold loop_step. cbv zeta.
      destruct ((cap <=? uncompressedBlockSizeBytes st)
                || negb (e_seriesID e =?
                         (if sidPrev st =? 0 then e_seriesID e else sidPrev st)))%bool;
        cbn [indexPrev]; rewrite length_app; cbn [length]; lia.
Qed.

Lemma mustInitFromElements_blocks_from (es : list element) :
  es <> [] ->
  mustInitFromElements cap sort_Sort es = blocks_from cap (sort_Sort es) 0 0 [].
Proof.
  intros Hne. unfold mustInitFromElements.
  destruct es as [|e es]; [congruence|]. cbn [length Nat.eqb]. cbv zeta.
  exact (loop_blocks_from (sort_Sort (e :: es)) [] (mkLoopState 0 0 0 [])
           (Nat.le_refl _)).
Qed.

(** The blocks are consecutive runs of the rows. *)
Lemma blocks_from_concat (rest : list element) :
  forall sp size cur,
  concat (wb_rows <$> blocks_from cap rest sp size cur) = cur ++ rest.
Proof.
  induction rest as [|e rest IH]; intros sp size cur; cbn [blocks_from].
  - cbn. now rewrite app_nil_r.
  - cbv zeta. match goal with |- context [if ?c then _ else _] => destruct c end.
    + cbn [fmap list_fmap concat wb_rows]. rewrite IH. reflexivity.
    + rewrite IH. now rewrite <- app_assoc.
Qed.

Lemma blocks_from_nonempty (rest : list element) sp size cur :
  blocks_from cap rest sp size cur <> [].
Proof.
  revert sp size cur. induction rest as [|e rest IH]; intros sp size cur;
    cbn [blocks_from]; [discriminate|].
  cbv zeta. match goal with |- context [if ?c then _ else _] => destruct c end;
    [discriminate|apply IH].
Qed.

Lemma removelast_snoc {T} (l : list T) (x : T) : removelast (l ++ [x]) = l.
Proof. now rewrite removelast_last. Qed.

Lemma removelast_app_nonempty {T} (l k : list T) :
  k <> [] -> removelast (l ++ k) = l ++ removelast k.
Proof. intros H. now apply removelast_app. Qed.

(** The blocks of a run of rows of one series [s]: a block is closed only
    once its size has reached the cap. *)
Lemma blocks_from_single_series (s : Z) (rest : list element) :
  forall (sp size : Z) (cur : list element),
  0 < cap ->
  Forall (fun e => e_seriesID e = s /\ sz e + cap <= 2 ^ 64) rest ->
  sp = 0 \/ sp = s ->
  size = rows_size cur ->
  rows_size (removelast cur) < cap ->
  let bs := wb_rows <$> blocks_from cap rest sp size cur in
  Forall (fun b => rows_size (removelast b) < cap) bs /\
  Forall (fun b => cap <= rows_size b) (removelast bs) /\
  (rows_size (cur ++ rest) < cap -> length bs = 1%nat) /\
  (cap <= rows_size (removelast (cur ++ rest)) <-> (2 <= length bs)%nat) /\
  (cur ++ rest <> [] -> Forall (fun b => b <> []) bs).
Proof.
  induction rest as [|e rest IH]; intros sp size cur Hcap Hall Hsp Hsize Hlast;
    cbv zeta; cbn [blocks_from].
  - cbn [fmap list_fmap wb_rows removelast length]. rewrite app_nil_r.
    repeat split; try (repeat constructor; fail); try lia.
    + repeat constructor. exact Hlast.
    + intros Hne. repeat constructor. exact Hne.
  - apply Forall_cons_1 in Hall as [[Hsid Hfit] Hall]. cbv zeta.
    assert (Hsp0 : (if sp =? 0 then e_seriesID e else sp) = s).
    { destruct (Z.eqb_spec sp 0); [exact Hsid|]. destruct Hsp; congruence. }
    rewrite Hsp0, Hsid, Z.eqb_refl. cbn [negb]. rewrite orb_false_r.
    pose proof (sz_range e) as Hrange.
    pose proof (rows_size_nonneg cur) as Hcur.
    pose proof (rows_size_nonneg rest) as Hrest.
    destruct (Z.leb_spec cap size) as [Hfull|Hroom].
    + (* the block is full: it is written and [e] starts the next one *)
      rewrite (wrap64_small (0 + sz e)) by lia.
      specialize (IH s (0 + sz e) [e] Hcap Hall (or_intror eq_refl)).
      specialize (IH ltac:(rewrite rows_size_cons; cbn; lia) ltac:(cbn; lia)).
      cbv zeta in IH. destruct IH as (H1 & H2 & H3 & H4 & H5).
      rewrite fmap_cons. cbn [wb_rows].
      set (bs := wb_rows <$> blocks_from cap rest s (0 + sz e) [e]) in *.
      assert (Hbs : bs <> []).
      { subst bs. intros Hnil. apply fmap_nil_inv in Hnil.
        now apply blocks_from_nonempty in Hnil. }
      assert (Hrl : removelast (cur :: bs) = cur :: removelast bs).
      { destruct bs; [congruence|reflexivity]. }
      rewrite Hrl. cbn [length].
      repeat split.
      * constructor; assumption.
      * constructor; [lia|assumption].
      * intros Htot. rewrite rows_size_app, rows_size_cons in Htot. lia.
      * intros _. destruct bs; [congruence|cbn [length]; lia].
      * intros _. rewrite removelast_app_nonempty by discriminate.
        rewrite rows_size_app.
        pose proof (rows_size_nonneg (removelast (e :: rest))). lia.
      * intros _. constructor; [|apply H5; discriminate].
        intros ->. cbn in Hsize. lia.
    + (* there is room: [e] joins the current block *)
      rewrite (wrap64_small (size + sz e)) by lia.
      specialize (IH s (size + sz e) (cur ++ [e]) Hcap Hall
                    (or_intror eq_refl)).
      specialize (IH ltac:(rewrite rows_size_app, rows_size_cons; cbn; lia)
                    ltac:(rewrite removelast_snoc; lia)).
      cbv zeta in IH. rewrite <- app_assoc in IH. cbn [app] in IH.
      destruct IH as (H1 & H2 & H3 & H4 & H5).
      repeat split; try assumption; apply H4.
Qed.

(** With no series identifier equal to 0, every block is written under
    the series identifier of all its rows. *)
Lemma blocks_from_series (rest : list element) :
  forall (sp size : Z) (cur : list element),
  Forall (fun e => e_seriesID e <> 0) rest ->
  (sp = 0 -> cur = []) ->
  Forall (fun e => e_seriesID e = sp) cur ->
  Forall single_series (blocks_from cap rest sp size cur).
Proof.
  induction rest as [|e rest IH]; intros sp size cur Hnz Hsp Hcur;
    cbn [blocks_from].
  - repeat constructor. exact Hcur.
  - apply Forall_cons_1 in Hnz as [Hne Hnz]. cbv zeta.
    set (sp0 := if sp =? 0 then e_seriesID e else sp).
    assert (Hcur0 : Forall (fun x => e_seriesID x = sp0) cur).
    { subst sp0. destruct (Z.eqb_spec sp 0) as [->|_]; [|exact Hcur].
      rewrite Hsp by reflexivity. constructor. }
    assert (Hsp0 : sp0 <> 0).
    { subst sp0. now destruct (Z.eqb_spec sp 0). }
    destruct (e_seriesID e =? sp0) eqn:Heq; cbn [negb].
    + apply Z.eqb_eq in Heq. rewrite orb_false_r.
      destruct (cap <=? size).
      * constructor; [exact Hcur0|].
        apply IH; [exact Hnz|congruence|]. repeat constructor.
      * apply IH; [exact Hnz|congruence|].
        apply Forall_app. split; [exact Hcur0|]. repeat constructor. exact Heq.
    + rewrite orb_true_r. constructor; [exact Hcur0|].
      apply IH; [exact Hnz|congruence|]. repeat constructor.
Qed.

(** The builder on batches without the series identifier 0: the blocks
    are consecutive runs of the sorted rows, hence in ascending order by
    (series identifier, timestamp), and no block mixes series. *)
Lemma mustInitFromElements_sorted_single_series (es : list element) :
  es <> [] ->
  sort_Sort es ≡ₚ es -> Sorted element_le (sort_Sort es) ->
  Forall (fun e => e_seriesID e <> 0) es ->
  let blocks := mustInitFromElements cap sort_Sort es in
  concat (wb_rows <$> blocks) ≡ₚ es /\
  StronglySorted element_le (concat (wb_rows <$> blocks)) /\
  Forall single_series blocks.
Proof.
  intros Hne Hp Hs Hnz. cbv zeta.
  rewrite mustInitFromElements_blocks_from by exact Hne.
  rewrite blocks_from_concat. cbn [app].
  split; [exact Hp|].
  split; [exact (@Sorted_StronglySorted _ element_le element_le_trans _ Hs)|].
  apply blocks_from_series; [|reflexivity|constructor].
  now rewrite Hp.
Qed.

(** C2, on the failing input: a row of series 0 followed by a row of
    series 5 end up in one block, written under series 5, whichever way
    [sort.Sort] sorts (the two rows have distinct keys, so every sort
    leaves them in this order). *)
Theorem mustInitFromElements_mixes_series_zero :
  sort_Sort batch_with_series_zero ≡ₚ batch_with_series_zero ->
  Sorted element_le (sort_Sort batch_with_series_zero) ->
  mustInitFromElements 2097152 sort_Sort batch_with_series_zero =
    [mkWrittenBlock 5 [row 0 1 0; row 5 2 0]] /\
  ~ Forall single_series (mustInitFromElements 2097152 sort_Sort batch_with_series_zero).
Proof.
  intros Hp Hs.
  assert (H : mustInitFromElements 2097152 sort_Sort batch_with_series_zero =
              [mkWrittenBlock 5 [row 0 1 0; row 5 2 0]]).
  { unfold mustInitFromElements, batch_with_series_zero in *.
    rewrite (sorted_pair sort_Sort (row 0 1 0) (row 5 2 0) eq_refl Hp Hs).
    vm_compute. reflexivity. }
  split; [exact H|]. rewrite H. intros Hall.
  apply Forall_cons_1 in Hall as [Hb _]. unfold single_series in Hb.
  apply Forall_cons_1 in Hb as [Hb _]. cbn in Hb. discriminate.
Qed.

(** C3, the claim as stated fails (cap of 2 MiB). A block is closed only
    after its size has reached the cap: the first block of
    [batch_large_first] holds the row that exceeds the cap and is larger
    than the cap; and [batch_large_last], whose cumulative size passes the
    cap with its last row, is written as a single block. *)
Lemma single_series_blocks_exceed_cap :
  (forall f : list element -> list element,
     f batch_large_first ≡ₚ batch_large_first ->
     Sorted element_le (f batch_large_first) ->
     mustInitFromElements 2097152 f batch_large_first =
       [mkWrittenBlock 7 [row 7 1 2097152]; mkWrittenBlock 7 [row 7 2 0]]) /\
  2097152 < rows_size [row 7 1 2097152] /\
  (forall f : list element -> list element,
     f batch_large_last ≡ₚ batch_large_last ->
     Sorted element_le (f batch_large_last) ->
     mustInitFromElements 2097152 f batch_large_last =
       [mkWrittenBlock 7 [row 7 1 0; row 7 2 2097152]]) /\
  2097152 < rows_size batch_large_last.
Proof.
  split; [|split; [reflexivity|split; [|reflexivity]]].
  - intros f Hp Hs. unfold mustInitFromElements, batch_large_first in *.
    rewrite (sorted_pair f (row 7 1 2097152) (row 7 2 0) eq_refl Hp Hs).
    vm_compute. reflexivity.
  - intros f Hp Hs. unfold mustInitFromElements, batch_large_last in *.
    rewrite (sorted_pair f (row 7 1 0) (row 7 2 2097152) eq_refl Hp Hs).
    vm_compute. reflexivity.
Qed.

(** C3, amended. For a batch of rows of a single series, in whichever
    order [sort.Sort] has left its rows: the blocks written are consecutive
    runs of the rows in that order and none is empty; if the total
    uncompressed size (16 bytes per row plus the tag sizes) stays below the
    cap, exactly one block is written; at least two blocks are written
    exactly when the rows before the last one already reach the cap; each
    split is placed after the row with which the block's size reaches the
    cap, so every block but the last has reached the cap and every block
    is below the cap without its last row. *)
Theorem single_series_blocks (s : Z) (es : list element) :
  0 < cap ->
  es <> [] ->
  Forall (fun e => e_seriesID e = s /\ sz e + cap <= 2 ^ 64) es ->
  sort_Sort es ≡ₚ es ->
  let blocks := wb_rows <$> mustInitFromElements cap sort_Sort es in
  concat blocks = sort_Sort es /\
  Forall (fun b => b <> []) blocks /\
  (rows_size es < cap -> length blocks = 1%nat) /\
  (cap <= rows_size (removelast (sort_Sort es)) <-> (2 <= length blocks)%nat) /\
  Forall (fun b => cap <= rows_size b) (removelast blocks) /\
  Forall (fun b => rows_size (removelast b) < cap) blocks.
Proof.
  intros Hcap Hne Hall Hp. cbv zeta.
  rewrite mustInitFromElements_blocks_from by exact Hne.
  assert (Hall' : Forall (fun e => e_seriesID e = s /\ sz e + cap <= 2 ^ 64)
                         (sort_Sort es))
    by (now rewrite Hp).
  pose proof (sorted_batch_nonempty es Hp Hne) as Hne'.
  destruct (blocks_from_single_series s (sort_Sort es) 0 0 [] Hcap Hall'
              (or_introl eq_refl) eq_refl ltac:(cbn; lia))
    as (H1 & H2 & H3 & H4 & H5).
  cbn [app] in *.
  split; [apply (blocks_from_concat (sort_Sort es) 0 0 [])|].
  split; [now apply H5|].
  split; [intros Hlt; apply H3; now rewrite (rows_size_perm _ _ Hp)|].
  split; [exact H4|]. split; assumption.
Qed.

End BuilderProperties.

(** ** Reference counting *)

Section RefCountProperties.
Import Measure Stream.

Lemma wrap32_small (x : Z) : - 2 ^ 31 <= x < 2 ^ 31 -> wrap32 x = x.
Proof. intros H. unfold wrap32. rewrite Z.mod_small; lia. Qed.

Lemma run_refs_app (a b : list refOp) :
  forall pw done,
  run_refs (a ++ b) pw done =
    match run_refs a pw done with
    | Returned (pw', done') => run_refs b pw' done'
    | Panicked msg => Panicked msg
    end.
Proof.
  induction a as [|op a IH]; intros pw done; [reflexivity|].
  destruct op; cbn [app run_refs]; [apply IH|].
  destruct (decRef pw) as [[pw' acts]|msg]; [apply IH|reflexivity].
Qed.

(** Balanced calls above a live reference leave the wrapper as it was and
    perform no cleanup. *)
Ltac same_ref :=
  match goal with
  | |- Returned (mkPartWrapper ?a ?b ?x ?c, ?d) = Returned (mkPartWrapper _ _ ?y _, _) =>
      apply (f_equal (fun z => Returned (mkPartWrapper a b z c, d))); lia
  end.

Lemma run_refs_balanced (ops : list refOp) :
  forall (d : nat) (pw : partWrapper) (done : list cleanup),
  balanced d ops = true ->
  1 <= ref pw - Z.of_nat d ->
  ref pw + Z.of_nat (length ops) < 2 ^ 31 ->
  run_refs ops pw done =
    Returned (mkPartWrapper (pw_mp pw) (pw_p pw) (ref pw - Z.of_nat d) (removable pw),
              done).
Proof.
  induction ops as [|op ops IH]; intros d pw done Hb Hlive Hmax.
  - cbn in Hb. apply Nat.eqb_eq in Hb. subst d. cbn [run_refs].
    destruct pw as [m q r rm]. cbn [pw_mp pw_p ref removable]. same_ref.
  - cbn [length] in Hmax. destruct op; cbn [balanced] in Hb; cbn [run_refs].
    + assert (Hw : wrap32 (ref pw + 1) = ref pw + 1) by (apply wrap32_small; lia).
      assert (Hi : ref (incRef pw) = ref pw + 1) by exact Hw.
      rewrite (IH (S d) (incRef pw) done Hb) by (rewrite Hi; lia).
      rewrite Hi. unfold incRef. cbn [pw_mp pw_p removable].
      same_ref.
    + destruct d as [|d]; [discriminate|].
      assert (Hw : wrap32 (ref pw - 1) = ref pw - 1) by (apply wrap32_small; lia).
      unfold decRef. rewrite Hw.
      destruct (Z.ltb_spec 0 (ref pw - 1)) as [_|Hle]; [|lia].
      rewrite (IH d _ (done ++ []) Hb) by (cbn [ref]; lia).
      cbn [ref pw_mp pw_p removable].
      rewrite app_nil_r. same_ref.
Qed.

(** The release of the last reference performs the cleanup. *)
Lemma decRef_last (pw : partWrapper) :
  ref pw = 1 -> pw_mp pw <> None \/ pw_p pw <> None ->
  exists pw', decRef pw = Returned (pw', cleanup_of pw) /\ ref pw' = 0.
Proof.
  intros Hr Hpart. unfold decRef, cleanup_of. rewrite Hr.
  change (wrap32 (1 - 1)) with 0. cbn [Z.ltb Z.compare].
  destruct (pw_mp pw) as [mp|]; [eexists; split; reflexivity|].
  destruct (pw_p pw) as [p|]; [eexists; split; reflexivity|].
  destruct Hpart; congruence.
Qed.

(** C4. For every balanced sequence of [incRef]/[decRef] calls on a
    wrapper created with reference count 1 (the creation reference being
    released last), the count is back at its value before the sequence
    once the sequence is over, no cleanup has happened by then, and the
    final release drives the count to zero and performs the cleanup
    exactly once: the memory part is released for a memory-backed wrapper;
    the part is closed and, if removable, the removal of its directory is
    scheduled for a file-backed one. (An [int32] counter: the sequence is
    shorter than 2^31 - 1 calls.) *)
Theorem refcount_balanced_cleanup_once
    (mp : option memPart) (p : option part) (rm : bool) (ops : list refOp) :
  let pw := mkPartWrapper mp p 1 rm in
  balanced 0 ops = true ->
  Z.of_nat (length ops) < 2 ^ 31 - 1 ->
  mp <> None \/ p <> None ->
  run_refs ops pw [] = Returned (pw, []) /\
  exists pw',
    run_refs (ops ++ [DecRef]) pw [] = Returned (pw', cleanup_of pw) /\
    ref pw' = 0 /\
    match mp, p with
    | Some m, _ => cleanup_of pw = [ReleaseMemPart m]
    | None, Some q =>
        cleanup_of pw =
          ClosePart (p_path q) ::
          (if (rm && p_fileSystem q)%bool then [ScheduleRMAll (p_path q)] else [])
    | None, None => False
    end.
Proof.
  intros pw Hb Hlen Hpart.
  assert (Hrun : run_refs ops pw [] = Returned (pw, [])).
  { rewrite (run_refs_balanced ops 0 pw [] Hb); subst pw;
      cbn [ref pw_mp pw_p removable]; try lia. reflexivity. }
  split; [exact Hrun|].
  destruct (decRef_last pw eq_refl Hpart) as (pw' & Hdec & Hzero).
  exists pw'. rewrite run_refs_app, Hrun. cbn [run_refs]. rewrite Hdec.
  split; [reflexivity|]. split; [exact Hzero|].
  subst pw. unfold cleanup_of. cbn [pw_mp pw_p removable].
  destruct mp as [m|]; [reflexivity|].
  destruct p as [q|]; [reflexivity|]. destruct Hpart; congruence.
Qed.

End RefCountProperties.


Section MergeExamples.
Import Errors Measure.

Example merge_three :
  fst <$> merge example_iters
  = Some [bm 0 9; bm 1 1; bm 1 2; bm 1 5; bm 1 5; bm 2 7; bm 3 0; bm 9 9].
Proof. vm_compute. reflexivity. Qed.

Example merge_failing :
  (fun r => (fst r, error_of (snd r))) <$> merge example_failing_iters
  = Some ([bm 1 1; bm 2 2],
          Some (Wrap merge_msg (Other "read failure"))).
Proof. vm_compute. reflexivity. Qed.

Example merge_failing_at_init :
  (fun r => (fst r, error_of (snd r))) <$> merge example_failing_at_init
  = Some ([], Some (Wrap merge_msg (Other "open failure"))).
Proof. vm_compute. reflexivity. Qed.

End MergeExamples.

(** ** Paths *)

Section FilepathProperties.
Import Filepath.

Lemma app_cons (c : ascii) (s t : string) : String c s +:+ t = String c (s +:+ t).
Proof. reflexivity. Qed.

Lemma app_nil_l (s : string) : "" +:+ s = s.
Proof. reflexivity. Qed.

Lemma string_app_nil_r (s : string) : s +:+ "" = s.
Proof. induction s as [|c s IH]; [reflexivity|]. now rewrite app_cons, IH. Qed.

Lemma string_app_assoc (a b c : string) : (a +:+ b) +:+ c = a +:+ (b +:+ c).
Proof. induction a as [|x a IH]; [reflexivity|]. now rewrite !app_cons, IH. Qed.

Lemma string_app_length (a b : string) :
  String.length (a +:+ b) = (String.length a + String.length b)%nat.
Proof. induction a as [|x a IH]; [reflexivity|]. rewrite app_cons. cbn. now rewrite IH. Qed.

Lemma string_app_eq_nil (a b : string) : a +:+ b = "" -> a = "" /\ b = "".
Proof. destruct a; [now cbn|discriminate]. Qed.

Lemma has_separator_app (a b : string) :
  has_separator (a +:+ b) =
    (has_separator a || has_separator b)%bool.
Proof.
  induction a as [|c a IH]; [reflexivity|].
  rewrite app_cons. cbn [has_separator]. now rewrite IH, orb_assoc.
Qed.

Lemma eqb_nil_app (acc n : string) :
  String.eqb (acc +:+ n) "" = (String.eqb acc "" && String.eqb n "")%bool.
Proof. destruct acc; [now destruct n|reflexivity]. Qed.

Lemma elements_go_plain (n : string) :
  forall acc, has_separator n = false ->
  elements_go acc n = if String.eqb (acc +:+ n) "" then [] else [acc +:+ n].
Proof.
  induction n as [|c n IH]; intros acc Hn.
  - cbn [elements_go]. now rewrite string_app_nil_r.
  - cbn [has_separator] in Hn. apply orb_false_iff in Hn as [Hc Hn].
    cbn [elements_go]. rewrite Hc, IH by exact Hn.
    rewrite string_app_assoc. reflexivity.
Qed.

Lemma elements_go_sep (a b : string) :
  forall acc,
  elements_go acc (a +:+ String "/" b) = elements_go acc a ++ elements_go "" b.
Proof.
  induction a as [|c a IH]; intros acc.
  - cbn [elements_go]. rewrite app_nil_l. cbn [elements_go IsPathSeparator].
    reflexivity.
  - rewrite app_cons. cbn [elements_go].
    destruct (IsPathSeparator c); rewrite IH; [|reflexivity].
    now rewrite app_assoc.
Qed.

Lemma elements_plain (n : string) : plain n -> elements n = [n].
Proof.
  intros [Hne Hs]. unfold elements. rewrite elements_go_plain by exact Hs.
  rewrite app_nil_l. now apply String.eqb_neq in Hne as ->.
Qed.

Lemma elements_go_all_plain (s : string) :
  forall acc, has_separator acc = false ->
  Forall plain (elements_go acc s).
Proof.
  induction s as [|c s IH]; intros acc Hacc; cbn [elements_go].
  - destruct (String.eqb_spec acc ""); repeat constructor; assumption.
  - destruct (IsPathSeparator c) eqn:Hc.
    + apply Forall_app. split; [|now apply IH].
      destruct (String.eqb_spec acc ""); repeat constructor; assumption.
    + apply IH. rewrite has_separator_app, Hacc. cbn. now rewrite Hc.
Qed.

Lemma elements_all_plain (s : string) : Forall plain (elements s).
Proof. now apply elements_go_all_plain. Qed.

Lemma join_elements_cons (c : string) (cs : list string) :
  cs <> [] -> join_elements (c :: cs) = c +:+ String "/" (join_elements cs).
Proof. destruct cs; [congruence|reflexivity]. Qed.

Lemma join_elements_snoc (cs : list string) (n : string) :
  cs <> [] -> join_elements (cs ++ [n]) = join_elements cs +:+ String "/" n.
Proof.
  induction cs as [|c cs IH]; [congruence|]. intros _.
  destruct cs as [|c2 cs]; [reflexivity|].
  change ((c :: c2 :: cs) ++ [n]) with (c :: ((c2 :: cs) ++ [n])).
  rewrite join_elements_cons by (now destruct cs).
  rewrite IH by discriminate.
  rewrite (join_elements_cons c (c2 :: cs)) by discriminate.
  now rewrite string_app_assoc.
Qed.

Lemma elements_join (cs : list string) :
  Forall plain cs -> elements (join_elements cs) = cs.
Proof.
  induction cs as [|c cs IH]; intros Hall; [reflexivity|].
  apply Forall_cons_1 in Hall as [Hc Hall].
  destruct cs as [|c2 cs]; [now apply elements_plain|].
  rewrite join_elements_cons by discriminate.
  unfold elements. rewrite elements_go_sep.
  fold (elements c) (elements (join_elements (c2 :: cs))).
  rewrite elements_plain by exact Hc. now rewrite IH.
Qed.

Lemma join_elements_nonempty (cs : list string) :
  Forall plain cs -> cs <> [] -> join_elements cs <> "".
Proof.
  intros Hall Hne. destruct cs as [|c cs]; [congruence|].
  apply Forall_cons_1 in Hall as [[Hc _] _].
  destruct cs; [exact Hc|]. rewrite join_elements_cons by discriminate.
  intros H. apply string_app_eq_nil in H as [? _]. congruence.
Qed.

Lemma rooted_plain (n : string) : has_separator n = false -> rooted n = false.
Proof.
  destruct n as [|c n]; [reflexivity|]. cbn. intros H.
  now apply orb_false_iff in H as [? _].
Qed.

Lemma rooted_app (a b : string) : a <> "" -> rooted (a +:+ b) = rooted a.
Proof. destruct a; [congruence|reflexivity]. Qed.

Lemma rooted_join (cs : list string) :
  Forall plain cs -> rooted (join_elements cs) = false.
Proof.
  intros Hall. destruct cs as [|c cs]; [reflexivity|].
  apply Forall_cons_1 in Hall as [[Hc Hs] _].
  destruct cs; [now apply rooted_plain|].
  rewrite join_elements_cons by discriminate.
  rewrite rooted_app by exact Hc. now apply rooted_plain.
Qed.

(** What [render] gives for a non-empty list of plain elements. *)
Lemma render_spec (r : bool) (cs : list string) :
  Forall plain cs -> cs <> [] ->
  render r cs <> "" /\ rooted (render r cs) = r /\ elements (render r cs) = cs.
Proof.
  intros Hall Hne. destruct cs as [|c cs]; [congruence|].
  unfold render. destruct r.
  - split; [discriminate|]. split; [reflexivity|].
    change ("/" +:+ join_elements (c :: cs)) with (String "/" (join_elements (c :: cs))).
    unfold elements. cbn [elements_go IsPathSeparator Ascii.eqb].
    change (elements_go "" (join_elements (c :: cs)))
      with (elements (join_elements (c :: cs))).
    cbn [String.eqb app]. now apply elements_join.
  - rewrite app_nil_l. split; [now apply join_elements_nonempty|].
    split; [now apply rooted_join|now apply elements_join].
Qed.

Lemma render_snoc (r : bool) (cs : list string) (n : string) :
  cs <> [] -> render r (cs ++ [n]) = render r cs +:+ String "/" n.
Proof.
  intros Hne. unfold render.
  destruct cs as [|c cs]; [congruence|].
  change ((c :: cs) ++ [n]) with (c :: (cs ++ [n])).
  change (c :: (cs ++ [n])) with ((c :: cs) ++ [n]).
  destruct ((c :: cs) ++ [n]) eqn:E; [destruct cs; discriminate|]. rewrite <- E.
  rewrite join_elements_snoc by discriminate.
  now rewrite string_app_assoc.
Qed.

(** *** The elements [Clean] keeps *)

Lemma clean_step_proper (r : bool) (stack : list string) (c : string) :
  proper c -> clean_step r stack c = c :: stack.
Proof.
  intros [H1 H2]. unfold clean_step.
  apply String.eqb_neq in H1 as ->. now apply String.eqb_neq in H2 as ->.
Qed.

Lemma clean_elements_snoc (r : bool) (cs : list string) (n : string) :
  proper n -> clean_elements r (cs ++ [n]) = clean_elements r cs ++ [n].
Proof.
  intros Hn. unfold clean_elements. rewrite foldl_app. cbn [foldl].
  rewrite clean_step_proper by exact Hn. now rewrite reverse_cons.
Qed.

Lemma clean_step_normal (r : bool) (stack : list string) (c : string) :
  normal r stack -> normal r (clean_step r stack c).
Proof.
  intros (names & k & -> & Hnames & Hk). unfold clean_step.
  destruct (String.eqb_spec c ".") as [->|Hdot]; [now exists names, k|].
  destruct (String.eqb_spec c "..") as [->|Hdd].
  - destruct names as [|t names].
    + cbn [app]. destruct k as [|k].
      * cbn [replicate]. destruct r.
        -- exists [], 0%nat. split; [reflexivity|]. split; [constructor|auto].
        -- exists [], 1%nat. split; [reflexivity|].
           split; [constructor|discriminate].
      * cbn [replicate]. cbn [String.eqb Ascii.eqb Bool.eqb].
        exists [], (S (S k)). split; [reflexivity|]. split; [constructor|].
        intros Hr. specialize (Hk Hr). discriminate.
    + cbn [app]. apply Forall_cons_1 in Hnames as [[_ Ht] Hnames].
      apply String.eqb_neq in Ht as ->. now exists names, k.
  - exists (c :: names), k. split; [reflexivity|]. split; [|exact Hk].
    constructor; [split; assumption|exact Hnames].
Qed.

Lemma foldl_clean_step_normal (r : bool) (cs : list string) :
  forall stack, normal r stack -> normal r (foldl (clean_step r) stack cs).
Proof.
  induction cs as [|c cs IH]; intros stack Hst; [exact Hst|].
  cbn [foldl]. now apply IH, clean_step_normal.
Qed.

Lemma foldl_clean_step_dots (k : nat) :
  forall j, foldl (clean_step false) (replicate j "..") (replicate k "..")
            = replicate (k + j) "..".
Proof.
  induction k as [|k IH]; intros j; [reflexivity|].
  cbn [replicate foldl].
  replace (clean_step false (replicate j "..") "..") with (replicate (S j) "..")
    by (destruct j; reflexivity).
  rewrite IH. f_equal. lia.
Qed.

Lemma foldl_clean_step_names (r : bool) (l : list string) :
  forall stack, Forall proper l ->
  foldl (clean_step r) stack l = reverse l ++ stack.
Proof.
  induction l as [|c l IH]; intros stack Hall; [reflexivity|].
  apply Forall_cons_1 in Hall as [Hc Hall]. cbn [foldl].
  rewrite clean_step_proper by exact Hc. rewrite IH by exact Hall.
  rewrite reverse_cons, <- app_assoc. reflexivity.
Qed.

(** Cleaning what is clean changes nothing. *)
Lemma clean_elements_normal (r : bool) (stack : list string) :
  normal r stack -> clean_elements r (reverse stack) = reverse stack.
Proof.
  intros (names & k & -> & Hnames & Hk). unfold clean_elements. f_equal.
  rewrite reverse_app, reverse_replicate, foldl_app.
  assert (Hdots : foldl (clean_step r) [] (replicate k "..") = replicate k "..").
  { destruct r.
    - rewrite Hk by reflexivity. reflexivity.
    - change (@nil string) with (replicate 0 "..") at 1.
      rewrite (foldl_clean_step_dots k 0). f_equal. lia. }
  rewrite Hdots, foldl_clean_step_names by (now apply Forall_reverse).
  now rewrite reverse_involutive.
Qed.

Lemma clean_elements_idemp (r : bool) (cs : list string) :
  clean_elements r (clean_elements r cs) = clean_elements r cs.
Proof.
  unfold clean_elements at 2 3. apply clean_elements_normal.
  apply foldl_clean_step_normal. exists [], 0%nat.
  split; [reflexivity|]. split; [constructor|auto].
Qed.

Lemma clean_step_plain (r : bool) (stack : list string) (c : string) :
  Forall plain stack -> plain c -> Forall plain (clean_step r stack c).
Proof.
  intros Hst Hc. unfold clean_step.
  destruct (String.eqb c "."); [exact Hst|].
  destruct (String.eqb c "..").
  - destruct stack as [|t stack].
    + destruct r; repeat constructor; discriminate.
    + destruct (String.eqb t ".."); [now constructor|].
      now apply Forall_cons_1 in Hst as [_ ?].
  - now constructor.
Qed.

Lemma clean_elements_plain (r : bool) (cs : list string) :
  Forall plain cs -> Forall plain (clean_elements r cs).
Proof.
  intros Hall. unfold clean_elements. apply Forall_reverse.
  assert (H : forall stack, Forall plain stack ->
                Forall plain (foldl (clean_step r) stack cs)).
  { induction cs as [|c cs IH]; intros stack Hst; [exact Hst|].
    apply Forall_cons_1 in Hall as [Hc Hall]. cbn [foldl].
    apply IH; [exact Hall|]. now apply clean_step_plain. }
  apply H. constructor.
Qed.

(** *** [Join] under a path that [Join] made *)

Lemma Join_settled (root n : string) :
  plain n -> proper n -> settled (Join root n) n.
Proof.
  intros Hpl Hpr. unfold Join.
  destruct (String.eqb_spec root "") as [->|Hroot].
  - destruct Hpl as [Hne Hs]. apply String.eqb_neq in Hne as Hne'. rewrite Hne'.
    unfold Clean. rewrite Hne', (rooted_plain n Hs).
    rewrite elements_plain by (split; assumption).
    exists false, []. split; [|split; [constructor|reflexivity]].
    change [n] with ([] ++ [n]). rewrite clean_elements_snoc by exact Hpr.
    reflexivity.
  - unfold Clean.
    assert (Hne : root +:+ "/" +:+ n <> "").
    { intros H. apply string_app_eq_nil in H as [? _]. congruence. }
    apply String.eqb_neq in Hne as ->.
    rewrite rooted_app by exact Hroot.
    change (root +:+ "/" +:+ n) with (root +:+ String "/" n).
    unfold elements. rewrite elements_go_sep.
    fold (elements root) (elements n). rewrite (elements_plain n Hpl).
    rewrite clean_elements_snoc by exact Hpr.
    exists (rooted root), (clean_elements (rooted root) (elements root)).
    split; [reflexivity|]. split.
    + apply clean_elements_plain, elements_all_plain.
    + apply clean_elements_idemp.
Qed.

Lemma settled_nonempty (d last : string) :
  plain last -> settled d last -> d <> "".
Proof.
  intros Hl (r & cs & -> & Hcs & _).
  apply render_spec; [|now destruct cs].
  apply Forall_app. split; [exact Hcs|]. constructor; [exact Hl|constructor].
Qed.

(** Below a settled path [Join] appends a separator and the name. *)
Lemma Join_under_settled (d last n : string) :
  plain last -> proper last -> settled d last -> plain n -> proper n ->
  Join d n = d +:+ "/" +:+ n.
Proof.
  intros Hl Hlp Hd Hn Hnp.
  pose proof (settled_nonempty d last Hl Hd) as Hne.
  destruct Hd as (r & cs & -> & Hcs & Hclean).
  assert (Hall : Forall plain (cs ++ [last])).
  { apply Forall_app. split; [exact Hcs|]. constructor; [exact Hl|constructor]. }
  assert (Hne2 : cs ++ [last] <> []) by (now destruct cs).
  destruct (render_spec r (cs ++ [last]) Hall Hne2) as (_ & Hr & He).
  unfold Join. apply String.eqb_neq in Hne as Hne'. rewrite Hne'.
  unfold Clean.
  assert (Hne3 : render r (cs ++ [last]) +:+ "/" +:+ n <> "").
  { intros H. apply string_app_eq_nil in H as [? _]. congruence. }
  apply String.eqb_neq in Hne3 as ->.
  rewrite rooted_app by exact Hne. rewrite Hr.
  change (render r (cs ++ [last]) +:+ "/" +:+ n)
    with (render r (cs ++ [last]) +:+ String "/" n).
  unfold elements. rewrite elements_go_sep.
  fold (elements (render r (cs ++ [last]))) (elements n).
  rewrite He, (elements_plain n Hn).
  rewrite !clean_elements_snoc by assumption. rewrite Hclean.
  now rewrite render_snoc.
Qed.

(** *** [Base] of a settled path *)

Lemma last_element_go_plain (n : string) :
  forall acc, has_separator n = false -> last_element_go acc n = acc +:+ n.
Proof.
  induction n as [|c n IH]; intros acc Hn.
  - now rewrite string_app_nil_r.
  - cbn [has_separator] in Hn. apply orb_false_iff in Hn as [Hc Hn].
    cbn [last_element_go]. rewrite Hc, IH by exact Hn.
    now rewrite string_app_assoc.
Qed.

Lemma last_element_go_sep (a b : string) :
  forall acc, last_element_go acc (a +:+ String "/" b) = last_element_go "" b.
Proof.
  induction a as [|c a IH]; intros acc; [reflexivity|].
  rewrite app_cons. cbn [last_element_go].
  destruct (IsPathSeparator c); apply IH.
Qed.

Lemma strip_trailing_plain (n : string) :
  has_separator n = false -> strip_trailing n = n.
Proof.
  induction n as [|c n IH]; intros Hn; [reflexivity|].
  cbn [has_separator] in Hn. apply orb_false_iff in Hn as [Hc Hn].
  cbn [strip_trailing]. rewrite Hc, IH by exact Hn. reflexivity.
Qed.

Lemma strip_trailing_app (a t : string) :
  strip_trailing t = t -> t <> "" -> strip_trailing (a +:+ t) = a +:+ t.
Proof.
  intros Ht Hne. induction a as [|c a IH]; [exact Ht|].
  rewrite app_cons. cbn [strip_trailing]. rewrite IH.
  assert (Hne2 : a +:+ t <> "").
  { intros H. apply string_app_eq_nil in H as [_ ?]. congruence. }
  apply String.eqb_neq in Hne2 as ->. now rewrite andb_false_r.
Qed.

Lemma Base_settled (d last : string) :
  plain last -> settled d last -> Base d = last.
Proof.
  intros Hl Hd. pose proof (settled_nonempty d last Hl Hd) as Hne.
  destruct Hl as [Hlne Hls].
  destruct Hd as (r & cs & -> & Hcs & _).
  assert (Hshape : render r (cs ++ [last]) = last \/
                   exists pre, render r (cs ++ [last]) = pre +:+ String "/" last).
  { destruct cs as [|c cs].
    - destruct r; [right; exists ""; reflexivity | left; reflexivity].
    - right. rewrite render_snoc by discriminate. eauto. }
  unfold Base. apply String.eqb_neq in Hne as ->.
  destruct Hshape as [->|[pre ->]].
  - rewrite strip_trailing_plain by exact Hls.
    rewrite last_element_go_plain by exact Hls. rewrite app_nil_l.
    now apply String.eqb_neq in Hlne as ->.
  - rewrite strip_trailing_app.
    + rewrite last_element_go_sep, last_element_go_plain by exact Hls.
      rewrite app_nil_l. now apply String.eqb_neq in Hlne as ->.
    + cbn [strip_trailing]. rewrite strip_trailing_plain by exact Hls.
      apply String.eqb_neq in Hlne as ->. now rewrite andb_false_r.
    + discriminate.
Qed.

(** *** Extensions *)

Lemma list_ascii_app (a b : string) :
  String.list_ascii_of_string (a +:+ b) =
    String.list_ascii_of_string a ++ String.list_ascii_of_string b.
Proof.
  induction a as [|c a IH]; [reflexivity|].
  rewrite app_cons. cbn [String.list_ascii_of_string app]. now rewrite IH.
Qed.

Lemma string_of_list_app (a b : list ascii) :
  String.string_of_list_ascii (a ++ b) =
    String.string_of_list_ascii a +:+ String.string_of_list_ascii b.
Proof.
  induction a as [|c a IH]; [reflexivity|].
  cbn [app String.string_of_list_ascii]. now rewrite IH.
Qed.

Lemma Ext_tf (n : string) : Ext (n +:+ ".tf") = ".tf".
Proof.
  unfold Ext. rewrite list_ascii_app, rev_app_distr. reflexivity.
Qed.

Lemma Ext_tfm (n : string) : Ext (n +:+ ".tfm") = ".tfm".
Proof.
  unfold Ext. rewrite list_ascii_app, rev_app_distr. reflexivity.
Qed.

Lemma ext_scan_suffix (r : list ascii) :
  forall acc, exists pre, rev r ++ acc = pre ++ ext_scan r acc.
Proof.
  induction r as [|c r IH]; intros acc.
  - exists acc. cbn. now rewrite app_nil_r.
  - cbn [ext_scan rev]. destruct (IsPathSeparator c).
    + eexists. now rewrite app_nil_r.
    + destruct (Ascii.eqb c ".").
      * exists (rev r). now rewrite <- app_assoc.
      * destruct (IH (c :: acc)) as [pre Hpre]. exists pre.
        now rewrite <- app_assoc.
Qed.

(** The extension is a suffix of the path. *)
Lemma Ext_suffix (s : string) : exists pre, s = pre +:+ Ext s.
Proof.
  destruct (ext_scan_suffix (rev (String.list_ascii_of_string s)) []) as [pre Hpre].
  rewrite rev_involutive, app_nil_r in Hpre.
  exists (String.string_of_list_ascii pre). unfold Ext.
  rewrite <- string_of_list_app, <- Hpre.
  now rewrite String.string_of_list_ascii_of_string.
Qed.

Lemma substring_prefix (a b : string) :
  String.substring 0 (String.length a) (a +:+ b) = a.
Proof.
  induction a as [|c a IH].
  - cbn. now destruct b.
  - rewrite app_cons. cbn [String.length String.substring]. now rewrite IH.
Qed.

Lemma removeExt_app (n ext : string) : Stream.removeExt (n +:+ ext) ext = n.
Proof.
  unfold Stream.removeExt. rewrite string_app_length.
  replace (String.length n + String.length ext - String.length ext)%nat
    with (String.length n) by lia.
  apply substring_prefix.
Qed.

(** A name with the extension [ext] is its [removeExt] followed by [ext]. *)
Lemma Ext_removeExt (name ext : string) :
  Ext name = ext -> name = Stream.removeExt name ext +:+ ext.
Proof.
  intros <-. destruct (Ext_suffix name) as [pre Hpre].
  rewrite Hpre at 2. rewrite removeExt_app. exact Hpre.
Qed.

(** *** Part names *)

Lemma hex_digit_not_separator (d : Z) : IsPathSeparator (Stream.hex_digit d) = false.
Proof.
  unfold Stream.hex_digit.
  destruct (Stream.hex_digits !! Z.to_nat d) as [c|] eqn:E; [|reflexivity].
  apply list_elem_of_lookup_2 in E. cbn [default from_option id].
  assert (H : Forall (fun c => IsPathSeparator c = false) Stream.hex_digits)
    by (repeat constructor).
  rewrite Forall_forall in H. now apply H.
Qed.

Lemma hex_go_separator (n : nat) :
  forall v acc, has_separator (Stream.hex_go n v acc) = has_separator acc.
Proof.
  induction n as [|n IH]; intros v acc; [reflexivity|].
  cbn [Stream.hex_go]. rewrite IH. cbn [has_separator].
  now rewrite hex_digit_not_separator.
Qed.

Lemma hex_go_length (n : nat) :
  forall v acc,
  String.length (Stream.hex_go n v acc) = (n + String.length acc)%nat.
Proof.
  induction n as [|n IH]; intros v acc; [reflexivity|].
  cbn [Stream.hex_go]. rewrite IH. cbn [String.length]. lia.
Qed.

Lemma partName_length (id : Z) : String.length (Stream.partName id) = 16%nat.
Proof. unfold Stream.partName. now rewrite hex_go_length. Qed.

Lemma partName_plain (id : Z) : plain (Stream.partName id).
Proof.
  split.
  - intros H. pose proof (partName_length id) as Hl. rewrite H in Hl. discriminate.
  - unfold Stream.partName. now rewrite hex_go_separator.
Qed.

Lemma partName_proper (id : Z) : proper (Stream.partName id).
Proof.
  split; intros H; pose proof (partName_length id) as Hl; rewrite H in Hl;
    discriminate.
Qed.

(** The directory of a part is never the index directory. *)
Lemma Base_partPath (root : string) (id : Z) :
  Base (Stream.partPath root id) = Stream.partName id.
Proof.
  apply Base_settled; [apply partName_plain|].
  apply Join_settled; [apply partName_plain|apply partName_proper].
Qed.

Lemma Base_partPath_not_idx (root : string) (id : Z) :
  String.eqb (Base (Stream.partPath root id)) Stream.elementIndexFilename = false.
Proof.
  rewrite Base_partPath. apply String.eqb_neq. intros H.
  pose proof (partName_length id) as Hl. rewrite H in Hl. discriminate.
Qed.

(** Under the directory of a part, [Join] appends a separator and the name. *)
Lemma Join_partPath (root : string) (id : Z) (n : string) :
  plain n -> proper n ->
  Join (Stream.partPath root id) n = Stream.partPath root id +:+ "/" +:+ n.
Proof.
  intros Hn Hp.
  apply (Join_under_settled _ (Stream.partName id));
    auto using partName_plain, partName_proper.
  apply Join_settled; [apply partName_plain|apply partName_proper].
Qed.

(** *** Directory entries *)

Lemma strip_prefix_spec (pre s r : string) :
  Stream.strip_prefix pre s = Some r <-> s = pre +:+ r.
Proof.
  revert s. induction pre as [|a pre IH]; intros s.
  - rewrite app_nil_l. destruct s; cbn [Stream.strip_prefix]; split; congruence.
  - destruct s as [|b s]; cbn [Stream.strip_prefix].
    + split; [discriminate|]. rewrite app_cons. discriminate.
    + rewrite app_cons. destruct (Ascii.eqb_spec a b) as [->|Hne].
      * rewrite IH. split; congruence.
      * split; [discriminate|]. congruence.
Qed.

Lemma entry_name_spec (d path n : string) :
  Stream.entry_name d path = Some n <-> path = d +:+ "/" +:+ n /\ plain n.
Proof.
  unfold Stream.entry_name, plain.
  destruct (Stream.strip_prefix (d +:+ "/") path) as [m|] eqn:E.
  - apply strip_prefix_spec in E. rewrite string_app_assoc in E.
    assert (Hiff : path = d +:+ "/" +:+ n <-> m = n).
    { rewrite E. split; [|congruence].
      intros H. apply String.app_inj in H.
      change ("/" +:+ m) with (String "/" m) in H.
      change ("/" +:+ n) with (String "/" n) in H. congruence. }
    rewrite Hiff.
    destruct (String.eqb_spec m "") as [Hm|Hm]; cbn [orb].
    + split; [discriminate|]. intros [<- [Hn _]]. congruence.
    + destruct (has_separator m) eqn:Hs.
      * split; [discriminate|]. intros [<- [_ Hn]]. congruence.
      * split; [intros [= <-]; auto|]. intros [<- _]. reflexivity.
  - split; [discriminate|]. intros [-> _].
    assert (H : Stream.strip_prefix (d +:+ "/") (d +:+ "/" +:+ n) = Some n).
    { apply strip_prefix_spec. now rewrite string_app_assoc. }
    congruence.
Qed.

End FilepathProperties.

(** ** Flushing a memory part and opening it from storage *)

Section FlushOpenProperties.
Import Measure Filepath Stream.
Variable marshal : partMetadata -> list Byte.byte.
Variable unmarshal : list Byte.byte -> option partMetadata.
Variable decodePrimaryBlockMetadata : list Byte.byte -> option (list primaryBlockMetadata).

Lemma files_ApplyIfLarge (path : string) (w : world) :
  files (ApplyIfLarge path w) = files w /\ synced (ApplyIfLarge path w) = synced w.
Proof. split; reflexivity. Qed.

Lemma files_fold_ApplyIfLarge (key : string -> string)
    (m : gmap string (list Byte.byte)) (w : world) :
  let r := map_fold (fun name (_ : list Byte.byte) w => ApplyIfLarge (key name) w) w m in
  files r = files w /\ synced r = synced w.
Proof.
  cbv zeta.
  apply (map_fold_weak_ind
           (fun r (_ : gmap string (list Byte.byte)) =>
              files r = files w /\ synced r = synced w)).
  - split; reflexivity.
  - intros i x m' r _ [H1 H2]. split; [exact H1|exact H2].
Qed.

(** Writing the buffers of a map under distinct names: each is found
    under its name, and the other files are as before. *)
Lemma fold_MustFlush_lookup (key : string -> string)
    (m : gmap string (list Byte.byte)) (w : world) :
  Inj (=) (=) key ->
  let r := map_fold (fun name buf w => MustFlush buf (key name) w) w m in
  (forall n c, m !! n = Some c -> files r !! key n = Some (File c)) /\
  (forall k, (forall n, is_Some (m !! n) -> key n <> k) ->
             files r !! k = files w !! k) /\
  synced r = synced w.
Proof.
  intros Hinj. cbv zeta.
  apply (map_fold_weak_ind
           (fun r (m : gmap string (list Byte.byte)) =>
              (forall n c, m !! n = Some c -> files r !! key n = Some (File c)) /\
              (forall k, (forall n, is_Some (m !! n) -> key n <> k) ->
                         files r !! k = files w !! k) /\
              synced r = synced w)).
  - split; [intros n c H; now rewrite lookup_empty in H|].
    split; [reflexivity|reflexivity].
  - intros i x m' r Hi (H1 & H2 & H3). unfold MustFlush. cbn [files synced].
    split; [|split; [|exact H3]].
    + intros n c Hn. destruct (decide (n = i)) as [->|Hne].
      * rewrite lookup_insert_eq in Hn. injection Hn as <-.
        now rewrite lookup_insert_eq.
      * rewrite lookup_insert_ne in Hn by congruence.
        rewrite lookup_insert_ne; [now apply H1|].
        intros Heq. apply Hinj in Heq. congruence.
    + intros k Hk. rewrite lookup_insert_ne.
      * apply H2. intros n Hn. apply Hk.
        destruct (decide (n = i)) as [->|Hne];
          [rewrite lookup_insert_eq; eauto | now rewrite lookup_insert_ne by congruence].
      * apply Hk. rewrite lookup_insert_eq. eauto.
Qed.

(** The entries [ReadDir] lists are the nodes lying directly in the
    directory. *)
Lemma ReadDir_lookup (d : string) (w : world) (x : string) :
  plain x -> ReadDir d w !! x = files w !! (d +:+ "/" +:+ x).
Proof.
  intros Hx. unfold ReadDir.
  apply (map_fold_weak_ind
           (fun (ee : gmap string node) (fs : gmap string node) =>
              ee !! x = fs !! (d +:+ "/" +:+ x))).
  - now rewrite !lookup_empty.
  - intros i nd fs ee Hi IH.
    destruct (entry_name d i) as [n|] eqn:E.
    + apply entry_name_spec in E as [-> Hn].
      destruct (decide (n = x)) as [->|Hne].
      * now rewrite !lookup_insert_eq.
      * rewrite !lookup_insert_ne; [exact IH| |congruence].
        intros Heq. apply String.app_inj, String.app_inj in Heq. congruence.
    + rewrite lookup_insert_ne; [exact IH|].
      intros ->. assert (H : entry_name d (d +:+ "/" +:+ x) = Some x)
        by (now apply entry_name_spec).
      congruence.
Qed.

Lemma ReadDir_plain (d : string) (w : world) (x : string) (nd : node) :
  ReadDir d w !! x = Some nd -> plain x.
Proof.
  unfold ReadDir.
  apply (map_fold_weak_ind
           (fun (ee : gmap string node) (fs : gmap string node) =>
              ee !! x = Some nd -> plain x)).
  - now rewrite lookup_empty.
  - intros i nd' fs ee Hi IH.
    destruct (entry_name d i) as [n|] eqn:E; [|exact IH].
    apply entry_name_spec in E as [-> Hn].
    destruct (decide (n = x)) as [->|Hne]; [auto|].
    now rewrite lookup_insert_ne by congruence.
Qed.

Lemma app_inj_tail (a b e : string) : a +:+ e = b +:+ e -> a = b.
Proof.
  intros H. rewrite <- (removeExt_app a e), <- (removeExt_app b e). now rewrite H.
Qed.

Lemma under_inj (d a b : string) : d +:+ "/" +:+ a = d +:+ "/" +:+ b -> a = b.
Proof. intros H. now apply String.app_inj, String.app_inj in H. Qed.

Lemma under_not_self (d a : string) : d +:+ "/" +:+ a <> d.
Proof.
  intros H. apply (f_equal String.length) in H.
  rewrite !string_app_length in H. cbn in H. lia.
Qed.

(** A family name with an extension is a plain, proper file name. *)
Lemma family_file_name (n ext : string) :
  has_separator n = false -> ext = ".tf" \/ ext = ".tfm" ->
  plain (n +:+ ext) /\ proper (n +:+ ext).
Proof.
  intros Hn Hext.
  assert (Hlen : (3 <= String.length (n +:+ ext))%nat).
  { rewrite string_app_length. destruct Hext as [-> | ->]; cbn; lia. }
  assert (Hsep : has_separator ext = false) by (destruct Hext as [-> | ->]; reflexivity).
  split; split.
  - intros H. rewrite H in Hlen. cbn in Hlen. lia.
  - now rewrite has_separator_app, Hn, Hsep.
  - intros H. rewrite H in Hlen. cbn in Hlen. lia.
  - intros H. rewrite H in Hlen. cbn in Hlen. lia.
Qed.

Ltac unfold_names H :=
  unfold metadataFilename, metaFilename, primaryFilename, timestampsFilename,
    tagFamiliesFilenameExt, tagFamiliesMetadataFilenameExt in H.

Ltac other_name :=
  let H := fresh in
  intros H; try apply under_inj in H; unfold_names H;
  first [ discriminate
        | apply (f_equal Ext) in H; rewrite ?Ext_tf, ?Ext_tfm in H;
          vm_compute in H; discriminate ].

Ltac fixed_name :=
  unfold plain, proper, metadataFilename, metaFilename, primaryFilename,
    timestampsFilename;
  first [ split; [discriminate | reflexivity] | split; discriminate ].

Section UnderPart.
(** [d] is a directory under which [Join] appends a separator and the
    name, and which is not the index directory: the directory of a part. *)
Variable d : string.
Hypothesis Hjoin : forall n, plain n -> proper n -> Join d n = d +:+ "/" +:+ n.
Hypothesis Hbase : String.eqb (Base d) elementIndexFilename = false.

(** The writes of one family map. *)
Lemma flush_family_lookup (ext : string) (m : gmap string (list Byte.byte)) (w : world) :
  ext = ".tf" \/ ext = ".tfm" ->
  (forall n, is_Some (m !! n) -> has_separator n = false) ->
  let r := map_fold (fun name buf w => MustFlush buf (Join d (name +:+ ext)) w) w m in
  (forall n c, m !! n = Some c -> files r !! (d +:+ "/" +:+ n +:+ ext) = Some (File c)) /\
  (forall k, (forall n, is_Some (m !! n) -> d +:+ "/" +:+ n +:+ ext <> k) ->
             files r !! k = files w !! k) /\
  synced r = synced w.
Proof.
  intros Hext. cbv zeta.
  apply (map_fold_weak_ind
           (fun r (m : gmap string (list Byte.byte)) =>
              (forall n, is_Some (m !! n) -> has_separator n = false) ->
              (forall n c, m !! n = Some c ->
                 files r !! (d +:+ "/" +:+ n +:+ ext) = Some (File c)) /\
              (forall k, (forall n, is_Some (m !! n) -> d +:+ "/" +:+ n +:+ ext <> k) ->
                         files r !! k = files w !! k) /\
              synced r = synced w)).
  - intros _. split; [intros n c H; now rewrite lookup_empty in H|].
    split; reflexivity.
  - intros i x m' r Hi IH Hnames.
    destruct IH as (H1 & H2 & H3).
    { intros n Hn. apply Hnames. rewrite lookup_insert_ne; [exact Hn|].
      intros ->. rewrite Hi in Hn. now destruct Hn. }
    assert (Hiname : has_separator i = false)
      by (apply Hnames; rewrite lookup_insert_eq; eauto).
    destruct (family_file_name i ext Hiname Hext) as [Hpl Hpr].
    rewrite (Hjoin _ Hpl Hpr). unfold MustFlush. cbn [files synced].
    split; [|split; [|exact H3]].
    + intros n c Hn. destruct (decide (n = i)) as [->|Hne].
      * rewrite lookup_insert_eq in Hn. injection Hn as <-.
        now rewrite lookup_insert_eq.
      * rewrite lookup_insert_ne in Hn by congruence.
        rewrite lookup_insert_ne; [now apply H1|].
        intros Heq. apply under_inj, app_inj_tail in Heq. congruence.
    + intros k Hk. rewrite lookup_insert_ne.
      * apply H2. intros n Hn. apply Hk.
        rewrite lookup_insert_ne; [exact Hn|].
        intros ->. rewrite Hi in Hn. now destruct Hn.
      * apply Hk. rewrite lookup_insert_eq. eauto.
Qed.

(** What [mustFlush] leaves in the file system. *)
Lemma mustFlush_files (mp : memPart) (w : world) :
  files w !! d = None ->
  (forall n, is_Some (mp_tagFamilies mp !! n) -> has_separator n = false) ->
  (forall n, is_Some (mp_tagFamilyMetadata mp !! n) -> has_separator n = false) ->
  exists w',
    mustFlush marshal mp d w = Returned w' /\
    files w' !! (d +:+ "/" +:+ metadataFilename)
      = Some (File (marshal (mp_partMetadata mp))) /\
    files w' !! (d +:+ "/" +:+ metaFilename) = Some (File (mp_meta mp)) /\
    files w' !! (d +:+ "/" +:+ primaryFilename) = Some (File (mp_primary mp)) /\
    files w' !! (d +:+ "/" +:+ timestampsFilename) = Some (File (mp_timestamps mp)) /\
    (forall n c, mp_tagFamilies mp !! n = Some c ->
       files w' !! (d +:+ "/" +:+ n +:+ tagFamiliesFilenameExt) = Some (File c)) /\
    (forall n c, mp_tagFamilyMetadata mp !! n = Some c ->
       files w' !! (d +:+ "/" +:+ n +:+ tagFamiliesMetadataFilenameExt) = Some (File c)) /\
    (forall x, ~ flushed_name mp x ->
       files w' !! (d +:+ "/" +:+ x) = files w !! (d +:+ "/" +:+ x)) /\
    synced w' = synced w ++ [d].
Proof.
  intros Hfresh Htf Htfm.
  unfold mustFlush, MkdirPanicIfExist. rewrite Hfresh, Hbase.
  unfold mustWriteMetadata.
  rewrite !Hjoin by fixed_name.
  set (w1 := mkWorld (<[d:=Dir]> (files w)) (synced w) (threshold w) (hints w)
                     (dir_size w)).
  set (w3 := MustFlush (mp_timestamps mp) (d +:+ "/" +:+ timestampsFilename)
               (MustFlush (mp_primary mp) (d +:+ "/" +:+ primaryFilename)
                  (MustFlush (mp_meta mp) (d +:+ "/" +:+ metaFilename) w1))).
  destruct (flush_family_lookup tagFamiliesFilenameExt (mp_tagFamilies mp) w3
              (or_introl eq_refl) Htf) as (T1 & T2 & T3).
  set (w4 := map_fold (fun name buf w =>
                MustFlush buf (Join d (name +:+ tagFamiliesFilenameExt)) w)
               w3 (mp_tagFamilies mp)) in *.
  destruct (flush_family_lookup tagFamiliesMetadataFilenameExt
              (mp_tagFamilyMetadata mp) w4 (or_intror eq_refl) Htfm) as (M1 & M2 & M3).
  set (w5 := map_fold (fun name buf w =>
                MustFlush buf (Join d (name +:+ tagFamiliesMetadataFilenameExt)) w)
               w4 (mp_tagFamilyMetadata mp)) in *.
  set (w6 := MustFlush (marshal (mp_partMetadata mp))
               (d +:+ "/" +:+ metadataFilename) w5).
  set (w8 := ApplyIfLarge (d +:+ "/" +:+ timestampsFilename)
               (ApplyIfLarge (d +:+ "/" +:+ primaryFilename) (SyncPath d w6))).
  destruct (files_fold_ApplyIfLarge
              (fun name => Join d (name +:+ tagFamiliesFilenameExt))
              (mp_tagFamilies mp) w8) as [F1 F2].
  cbv zeta in F1, F2.
  eexists. split; [reflexivity|].
  rewrite F1, F2.
  change (files w8) with (<[d +:+ "/" +:+ metadataFilename :=
                             File (marshal (mp_partMetadata mp))]> (files w5)).
  change (synced w8) with (synced w5 ++ [d]).
  assert (H3 : forall k, k <> d +:+ "/" +:+ timestampsFilename ->
                 k <> d +:+ "/" +:+ primaryFilename ->
                 k <> d +:+ "/" +:+ metaFilename -> k <> d ->
                 files w3 !! k = files w !! k).
  { intros k ? ? ? ?. subst w3 w1. unfold MustFlush. cbn [files].
    now rewrite !lookup_insert_ne by congruence. }
  assert (H5 : forall k,
             (forall n, d +:+ "/" +:+ n +:+ tagFamiliesMetadataFilenameExt <> k) ->
             (forall n, d +:+ "/" +:+ n +:+ tagFamiliesFilenameExt <> k) ->
             files w5 !! k = files w3 !! k).
  { intros k Hk1 Hk2. rewrite M2 by (intros n _; apply Hk1).
    apply T2. intros n _. apply Hk2. }
  split; [now rewrite lookup_insert_eq|].
  split.
  { rewrite lookup_insert_ne by other_name.
    rewrite H5 by (intros n; other_name).
    subst w3 w1. unfold MustFlush. cbn [files].
    rewrite !lookup_insert_ne by other_name. now rewrite lookup_insert_eq. }
  split.
  { rewrite lookup_insert_ne by other_name.
    rewrite H5 by (intros n; other_name).
    subst w3 w1. unfold MustFlush. cbn [files].
    rewrite !lookup_insert_ne by other_name. now rewrite lookup_insert_eq. }
  split.
  { rewrite lookup_insert_ne by other_name.
    rewrite H5 by (intros n; other_name).
    subst w3 w1. unfold MustFlush. cbn [files]. now rewrite lookup_insert_eq. }
  split.
  { intros n c Hn. rewrite lookup_insert_ne by other_name.
    rewrite M2 by (intros n' _; other_name). now apply T1. }
  split.
  { intros n c Hn. rewrite lookup_insert_ne by other_name. now apply M1. }
  split.
  { intros x Hx. unfold flushed_name in Hx.
    rewrite lookup_insert_ne
      by (intros H; apply under_inj in H; apply Hx; left; congruence).
    rewrite M2.
    - rewrite T2.
      + apply H3; try apply under_not_self;
          intros H; apply under_inj in H; apply Hx.
        * do 3 right. left. congruence.
        * do 2 right. left. congruence.
        * right. left. congruence.
      + intros n Hn H. apply under_inj in H. apply Hx. do 4 right. left. eauto.
    - intros n Hn H. apply under_inj in H. apply Hx. do 5 right. eauto. }
  now rewrite M3, T3.
Qed.

End UnderPart.

(** The loop over the directory entries: when every file entry can be
    opened under its joined path, the two maps hold the files with the two
    extensions, by their names without the extension. *)
Lemma open_entries_spec (d : string) (w : world) (ee : gmap string node) :
  (forall name c, ee !! name = Some (File c) ->
     files w !! Join d name = Some (File c)) ->
  exists tfm tf,
    map_fold (open_entry d w) (Some (∅, ∅)) ee = Some (tfm, tf) /\
    (forall n, tfm !! n = file_content (ee !! (n +:+ tagFamiliesMetadataFilenameExt))) /\
    (forall n, tf !! n = file_content (ee !! (n +:+ tagFamiliesFilenameExt))).
Proof.
  apply (map_fold_weak_ind
           (fun r (ee : gmap string node) =>
              (forall name c, ee !! name = Some (File c) ->
                 files w !! Join d name = Some (File c)) ->
              exists tfm tf,
                r = Some (tfm, tf) /\
                (forall n, tfm !! n =
                   file_content (ee !! (n +:+ tagFamiliesMetadataFilenameExt))) /\
                (forall n, tf !! n =
                   file_content (ee !! (n +:+ tagFamiliesFilenameExt))))).
  - intros _. exists ∅, ∅. split; [reflexivity|].
    split; intros n; now rewrite !lookup_empty.
  - intros i nd m r Hi IH Hopen.
    destruct IH as (tfm & tf & -> & Htfm & Htf).
    { intros name c Hn. apply Hopen. rewrite lookup_insert_ne; [exact Hn|].
      intros ->. congruence. }
    destruct nd as [|c].
    + (* a directory is skipped *)
      exists tfm, tf. split; [reflexivity|].
      split; intros n.
      * rewrite Htfm.
        destruct (decide (i = n +:+ tagFamiliesMetadataFilenameExt)) as [->|Hne].
        -- now rewrite lookup_insert_eq, Hi.
        -- now rewrite lookup_insert_ne by exact Hne.
      * rewrite Htf.
        destruct (decide (i = n +:+ tagFamiliesFilenameExt)) as [->|Hne].
        -- now rewrite lookup_insert_eq, Hi.
        -- now rewrite lookup_insert_ne by exact Hne.
    + (* a file *)
      assert (Hread : mustOpenReader (Join d i) w = Returned c).
      { unfold mustOpenReader. rewrite (Hopen i c); [reflexivity|].
        now rewrite lookup_insert_eq. }
      unfold open_entry. rewrite Hread.
      destruct (String.eqb_spec (Ext i) tagFamiliesMetadataFilenameExt) as [He|He].
      * (* with the extension of a metadata file *)
        replace (String.eqb (Ext i) tagFamiliesFilenameExt) with false
          by (rewrite He; reflexivity).
        pose proof (Ext_removeExt i _ He) as Hname.
        eexists _, tf. split; [reflexivity|]. split; intros n.
        -- destruct (decide (n = removeExt i tagFamiliesMetadataFilenameExt)) as [->|Hne].
           ++ rewrite <- Hname. now rewrite !lookup_insert_eq.
           ++ rewrite lookup_insert_ne by congruence. rewrite Htfm.
              rewrite lookup_insert_ne; [reflexivity|].
              rewrite Hname. intros Heq. apply app_inj_tail in Heq. congruence.
        -- rewrite Htf. rewrite lookup_insert_ne; [reflexivity|].
           intros ->. rewrite Ext_tf in He. discriminate.
      * destruct (String.eqb_spec (Ext i) tagFamiliesFilenameExt) as [He2|He2].
        -- (* with the extension of a data file *)
           pose proof (Ext_removeExt i _ He2) as Hname.
           eexists tfm, _. split; [reflexivity|]. split; intros n.
           ++ rewrite Htfm. rewrite lookup_insert_ne; [reflexivity|].
              intros ->. rewrite Ext_tfm in He. now apply He.
           ++ destruct (decide (n = removeExt i tagFamiliesFilenameExt)) as [->|Hne].
              ** rewrite <- Hname. now rewrite !lookup_insert_eq.
              ** rewrite lookup_insert_ne by congruence. rewrite Htf.
                 rewrite lookup_insert_ne; [reflexivity|].
                 rewrite Hname. intros Heq. apply app_inj_tail in Heq. congruence.
        -- (* with another extension *)
           exists tfm, tf. split; [reflexivity|]. split; intros n.
           ++ rewrite Htfm. rewrite lookup_insert_ne; [reflexivity|].
              intros ->. rewrite Ext_tfm in He. now apply He.
           ++ rewrite Htf. rewrite lookup_insert_ne; [reflexivity|].
              intros ->. rewrite Ext_tf in He2. now apply He2.
Qed.

Lemma fresh_under (fs : gmap string node) (d x : string) :
  well_formed fs -> fs !! d = None -> plain x -> fs !! (d +:+ "/" +:+ x) = None.
Proof.
  intros Hwf Hd Hx. destruct (fs !! (d +:+ "/" +:+ x)) as [nd|] eqn:E; [|reflexivity].
  assert (H : fs !! d = Some Dir).
  { apply (Hwf (d +:+ "/" +:+ x) d x); [rewrite E; eauto|].
    now apply entry_name_spec. }
  congruence.
Qed.

Lemma flushed_name_proper (mp : memPart) (x : string) :
  flushed_name mp x -> (3 <= String.length x)%nat.
Proof.
  intros [->|[->|[->|[->|[(n & _ & ->)|(n & _ & ->)]]]]]; try (cbn; lia);
    rewrite string_app_length; cbn; lia.
Qed.

(** C5. Flushing a memory part to the directory of a part and opening
    that directory with the same numeric ID yields a part with the
    metadata of the memory part, the block descriptors its [meta] buffer
    decodes to, and primary, timestamps, tag-family and tag-family metadata
    streams that hold the bytes of the buffers flushed. The family names
    are file names (no separator), the directory does not exist before the
    flush, and the metadata record is read back as it was written. *)
Theorem flush_open_roundtrip
    (w : world) (root : string) (id : Z) (mp : memPart)
    (pbm : list primaryBlockMetadata) :
  (forall pm, exists i, unmarshal (marshal pm) = Some (set_ID i pm)) ->
  decodePrimaryBlockMetadata (mp_meta mp) = Some pbm ->
  ID (mp_partMetadata mp) = id ->
  (forall n, is_Some (mp_tagFamilies mp !! n) -> has_separator n = false) ->
  (forall n, is_Some (mp_tagFamilyMetadata mp !! n) -> has_separator n = false) ->
  well_formed (files w) ->
  files w !! partPath root id = None ->
  exists w' p,
    mustFlush marshal mp (partPath root id) w = Returned w' /\
    mustOpenFilePart unmarshal decodePrimaryBlockMetadata id root w' = Returned p /\
    p_partMetadata p = mp_partMetadata mp /\
    p_primaryBlockMetadata p = pbm /\
    p_primary p = mp_primary mp /\
    p_timestamps p = mp_timestamps mp /\
    p_tagFamilies p = mp_tagFamilies mp /\
    p_tagFamilyMetadata p = mp_tagFamilyMetadata mp /\
    p_path p = partPath root id.
Proof.
  intros Hcodec Hdec Hid Htf Htfm Hwf Hfresh.
  set (d := partPath root id) in *.
  assert (Hjoin : forall n, plain n -> proper n -> Join d n = d +:+ "/" +:+ n)
    by (intros n; apply Join_partPath).
  destruct (mustFlush_files d Hjoin (Base_partPath_not_idx root id) mp w Hfresh Htf Htfm)
    as (w' & Hflush & Hmd & Hmeta & Hpr & Hts & HTF & HTFM & Hother & _).
  exists w'.
  (* the entries of the directory are the files flushed *)
  assert (Hours : forall x nd, plain x -> files w' !! (d +:+ "/" +:+ x) = Some nd ->
                    (3 <= String.length x)%nat).
  { intros x nd Hx Hsome.
    destruct (Nat.le_gt_cases 3 (String.length x)) as [Hle|Hgt]; [exact Hle|].
    rewrite Hother in Hsome.
    - rewrite (fresh_under _ _ _ Hwf Hfresh Hx) in Hsome. discriminate.
    - intros Hfl. apply flushed_name_proper in Hfl. lia. }
  assert (Hopen : forall name c, ReadDir d w' !! name = Some (File c) ->
                    files w' !! Join d name = Some (File c)).
  { intros name c Hn. pose proof (ReadDir_plain _ _ _ _ Hn) as Hpl.
    rewrite ReadDir_lookup in Hn by exact Hpl.
    pose proof (Hours name _ Hpl Hn) as Hlen.
    rewrite Hjoin; [exact Hn|exact Hpl|].
    split; intros ->; cbn in Hlen; lia. }
  destruct (open_entries_spec d w' (ReadDir d w') Hopen)
    as (tfm & tf & Hfold & Htfm' & Htf').
  destruct (Hcodec (mp_partMetadata mp)) as [i Hi].
  eexists. split; [exact Hflush|].
  unfold mustOpenFilePart, mustReadMetadata. fold d.
  rewrite !Hjoin by fixed_name.
  unfold mustOpenReader. rewrite Hmd, Hi, Hmeta, Hdec, Hpr, Hts, Hfold.
  split; [reflexivity|]. cbn [p_partMetadata p_primaryBlockMetadata p_primary
                               p_timestamps p_tagFamilies p_tagFamilyMetadata p_path].
  split.
  { destruct (mp_partMetadata mp). cbn in Hid. subst. reflexivity. }
  do 3 (split; [reflexivity|]).
  split; [|split; [|reflexivity]].
  - (* the tag-family streams *)
    apply map_eq. intros n. rewrite Htf'.
    destruct (ReadDir d w' !! (n +:+ tagFamiliesFilenameExt)) as [nd|] eqn:E.
    + pose proof (ReadDir_plain _ _ _ _ E) as Hpl.
      rewrite ReadDir_lookup in E by exact Hpl.
      destruct (mp_tagFamilies mp !! n) as [c|] eqn:En.
      * rewrite (HTF n c En) in E. now injection E as <-.
      * rewrite Hother in E.
        -- rewrite (fresh_under _ _ _ Hwf Hfresh Hpl) in E. discriminate.
        -- intros [H|[H|[H|[H|[(n' & Hn' & H)|(n' & Hn' & H)]]]]];
             try (revert H; other_name).
           apply app_inj_tail in H. subst n'. rewrite En in Hn'. now destruct Hn'.
    + destruct (mp_tagFamilies mp !! n) as [c|] eqn:En; [|reflexivity].
      assert (Hpl : plain (n +:+ tagFamiliesFilenameExt)).
      { apply family_file_name; [apply Htf; rewrite En; eauto|now left]. }
      rewrite ReadDir_lookup in E by exact Hpl.
      rewrite (HTF n c En) in E. discriminate.
  - (* the tag-family metadata streams *)
    apply map_eq. intros n. rewrite Htfm'.
    destruct (ReadDir d w' !! (n +:+ tagFamiliesMetadataFilenameExt)) as [nd|] eqn:E.
    + pose proof (ReadDir_plain _ _ _ _ E) as Hpl.
      rewrite ReadDir_lookup in E by exact Hpl.
      destruct (mp_tagFamilyMetadata mp !! n) as [c|] eqn:En.
      * rewrite (HTFM n c En) in E. now injection E as <-.
      * rewrite Hother in E.
        -- rewrite (fresh_under _ _ _ Hwf Hfresh Hpl) in E. discriminate.
        -- intros [H|[H|[H|[H|[(n' & Hn' & H)|(n' & Hn' & H)]]]]];
             try (revert H; other_name).
           apply app_inj_tail in H. subst n'. rewrite En in Hn'. now destruct Hn'.
    + destruct (mp_tagFamilyMetadata mp !! n) as [c|] eqn:En; [|reflexivity].
      assert (Hpl : plain (n +:+ tagFamiliesMetadataFilenameExt)).
      { apply family_file_name; [apply Htfm; rewrite En; eauto|now right]. }
      rewrite ReadDir_lookup in E by exact Hpl.
      rewrite (HTFM n c En) in E. discriminate.
Qed.

(** C7, amended. For a flush whose target path's final component is the
    index subdirectory name, [mustFlush] creates the target directory
    (panicking if it already exists) and skips the rest of the flush
    routine: no data file is written, no metadata record is written, no
    directory sync is performed and no cache hint is applied. *)
Theorem mustFlush_idx_only_mkdir (mp : memPart) (path : string) (w : world) :
  Base path = elementIndexFilename ->
  mustFlush marshal mp path w =
    match files w !! path with
    | Some _ => Panicked "directory is exist"
    | None =>
        Returned (mkWorld (<[path := Dir]> (files w)) (synced w) (threshold w) (hints w)
                          (dir_size w))
    end.
Proof.
  intros Hbase. unfold mustFlush, MkdirPanicIfExist.
  destruct (files w !! path); [reflexivity|].
  now rewrite Hbase, String.eqb_refl.
Qed.

End FlushOpenProperties.

Section FilepathExamples.
Import Filepath.

Example Clean_examples :
  Clean "a/c" = "a/c" /\ Clean "a//c" = "a/c" /\ Clean "a/c/." = "a/c" /\
  Clean "a/c/b/.." = "a/c" /\ Clean "/../a/c" = "/a/c" /\
  Clean "/../a/b/../././/c" = "/a/c" /\ Clean "" = "." /\
  Clean "../../a/../b" = "../../b" /\ Clean "/" = "/" /\ Clean "a/.." = "." /\
  Clean "abc/" = "abc" /\ Clean "//abc" = "/abc".
Proof. repeat split; reflexivity. Qed.

Example Join_examples :
  Join "a" "b" = "a/b" /\ Join "a" "" = "a" /\ Join "" "b" = "b" /\
  Join "a/" "b" = "a/b" /\ Join "/" "a" = "/a" /\ Join "" "" = "" /\
  Join "a" "../b" = "b" /\ Join "/data/stream" "000000000000000a" =
                           "/data/stream/000000000000000a".
Proof. repeat split; reflexivity. Qed.

Example Base_examples :
  Base "/foo/bar/baz.js" = "baz.js" /\ Base "/foo/bar/baz/" = "baz" /\
  Base "dev.txt" = "dev.txt" /\ Base "" = "." /\ Base "/" = "/" /\
  Base "///" = "/" /\ Base "a/idx" = "idx" /\ Base "idx/" = "idx".
Proof. repeat split; reflexivity. Qed.

Example Ext_examples :
  Ext "index" = "" /\ Ext "index.js" = ".js" /\ Ext "main.test.js" = ".js" /\
  Ext "a.b/c" = "" /\ Ext ".tf" = ".tf" /\ Ext "meta.bin" = ".bin" /\
  Ext "x.tfm" = ".tfm".
Proof. repeat split; reflexivity. Qed.

Example partPath_example :
  Stream.partName 10 = "000000000000000a" /\
  Stream.partName 255 = "00000000000000ff" /\
  Stream.partPath "/data/stream/" 4096 = "/data/stream/0000000000001000" /\
  Stream.removeExt "searchable.tfm" ".tfm" = "searchable".
Proof. repeat split; reflexivity. Qed.

End FilepathExamples.

(** The witnesses below run the theorems above on concrete inputs. *)

Section Witnesses.
Import Measure Stream.

Lemma mustInitFromElements_mixes_series_zero_witness :
  sort_elements batch_with_series_zero ≡ₚ batch_with_series_zero /\
  Sorted element_le (sort_elements batch_with_series_zero) /\
  mustInitFromElements 2097152 sort_elements batch_with_series_zero =
    [mkWrittenBlock 5 [row 0 1 0; row 5 2 0]].
Proof.
  assert (H1 : sort_elements batch_with_series_zero ≡ₚ batch_with_series_zero)
    by reflexivity.
  assert (H2 : Sorted element_le (sort_elements batch_with_series_zero))
    by (repeat constructor).
  split; [exact H1|]. split; [exact H2|].
  exact (proj1 (mustInitFromElements_mixes_series_zero sort_elements H1 H2)).
Defined.

Lemma single_series_blocks_witness :
  let blocks := wb_rows <$> mustInitFromElements 2097152 sort_elements batch_large_first in
  sort_elements batch_large_first ≡ₚ batch_large_first /\
  concat blocks = sort_elements batch_large_first /\
  (2 <= length blocks)%nat /\
  Forall (fun b => rows_size (removelast b) < 2097152) blocks.
Proof.
  cbv zeta.
  assert (H0 : 0 < 2097152) by lia.
  assert (H1 : batch_large_first <> []) by discriminate.
  assert (H2 : Forall (fun e => e_seriesID e = 7 /\
                          uncompressedElementSizeBytes e + 2097152 <= 2 ^ 64)
                 batch_large_first).
  { repeat constructor; vm_compute; discriminate. }
  assert (H3 : sort_elements batch_large_first ≡ₚ batch_large_first)
    by reflexivity.
  destruct (single_series_blocks 2097152 sort_elements 7 batch_large_first H0 H1 H2 H3)
    as (Hc & _ & _ & H4 & _ & H6).
  split; [exact H3|]. split; [exact Hc|]. split; [|exact H6].
  apply H4. vm_compute. discriminate.
Defined.

Lemma refcount_balanced_cleanup_once_witness :
  let ops := [IncRef; IncRef; DecRef; IncRef; DecRef; DecRef] in
  let pw := mkPartWrapper (Some example_memPart) None 1 false in
  run_refs ops pw [] = Returned (pw, []) /\
  exists pw',
    run_refs (ops ++ [DecRef]) pw [] = Returned (pw', [ReleaseMemPart example_memPart]) /\
    ref pw' = 0.
Proof.
  cbv zeta.
  destruct (refcount_balanced_cleanup_once (Some example_memPart) None false
              [IncRef; IncRef; DecRef; IncRef; DecRef; DecRef]
              eq_refl ltac:(cbn; lia) ltac:(left; discriminate))
    as (H1 & pw' & H2 & H3 & _).
  split; [exact H1|]. exists pw'. split; [exact H2|exact H3].
Defined.

Lemma positive_of_bytes_of_positive (p : positive) :
  positive_of_bytes (bytes_of_positive p) = p.
Proof. induction p as [p IH|p IH|]; cbn; now rewrite ?IH. Qed.

Lemma example_codec (pm : partMetadata) :
  exists i, example_unmarshal (example_marshal pm) = Some (set_ID i pm).
Proof.
  exists (ID pm). unfold example_unmarshal, example_marshal.
  rewrite positive_of_bytes_of_positive, decode_encode. now destruct pm.
Qed.

Lemma example_names_plain (m : gmap string (list Byte.byte)) (c : list Byte.byte) :
  m = {[ "searchable" := c ]} ->
  forall n, is_Some (m !! n) -> Filepath.has_separator n = false.
Proof.
  intros -> n [x H]. apply lookup_singleton_Some in H as [<- _]. reflexivity.
Qed.

Lemma empty_well_formed : well_formed ∅.
Proof. intros path d n [nd H]. now rewrite lookup_empty in H. Qed.

Lemma flush_open_roundtrip_witness :
  exists w' p,
    mustFlush example_marshal example_memPart (partPath "/data/stream" 10) empty_world
      = Returned w' /\
    mustOpenFilePart example_unmarshal example_decode 10 "/data/stream" w' = Returned p /\
    p_partMetadata p = mp_partMetadata example_memPart /\
    p_primary p = mp_primary example_memPart /\
    p_tagFamilies p = mp_tagFamilies example_memPart.
Proof.
  destruct (flush_open_roundtrip example_marshal example_unmarshal example_decode
              empty_world "/data/stream" 10 example_memPart []
              example_codec eq_refl eq_refl
              (example_names_plain _ _ eq_refl) (example_names_plain _ _ eq_refl)
              empty_well_formed (lookup_empty _))
    as (w' & p & H1 & H2 & H3 & _ & H5 & _ & H7 & _).
  exists w', p. auto.
Defined.

(** C7, the claim as stated fails: flushing to a path whose final
    component is [idx] creates that directory. *)
Lemma mustFlush_idx_creates_directory :
  files empty_world !! "data/idx" = None /\
  exists w',
    mustFlush example_marshal example_memPart "data/idx" empty_world = Returned w' /\
    files w' !! "data/idx" = Some Dir.
Proof.
  split; [reflexivity|]. eexists. split.
  - unfold mustFlush, MkdirPanicIfExist. cbn [files empty_world].
    rewrite lookup_empty.
    replace (String.eqb (Filepath.Base "data/idx") elementIndexFilename) with true
      by reflexivity.
    reflexivity.
  - cbn [files]. apply lookup_insert_eq.
Qed.

Lemma mustFlush_idx_only_mkdir_witness :
  Filepath.Base "data/idx" = elementIndexFilename /\
  mustFlush example_marshal example_memPart "data/idx" empty_world =
    Returned (mkWorld (<["data/idx" := Dir]> ∅) [] (64 * 1024 * 1024) []
                      (dir_size empty_world)).
Proof.
  split; [reflexivity|].
  exact (mustFlush_idx_only_mkdir example_marshal example_memPart "data/idx"
           empty_world eq_refl).
Defined.

End Witnesses.

(** ** banyand/fadvis/helper.go: registration of the protector, the
    other hint helpers *)

Section FadvisHelperProperties.
Import Measure FadvisHelper.

Lemma SetMemoryProtector_done (mp : option Memory) (s : state) :
  onceDone s = true -> SetMemoryProtector mp s = Returned s.
Proof. intros H. unfold SetMemoryProtector. now rewrite H. Qed.

Lemma SetMemoryProtector_sets_done (mp : option Memory) (s s1 : state) :
  SetMemoryProtector mp s = Returned s1 -> onceDone s1 = true.
Proof.
  unfold SetMemoryProtector. destruct (onceDone s) eqn:Hd.
  - intros [= <-]. exact Hd.
  - destruct mp as [m|]; [|now intros [= <-]].
    destruct (Memory_GetThreshold m) as [t|msg]; [|discriminate].
    destruct (0 <? t); now intros [= <-].
Qed.

(** X1. Only the first call of [SetMemoryProtector] counts. On a state where
    the once has not fired, a call that returns has stored its argument
    and has set the threshold to what the protector reported when that is
    positive, and has left the threshold alone otherwise (a nil protector
    included); every later call, whatever it is given, returns with the
    state unchanged. *)
Theorem SetMemoryProtector_first_call_only
    (mp1 : option Memory) (s s1 : state) :
  onceDone s = false ->
  SetMemoryProtector mp1 s = Returned s1 ->
  memoryProtector s1 = mp1 /\
  GetThreshold s1 =
    match mp1 with
    | Some (mkMemory (Returned t)) => if decide (0 < t) then t else GetThreshold s
    | _ => GetThreshold s
    end /\
  forall mp2, SetMemoryProtector mp2 s1 = Returned s1.
Proof.
  intros Hfresh Hcall.
  split; [|split].
  - revert Hcall. unfold SetMemoryProtector. rewrite Hfresh.
    destruct mp1 as [[[t|msg]]|]; cbn [Memory_GetThreshold];
      try discriminate; [|now intros [= <-]].
    destruct (0 <? t); now intros [= <-].
  - revert Hcall. unfold SetMemoryProtector. rewrite Hfresh.
    destruct mp1 as [[[t|msg]]|]; cbn [Memory_GetThreshold];
      try discriminate; [|now intros [= <-]].
    destruct (Z.ltb_spec 0 t) as [Hpos|Hnp]; intros [= <-].
    + rewrite decide_True by exact Hpos.
      unfold GetThreshold, SetThreshold. cbn [registry].
      now apply SetThreshold_positive.
    + now rewrite decide_False by lia.
  - intros mp2. apply SetMemoryProtector_done.
    exact (SetMemoryProtector_sets_done _ _ _ Hcall).
Qed.

Lemma SetMemoryProtector_first_call_only_witness :
  let s := init (fun _ => None) in
  let s1 := mkState (Fadvis.init (fun _ => None)) true None [] [] in
  onceDone s = false /\
  SetMemoryProtector None s = Returned s1 /\
  SetMemoryProtector (Some (mkMemory (Returned 1024))) s1 = Returned s1.
Proof.
  cbv zeta. split; [reflexivity|]. split; [reflexivity|].
  apply (SetMemoryProtector_first_call_only None (init (fun _ => None))
           (mkState (Fadvis.init (fun _ => None)) true None [] [])
           eq_refl eq_refl).
Defined.

(** X2. The revision that recovers from a panic of [GetThreshold] agrees with
    helper.go on the threshold and on the once whenever helper.go returns;
    where helper.go panics, the revision returns with the threshold as it
    was and the once spent, so that a later call with a protector that
    works is ignored. *)
Theorem Revised_SetMemoryProtector_recovers (mp : option Memory) (s : state) :
  (forall s1, SetMemoryProtector mp s = Returned s1 ->
     registry (Revised.SetMemoryProtector mp s) = registry s1 /\
     onceDone (Revised.SetMemoryProtector mp s) = onceDone s1) /\
  (forall msg, SetMemoryProtector mp s = Panicked msg ->
     registry (Revised.SetMemoryProtector mp s) = registry s /\
     onceDone (Revised.SetMemoryProtector mp s) = true /\
     forall mp2,
       Revised.SetMemoryProtector mp2 (Revised.SetMemoryProtector mp s)
       = Revised.SetMemoryProtector mp s).
Proof.
  unfold SetMemoryProtector, Revised.SetMemoryProtector.
  destruct (onceDone s) eqn:Hd.
  - split; [now intros s1 [= <-]|discriminate].
  - destruct mp as [[[t|msg']]|]; cbn [Memory_GetThreshold].
    + split; [|destruct (0 <? t); discriminate].
      intros s1. destruct (0 <? t); intros [= <-]; split; reflexivity.
    + split; [discriminate|]. intros msg _. cbn [registry onceDone].
      repeat split. 
    + split; [|discriminate]. intros s1 [= <-]. split; reflexivity.
Qed.

(** X3. [MustApplySequentialIfLarge] decides by the size it is told, never by
    the file: it hints exactly when that size is above the threshold, also
    for a path that does not exist, where [ApplyIfLarge] and
    [MustApplyIfLarge] do nothing; told the size that [os.Stat] reports,
    it hints exactly when the other two do. None of the three touches the
    threshold. *)
Theorem MustApplySequentialIfLarge_by_declared_size
    (filePath : string) (size : Z) (s : state) :
  let s' := MustApplySequentialIfLarge filePath size s in
  (GetThreshold s < size -> sequentialApplied s' = sequentialApplied s ++ [filePath]) /\
  (size <= GetThreshold s -> s' = s) /\
  GetThreshold s' = GetThreshold s /\
  GetThreshold (MustApplyIfLarge filePath s) = GetThreshold s /\
  GetThreshold (ApplyIfLarge filePath s) = GetThreshold s /\
  (Fadvis.stat (registry s) filePath = None ->
     MustApplyIfLarge filePath s = s /\ ApplyIfLarge filePath s = s) /\
  (Fadvis.stat (registry s) filePath = Some size ->
     (GetThreshold s < size ->
        mustApplied (MustApplyIfLarge filePath s) = mustApplied s ++ [filePath] /\
        Fadvis.hinted (registry (ApplyIfLarge filePath s))
          = Fadvis.hinted (registry s) ++ [filePath]) /\
     (size <= GetThreshold s ->
        MustApplyIfLarge filePath s = s /\ ApplyIfLarge filePath s = s)).
Proof.
  cbv zeta.
  unfold MustApplySequentialIfLarge, MustApplyIfLarge, ApplyIfLarge,
    Fadvis.ApplyIfLarge, GetThreshold, Fadvis.GetThreshold.
  destruct s as [[thr st hinted] done kept ma sa].
  cbn [registry Fadvis.LargeFileThreshold Fadvis.stat Fadvis.hinted
       sequentialApplied mustApplied onceDone memoryProtector].
  split; [intros H; now rewrite (proj2 (Z.ltb_lt _ _) H)|].
  split; [intros H; now rewrite (proj2 (Z.ltb_ge _ _) H)|].
  split; [now destruct (thr <? size)|].
  split; [destruct (st filePath) as [sz|]; [now destruct (thr <? sz)|reflexivity]|].
  split; [destruct (st filePath) as [sz|]; [now destruct (thr <? sz)|reflexivity]|].
  split; [intros ->; split; reflexivity|].
  intros ->. split; intros H.
  - rewrite (proj2 (Z.ltb_lt _ _) H). split; reflexivity.
  - rewrite (proj2 (Z.ltb_ge _ _) H). split; reflexivity.
Qed.

Lemma run_call_threshold_positive (c : call) (s s' : state) :
  0 < GetThreshold s -> run_call c s = Returned s' -> 0 < GetThreshold s'.
Proof.
  intros Hpos. destruct c as [v|mp|p|p|p size]; cbn [run_call].
  - intros [= <-]. unfold GetThreshold, SetThreshold, Fadvis.GetThreshold,
      Fadvis.SetThreshold in *. cbn [registry].
    destruct (Z.ltb_spec 0 v); [exact H | exact Hpos].
  - unfold SetMemoryProtector. destruct (onceDone s); [now intros [= <-]|].
    destruct mp as [[[t|msg]]|]; cbn [Memory_GetThreshold];
      [|discriminate|now intros [= <-]].
    destruct (Z.ltb_spec 0 t) as [Ht|Ht]; intros [= <-]; [|exact Hpos].
    unfold GetThreshold, SetThreshold, Fadvis.GetThreshold, Fadvis.SetThreshold.
    cbn [registry]. now rewrite (proj2 (Z.ltb_lt _ _) Ht).
  - intros [= <-]. revert Hpos.
    unfold GetThreshold, ApplyIfLarge, Fadvis.ApplyIfLarge, Fadvis.GetThreshold.
    cbn [registry]. destruct (Fadvis.stat (registry s) p) as [sz|]; [|auto].
    cbv zeta. now destruct (Fadvis.LargeFileThreshold (registry s) <? sz).
  - intros [= <-]. revert Hpos. unfold GetThreshold, MustApplyIfLarge.
    destruct (Fadvis.stat (registry s) p) as [sz|]; [|auto].
    cbv zeta. now destruct (Fadvis.LargeFileThreshold (registry s) <? sz).
  - intros [= <-]. revert Hpos. unfold GetThreshold, MustApplySequentialIfLarge.
    cbv zeta. now destruct (Fadvis.LargeFileThreshold (registry s) <? size).
Qed.

(** X4. The threshold is positive at all times: it is after [init()], and no
    sequence of calls of the package ([SetThreshold] with any value,
    [SetMemoryProtector] with any protector, the hint helpers) makes it
    zero or negative. *)
Theorem threshold_stays_positive
    (st : string -> option Z) (cs : list call) (s : state) :
  run cs (init st) = Returned s -> 0 < GetThreshold s.
Proof.
  assert (H : forall s0, 0 < GetThreshold s0 -> run cs s0 = Returned s ->
                         0 < GetThreshold s).
  { induction cs as [|c cs IH]; intros s0 Hpos; cbn [run].
    - now intros [= <-].
    - destruct (run_call c s0) as [s1|msg] eqn:Hc; [|discriminate].
      apply IH. exact (run_call_threshold_positive c s0 s1 Hpos Hc). }
  apply H. unfold GetThreshold, init, Fadvis.init, Fadvis.GetThreshold.
  cbn [registry Fadvis.LargeFileThreshold]. lia.
Qed.

Lemma threshold_stays_positive_witness :
  let cs := [CallSetThreshold (-100); CallSetMemoryProtector None;
             CallSetThreshold 0; CallApplyIfLarge "primary.bin"] in
  let s := mkState (Fadvis.init (fun _ => None)) true None [] [] in
  run cs (init (fun _ => None)) = Returned s /\ 0 < GetThreshold s.
Proof.
  cbv zeta. split; [reflexivity|].
  apply (threshold_stays_positive (fun _ => None)
           [CallSetThreshold (-100); CallSetMemoryProtector None;
            CallSetThreshold 0; CallApplyIfLarge "primary.bin"]
           (mkState (Fadvis.init (fun _ => None)) true None [] []) eq_refl).
Defined.

(** X5. After a sequence of [SetThreshold] calls the threshold is the last
    positive value given, and what it was before when none was. *)
Theorem SetThreshold_last_positive_wins (vs : list Z) (s : state) :
  GetThreshold (foldl (fun s v => SetThreshold v s) s vs)
  = last_positive (GetThreshold s) vs.
Proof.
  unfold last_positive. revert s.
  induction vs as [|v vs IH]; intros s; cbn [foldl]; [reflexivity|].
  rewrite IH. f_equal.
  unfold GetThreshold, SetThreshold, Fadvis.GetThreshold, Fadvis.SetThreshold.
  cbn [registry]. now destruct (0 <? v).
Qed.

End FadvisHelperProperties.

(** ** The life of a sequential reader *)

Section ReadersProperties.
Import Errors Measure Filepath Readers.
Variable indexDirName : string.

Local Abbreviation reset := (seqReader_reset indexDirName).
Local Abbreviation init := (seqReader_init indexDirName).
Local Abbreviation inv := (exempt_is_small indexDirName).

Lemma reset_clears (s : seqReader) (e : env) :
  inv s -> fst (reset s e) = zero_seqReader.
Proof.
  intros Hinv. unfold seqReader_reset. cbv zeta.
  destruct (isLargeFile s) eqn:Hl; cbn [andb].
  - rewrite (Hinv Hl). rewrite andb_false_r. reflexivity.
  - reflexivity.
Qed.

Lemma init_inv (r : Reader) (s : seqReader) (e : env) :
  inv s -> inv (fst (init r s e)).
Proof.
  intros Hinv. unfold seqReader_init.
  pose proof (reset_clears s e Hinv) as Hz.
  destruct (reset s e) as [s0 e0]. cbn [fst] in Hz. subst s0.
  cbn [bytesRead fileSize isLargeFile zero_seqReader filePath sr].
  destruct (String.eqb (Base (Dir (Path r))) indexDirName) eqn:Hidx.
  - intros H. discriminate.
  - destruct (Fadvis.stat _ _); intros H; cbn [fst filePath] in *; [exact Hidx|discriminate].
Qed.

Lemma mustReadFull_fields (s s' : seqReader) (data out : list Byte.byte) :
  mustReadFull s data = Returned (s', out) ->
  filePath s' = filePath s /\ isLargeFile s' = isLargeFile s /\
  fileSize s' = fileSize s /\
  (is_Some (sr s') <-> is_Some (sr s)).
Proof.
  unfold mustReadFull. destruct (sr s) as [r|] eqn:Hsr.
  - destruct (ReadFull r (length data)) as [[got err] r'].
    destruct err as [e|].
    + destruct (is_eof e); [|discriminate]. intros [= <- _].
      cbn. repeat split; eauto.
    + destruct (negb _); [discriminate|]. intros [= <- _].
      cbn. repeat split; eauto.
  - destruct data; [|discriminate]. intros [= <- _].
    rewrite Hsr. repeat split; auto.
Qed.

Lemma reset_balanced (e0 e : env) (s : seqReader) :
  inv s -> streams_balanced e0 e s ->
  streams_balanced e0 (snd (reset s e)) (fst (reset s e)).
Proof.
  intros Hinv Hb. unfold seqReader_reset, streams_balanced in *. cbv zeta.
  destruct (isLargeFile s) eqn:Hl; cbn [andb].
  - rewrite (Hinv Hl), andb_false_r.
    destruct (negb (String.eqb (filePath s) "")); destruct (sr s); cbn in *; lia.
  - destruct (sr s); cbn in *; lia.
Qed.

Lemma init_balanced (r : Reader) (e0 e : env) (s : seqReader) :
  inv s -> streams_balanced e0 e s ->
  streams_balanced e0 (snd (init r s e)) (fst (init r s e)).
Proof.
  intros Hinv Hb. unfold seqReader_init.
  pose proof (reset_clears s e Hinv) as Hz.
  pose proof (reset_balanced e0 e s Hinv Hb) as Hb'.
  destruct (reset s e) as [s0 e1]. cbn [fst snd] in *. subst s0.
  unfold streams_balanced in *. cbn [zero_seqReader sr] in Hb'.
  cbn [bytesRead fileSize isLargeFile zero_seqReader filePath sr fadvis].
  destruct (String.eqb (Base (Dir (Path r))) indexDirName);
    [|destruct (Fadvis.stat _ _)]; cbn; lia.
Qed.

Lemma run_inv (ops : list op) :
  forall (e0 : env) (s : seqReader) (e : env) (s' : seqReader) (e' : env),
  inv s -> streams_balanced e0 e s ->
  run indexDirName ops s e = Returned (s', e') ->
  inv s' /\ streams_balanced e0 e' s'.
Proof.
  induction ops as [|o ops IH]; intros e0 s e s' e' Hinv Hb; cbn [run].
  - intros [= <- <-]. split; assumption.
  - destruct o as [r|data|].
    + pose proof (init_inv r s e Hinv) as Hi.
      pose proof (init_balanced r e0 e s Hinv Hb) as Hb'.
      destruct (init r s e) as [s1 e1]. cbn [fst snd] in *.
      now apply IH.
    + destruct (mustReadFull s data) as [[s1 out]|msg] eqn:Hr; [|discriminate].
      destruct (mustReadFull_fields _ _ _ _ Hr) as (Hp & Hl & _ & Hs).
      apply IH.
      * unfold exempt_is_small. rewrite Hp, Hl. exact Hinv.
      * unfold streams_balanced in *.
        destruct (sr s), (sr s1); try exact Hb;
          destruct Hs as [H1 H2];
          [destruct (H2 ltac:(eauto)) as [? [=]] | destruct (H1 ltac:(eauto)) as [? [=]]].
    + pose proof (reset_clears s e Hinv) as Hz.
      pose proof (reset_balanced e0 e s Hinv Hb) as Hb'.
      destruct (reset s e) as [s1 e1]. cbn [fst snd] in *. subst s1.
      apply IH; [|exact Hb']. intros H. discriminate.
Qed.

(** X6. Whatever sequence of [init], [mustReadFull] and [reset] calls a fresh
    [seqReader] has gone through, [reset] leaves it the zero value (the
    early return for the index directory is never taken, because [init]
    never marks a file of the index directory large), and every stream
    opened by [init] is closed: exactly one is open while the reader holds
    one, none after a [reset]. *)
Theorem seqReader_reset_clears_and_closes
    (ops : list op) (e0 : env) (s : seqReader) (e : env) :
  run indexDirName ops zero_seqReader e0 = Returned (s, e) ->
  fst (reset s e) = zero_seqReader /\
  streams_balanced e0 e s /\
  (opened (snd (reset s e)) + closed e0
   = opened e0 + closed (snd (reset s e)))%nat.
Proof.
  intros Hrun.
  destruct (run_inv ops e0 zero_seqReader e0 s e) as [Hinv Hb].
  - intros H. discriminate.
  - unfold streams_balanced. cbn. lia.
  - exact Hrun.
  - split; [now apply reset_clears|]. split; [exact Hb|].
    pose proof (reset_balanced e0 e s Hinv Hb) as Hb'.
    rewrite (reset_clears s e Hinv) in Hb'.
    unfold streams_balanced in Hb'. cbn [zero_seqReader sr] in Hb'. lia.
Qed.

(** X7. [init] on a reader in a state it can be in, then [reset]: [init]
    takes the stream and the path of the reader it is given, starts
    counting at zero, and marks the file large exactly when it is not in
    the index directory and its size is above the threshold; the [reset]
    that follows hints the file exactly when it was marked large (and has
    a path), leaves the zero value, and a second [reset] does nothing. *)
Theorem seqReader_large_file_hinted_once
    (r : Reader) (s : seqReader) (e : env) :
  inv s ->
  let s1 := fst (init r s e) in
  let e1 := snd (init r s e) in
  let s2 := fst (reset s1 e1) in
  let e2 := snd (reset s1 e1) in
  sr s1 = Some (SequentialRead r) /\
  filePath s1 = Path r /\
  bytesRead s1 = 0 /\
  isLargeFile s1 = large_file indexDirName r (fadvis e) /\
  Fadvis.hinted (fadvis e2) =
    Fadvis.hinted (fadvis e1) ++
    (if (large_file indexDirName r (fadvis e) && negb (String.eqb (Path r) ""))%bool
     then [Path r] else []) /\
  s2 = zero_seqReader /\
  reset s2 e2 = (s2, e2).
Proof.
  intros Hinv. cbv zeta.
  pose proof (init_inv r s e Hinv) as Hinv1.
  pose proof (reset_clears (fst (init r s e)) (snd (init r s e)) Hinv1) as Hz.
  assert (Hinit : sr (fst (init r s e)) = Some (SequentialRead r) /\
                  filePath (fst (init r s e)) = Path r /\
                  bytesRead (fst (init r s e)) = 0 /\
                  isLargeFile (fst (init r s e)) = large_file indexDirName r (fadvis e)).
  { unfold seqReader_init.
    pose proof (reset_clears s e Hinv) as Hz0.
    assert (Hw : Fadvis.stat (fadvis (snd (reset s e))) = Fadvis.stat (fadvis e) /\
                 Fadvis.GetThreshold (fadvis (snd (reset s e)))
                 = Fadvis.GetThreshold (fadvis e)).
    { unfold seqReader_reset. cbv zeta.
      destruct (isLargeFile s && negb (String.eqb (filePath s) ""))%bool; cbn [andb].
      - destruct (String.eqb _ indexDirName); [split; reflexivity|].
        destruct (sr s); split; reflexivity.
      - destruct (sr s); split; reflexivity. }
    destruct (reset s e) as [s0 e0]. cbn [fst snd] in *. subst s0.
    destruct Hw as [Hst Hth].
    unfold large_file.
    cbn [bytesRead fileSize isLargeFile zero_seqReader filePath sr fadvis].
    destruct (String.eqb (Base (Dir (Path r))) indexDirName); cbn [negb andb].
    - repeat split.
    - rewrite Hst, Hth. destruct (Fadvis.stat (fadvis e) (Path r)); repeat split. }
  destruct Hinit as (Hsr & Hpath & Hbytes & Hlarge).
  split; [exact Hsr|]. split; [exact Hpath|]. split; [exact Hbytes|].
  split; [exact Hlarge|]. split; [|split; [exact Hz|]].
  - unfold seqReader_reset at 1. cbv zeta. rewrite Hlarge, Hpath.
    destruct (large_file indexDirName r (fadvis e)) eqn:Hl; cbn [andb].
    + pose proof (Hinv1 ltac:(congruence)) as Hidx. rewrite Hpath in Hidx.
      rewrite Hidx, andb_false_r.
      destruct (negb (String.eqb (Path r) "")); rewrite Hsr; cbn;
        [reflexivity | now rewrite app_nil_r].
    + rewrite Hsr. cbn. now rewrite app_nil_r.
  - rewrite Hz. reflexivity.
Qed.

End ReadersProperties.

Section ReadersPaths.
Import Errors Measure Filepath Readers.

Lemma dir_part_under (a n : string) :
  has_separator n = false -> dir_part (a +:+ String "/" n) = a +:+ "/".
Proof.
  intros Hn. induction a as [|c a IH].
  - change (dir_part (String "/" n) = "/"). cbn [dir_part]. now rewrite Hn.
  - rewrite !app_cons. cbn [dir_part]. rewrite has_separator_app.
    change (has_separator (String "/" n)) with true.
    rewrite orb_true_r. now rewrite IH.
Qed.

Lemma Clean_settled_slash (d last : string) :
  plain last -> proper last -> settled d last -> Clean (d +:+ "/") = d.
Proof.
  intros Hl Hlp Hd.
  pose proof (settled_nonempty d last Hl Hd) as Hne.
  destruct Hd as (r & cs & -> & Hcs & Hclean).
  assert (Hall : Forall plain (cs ++ [last])).
  { apply Forall_app. split; [exact Hcs|]. constructor; [exact Hl|constructor]. }
  assert (Hne2 : cs ++ [last] <> []) by (now destruct cs).
  destruct (render_spec r (cs ++ [last]) Hall Hne2) as (_ & Hr & He).
  unfold Clean.
  assert (Hne3 : render r (cs ++ [last]) +:+ "/" <> "").
  { intros H. apply string_app_eq_nil in H as [? _]. congruence. }
  apply String.eqb_neq in Hne3 as ->.
  rewrite rooted_app by exact Hne. rewrite Hr.
  unfold elements.
  change (render r (cs ++ [last]) +:+ "/")
    with (render r (cs ++ [last]) +:+ String "/" "").
  rewrite elements_go_sep. fold (elements (render r (cs ++ [last]))).
  rewrite He. cbn [elements_go String.eqb]. rewrite app_nil_r.
  rewrite clean_elements_snoc by exact Hlp. now rewrite Hclean.
Qed.

(** [filepath.Dir] of a file directly under a clean directory is that
    directory. *)
Lemma Dir_under_settled (d last n : string) :
  plain last -> proper last -> settled d last -> has_separator n = false ->
  Dir (d +:+ "/" +:+ n) = d.
Proof.
  intros Hl Hlp Hd Hn. unfold Dir.
  change (d +:+ "/" +:+ n) with (d +:+ String "/" n).
  rewrite dir_part_under by exact Hn.
  now apply (Clean_settled_slash d last).
Qed.

(** X8. A file that lies directly in a directory named [indexDirName] is
    never marked large by [seqReader.init], whatever its size and the
    threshold: joined from any root, the index directory name and a file
    name, its path has the index directory as the base of its directory,
    so [init], on a reader in a state it can be in, takes the stream and
    the path, leaves [isLargeFile] false and [fileSize] 0 without asking
    for the size, and the [reset] that follows applies no hint. *)
Theorem index_directory_file_never_large
    (indexDirName root name : string) (stream : SeqReader)
    (s : seqReader) (e : env) :
  plain indexDirName -> proper indexDirName -> plain name -> proper name ->
  exempt_is_small indexDirName s ->
  let r := mkReader (Join (Join root indexDirName) name) stream in
  let s1 := fst (seqReader_init indexDirName r s e) in
  let e1 := snd (seqReader_init indexDirName r s e) in
  Base (Dir (Path r)) = indexDirName /\
  sr s1 = Some stream /\
  filePath s1 = Join (Join root indexDirName) name /\
  isLargeFile s1 = false /\
  fileSize s1 = 0 /\
  Fadvis.hinted (fadvis (snd (seqReader_reset indexDirName s1 e1)))
  = Fadvis.hinted (fadvis e1).
Proof.
  intros Hi Hip Hn Hnp Hinv. cbv zeta.
  pose proof (Join_settled root indexDirName Hi Hip) as Hd.
  assert (Hbase : Base (Dir (Join (Join root indexDirName) name)) = indexDirName).
  { rewrite (Join_under_settled _ indexDirName name Hi Hip Hd Hn Hnp).
    rewrite (Dir_under_settled _ indexDirName name Hi Hip Hd (proj2 Hn)).
    now apply Base_settled. }
  cbn [Path]. split; [exact Hbase|].
  unfold seqReader_init.
  pose proof (reset_clears indexDirName s e Hinv) as Hz.
  destruct (seqReader_reset indexDirName s e) as [s0 e0]. cbn [fst] in Hz. subst s0.
  cbn [Path SequentialRead bytesRead fileSize isLargeFile zero_seqReader filePath sr].
  rewrite Hbase, String.eqb_refl. cbn [fst snd sr filePath isLargeFile fileSize].
  repeat split.
Qed.

Lemma index_directory_file_never_large_witness :
  let e := mkEnv (Fadvis.mkWorld 10 (fun _ => Some 1000) []) 0 0 in
  let r := mkReader (Join (Join "/data/seg" "idx") "primary.bin") (mkSeqReader [] EOF) in
  exempt_is_small "idx" zero_seqReader /\
  isLargeFile (fst (seqReader_init "idx" r zero_seqReader e)) = false.
Proof.
  cbv zeta.
  assert (Hinv : exempt_is_small "idx" zero_seqReader) by (intros H; discriminate).
  split; [exact Hinv|].
  apply (index_directory_file_never_large "idx" "/data/seg" "primary.bin"
           (mkSeqReader [] EOF) zero_seqReader
           (mkEnv (Fadvis.mkWorld 10 (fun _ => Some 1000) []) 0 0)).
  - split; [discriminate|reflexivity].
  - split; discriminate.
  - split; [discriminate|reflexivity].
  - split; discriminate.
  - exact Hinv.
Defined.

Lemma seqReader_reset_clears_and_closes_witness :
  let st := fun p => if String.eqb p "data/primary.bin" then Some 100 else None in
  let e0 := mkEnv (Fadvis.mkWorld 10 st []) 0 0 in
  let r1 := mkReader "data/primary.bin" (mkSeqReader [[Byte.x61; Byte.x62]] EOF) in
  let r2 := mkReader "data/idx/primary.bin" (mkSeqReader [] EOF) in
  let ops := [OpInit r1; OpMustReadFull [Byte.x00]; OpInit r2] in
  let s := mkseqReader (Some (mkSeqReader [] EOF)) 0 "data/idx/primary.bin" 0 false in
  let e := mkEnv (Fadvis.mkWorld 10 st ["data/primary.bin"]) 2 1 in
  run "idx" ops zero_seqReader e0 = Returned (s, e) /\
  fst (seqReader_reset "idx" s e) = zero_seqReader /\
  streams_balanced e0 e s.
Proof.
  cbv zeta.
  assert (Hrun :
    run "idx"
      [OpInit (mkReader "data/primary.bin" (mkSeqReader [[Byte.x61; Byte.x62]] EOF));
       OpMustReadFull [Byte.x00];
       OpInit (mkReader "data/idx/primary.bin" (mkSeqReader [] EOF))]
      zero_seqReader
      (mkEnv (Fadvis.mkWorld 10
                (fun p => if String.eqb p "data/primary.bin" then Some 100 else None)
                []) 0 0)
    = Returned
        (mkseqReader (Some (mkSeqReader [] EOF)) 0 "data/idx/primary.bin" 0 false,
         mkEnv (Fadvis.mkWorld 10
                  (fun p => if String.eqb p "data/primary.bin" then Some 100 else None)
                  ["data/primary.bin"]) 2 1))
    by reflexivity.
  split; [exact Hrun|].
  destruct (seqReader_reset_clears_and_closes "idx" _ _ _ _ Hrun) as (H1 & H2 & _).
  split; [exact H1|exact H2].
Defined.

Lemma seqReader_large_file_hinted_once_witness :
  let st := fun p => if String.eqb p "data/primary.bin" then Some 100 else None in
  let e := mkEnv (Fadvis.mkWorld 10 st []) 0 0 in
  let r := mkReader "data/primary.bin" (mkSeqReader [[Byte.x61; Byte.x62]] EOF) in
  let s1 := fst (seqReader_init "idx" r zero_seqReader e) in
  let e1 := snd (seqReader_init "idx" r zero_seqReader e) in
  exempt_is_small "idx" zero_seqReader /\
  isLargeFile s1 = true /\
  Fadvis.hinted (fadvis (snd (seqReader_reset "idx" s1 e1))) = ["data/primary.bin"].
Proof.
  cbv zeta.
  assert (Hinv : exempt_is_small "idx" zero_seqReader) by (intros H; discriminate).
  split; [exact Hinv|].
  pose proof (seqReader_large_file_hinted_once "idx"
                (mkReader "data/primary.bin" (mkSeqReader [[Byte.x61; Byte.x62]] EOF))
                zero_seqReader
                (mkEnv (Fadvis.mkWorld 10
                          (fun p => if String.eqb p "data/primary.bin" then Some 100 else None)
                          []) 0 0)
                Hinv) as H.
  cbv zeta in H. destruct H as (_ & _ & _ & Hlarge & Hhint & _).
  split; [rewrite Hlarge; vm_compute; reflexivity|].
  rewrite Hhint. vm_compute. reflexivity.
Defined.

Example Dir_examples :
  Dir "/foo/bar/baz.js" = "/foo/bar" /\ Dir "/foo/bar/baz/" = "/foo/bar/baz" /\
  Dir "/dirty//path///" = "/dirty/path" /\ Dir "dev.txt" = "." /\
  Dir "../todo.txt" = ".." /\ Dir ".." = "." /\ Dir "/" = "/" /\ Dir "" = ".".
Proof. vm_compute. repeat split; reflexivity. Qed.

End ReadersPaths.

(** ** Reading a stream piece by piece *)

Section SequentialReads.
Import Errors Measure.

Lemma read_loop_rest (at_end : error) (pending : list (list Byte.byte)) :
  forall (need : nat) (got : list Byte.byte),
  concat (snd (read_loop at_end pending need got)) = drop need (concat pending).
Proof.
  induction pending as [|c pending IH]; intros need got.
  - destruct need; cbn [read_loop snd concat]; now rewrite ?drop_nil.
  - destruct need as [|need]; [reflexivity|].
    cbn [read_loop concat].
    destruct (Nat.leb_spec (length c) (S need)) as [Hle|Hgt].
    + rewrite IH. now rewrite drop_app_ge by lia.
    + cbn [snd concat]. now rewrite drop_app_le by lia.
Qed.

(** A read that the stream can satisfy. *)
Lemma mustReadFull_available (s : seqReader) (r : SeqReader) (data : list Byte.byte) :
  sr s = Some r ->
  (length data <= length (concat (chunks r)))%nat ->
  exists r',
    mustReadFull s data =
      Returned (mkseqReader (Some r') (wrap64 (bytesRead s + Z.of_nat (length data)))
                            (filePath s) (fileSize s) (isLargeFile s),
                take (length data) (concat (chunks r))) /\
    concat (chunks r') = drop (length data) (concat (chunks r)) /\
    at_end r' = at_end r.
Proof.
  intros Hsr Hlen. unfold mustReadFull. rewrite Hsr.
  pose proof (read_loop_rest (at_end r) (chunks r) (length data) []) as Hrest.
  destruct (ReadFull_spec r (length data)) as [r' Hr]. cbv zeta in Hr.
  assert (Hr' : concat (chunks r') = drop (length data) (concat (chunks r)) /\
                at_end r' = at_end r).
  { revert Hr. unfold ReadFull.
    destruct (read_loop (at_end r) (chunks r) (length data) []) as [[got e] rest].
    cbn [snd] in Hrest. intros [= _ _ <-]. cbn [chunks at_end]. auto. }
  rewrite Hr. rewrite decide_True by exact Hlen.
  rewrite length_take. replace (length data `min` length (concat (chunks r)))%nat
    with (length data) by lia.
  rewrite Nat.eqb_refl. cbn [negb]. rewrite drop_all, app_nil_r.
  exists r'. split; [reflexivity|exact Hr'].
Qed.

(** X9. [mustReadFull] hands out the bytes of the stream in order, however
    the stream delivers them: when the stream still holds the bytes asked
    for, a read fills the whole buffer with the next bytes and adds their
    number to [bytesRead]; and two reads in a row return the same bytes and
    the same count as a single read into a buffer of the combined length,
    and leave the same bytes to come. *)
Theorem mustReadFull_in_stream_order
    (s : seqReader) (r : SeqReader) (d1 d2 : list Byte.byte) :
  sr s = Some r ->
  (length d1 + length d2 <= length (concat (chunks r)))%nat ->
  exists s1 s2 s12 r2 r12,
    mustReadFull s d1 = Returned (s1, take (length d1) (concat (chunks r))) /\
    mustReadFull s1 d2 =
      Returned (s2, take (length d2) (drop (length d1) (concat (chunks r)))) /\
    mustReadFull s (d1 ++ d2) =
      Returned (s12, take (length d1 + length d2) (concat (chunks r))) /\
    take (length d1) (concat (chunks r)) ++
      take (length d2) (drop (length d1) (concat (chunks r)))
    = take (length d1 + length d2) (concat (chunks r)) /\
    bytesRead s2 = wrap64 (bytesRead s + Z.of_nat (length d1 + length d2)) /\
    bytesRead s12 = bytesRead s2 /\
    sr s2 = Some r2 /\ sr s12 = Some r12 /\
    concat (chunks r2) = concat (chunks r12) /\
    concat (chunks r2) = drop (length d1 + length d2) (concat (chunks r)).
Proof.
  intros Hsr Hlen.
  destruct (mustReadFull_available s r d1 Hsr ltac:(lia)) as (r1 & H1 & Hc1 & He1).
  set (s1 := mkseqReader (Some r1) (wrap64 (bytesRead s + Z.of_nat (length d1)))
                         (filePath s) (fileSize s) (isLargeFile s)) in *.
  destruct (mustReadFull_available s1 r1 d2 eq_refl) as (r2 & H2 & Hc2 & He2).
  { rewrite Hc1, length_drop. lia. }
  destruct (mustReadFull_available s r (d1 ++ d2) Hsr) as (r12 & H12 & Hc12 & He12).
  { rewrite length_app. lia. }
  rewrite length_app in H12, Hc12. rewrite Hc1 in H2, Hc2. rewrite drop_drop in Hc2.
  eexists s1, _, _, r2, r12.
  split; [exact H1|]. split; [exact H2|]. split; [exact H12|].
  split; [now rewrite take_take_drop|].
  cbn [bytesRead sr s1].
  assert (Hw : wrap64 (wrap64 (bytesRead s + Z.of_nat (length d1)) + Z.of_nat (length d2))
               = wrap64 (bytesRead s + Z.of_nat (length d1 + length d2))).
  { unfold wrap64. rewrite Zplus_mod_idemp_l. f_equal. lia. }
  split; [exact Hw|]. split; [now rewrite Hw, Nat2Z.inj_add|].
  split; [reflexivity|]. split; [reflexivity|].
  split; [congruence|exact Hc2].
Qed.

Lemma mustReadFull_in_stream_order_witness :
  let r := mkSeqReader [[Byte.x61]; [Byte.x62; Byte.x63]; [Byte.x64]] EOF in
  let s := mkseqReader (Some r) 5 "primary.bin" 0 false in
  exists s12,
    mustReadFull s ([Byte.x00] ++ [Byte.x00; Byte.x00]) =
      Returned (s12, [Byte.x61; Byte.x62; Byte.x63]) /\
    bytesRead s12 = 8.
Proof.
  cbv zeta.
  destruct (mustReadFull_in_stream_order
              (mkseqReader
                 (Some (mkSeqReader [[Byte.x61]; [Byte.x62; Byte.x63]; [Byte.x64]] EOF))
                 5 "primary.bin" 0 false)
              (mkSeqReader [[Byte.x61]; [Byte.x62; Byte.x63]; [Byte.x64]] EOF)
              [Byte.x00] [Byte.x00; Byte.x00] eq_refl ltac:(cbn; lia))
    as (s1 & s2 & s12 & r2 & r12 & _ & _ & H12 & _ & Hb2 & Hb12 & _).
  exists s12. split; [exact H12|]. rewrite Hb12, Hb2. reflexivity.
Defined.

End SequentialReads.

(** ** The builder keeps every row *)

Section BuilderRows.
Import Measure Stream.
Variable cap : Z.
Variable sort_Sort : list element -> list element.

Lemma blocks_from_rows_nonempty (rest : list element) :
  forall (sp size : Z) (cur : list element),
  0 < cap ->
  (cur = [] -> size < cap /\ sp = 0 /\ rest <> []) ->
  Forall (fun b => wb_rows b <> []) (blocks_from cap rest sp size cur).
Proof.
  induction rest as [|e rest IH]; intros sp size cur Hcap Hcur; cbn [blocks_from].
  - constructor; [|constructor]. cbn [wb_rows]. intros Hnil.
    destruct (Hcur Hnil) as (_ & _ & H). congruence.
  - cbv zeta. destruct cur as [|c cur].
    + destruct (Hcur eq_refl) as (Hsize & -> & _).
      rewrite (proj2 (Z.leb_gt _ _) Hsize). cbn [Z.eqb orb].
      rewrite Z.eqb_refl. cbn [negb].
      apply IH; [exact Hcap|discriminate].
    + match goal with |- context [if ?c then _ else _] => destruct c end.
      * constructor; [discriminate|]. apply IH; [exact Hcap|discriminate].
      * apply IH; [exact Hcap|discriminate].
Qed.

Lemma concat_nonempty_length {T} (l : list (list T)) :
  Forall (fun b => b <> []) l -> (length l <= length (concat l))%nat.
Proof.
  induction 1 as [|b l Hb _ IH]; [reflexivity|].
  cbn [concat length]. rewrite length_app.
  destruct b; [congruence|]. cbn [length]. lia.
Qed.

(** X10. Whatever the batch (series 0 included) and whichever way
    [sort.Sort] orders the rows with equal keys, [mustInitFromElements]
    hands every row to the block writer exactly once: the rows of the
    blocks, in the order written, are the rows of the batch as the sort
    left them, a permutation of the batch in ascending order by (series
    identifier, timestamp); no block is empty, so there are at most as
    many blocks as rows, and none for the empty batch. *)
Theorem mustInitFromElements_keeps_rows (es : list element) :
  0 < cap ->
  sort_Sort es ≡ₚ es ->
  Sorted element_le (sort_Sort es) ->
  let blocks := mustInitFromElements cap sort_Sort es in
  concat (wb_rows <$> blocks) = sort_Sort es /\
  concat (wb_rows <$> blocks) ≡ₚ es /\
  StronglySorted element_le (concat (wb_rows <$> blocks)) /\
  Forall (fun b => wb_rows b <> []) blocks /\
  (length blocks <= length es)%nat /\
  (blocks = [] <-> es = []).
Proof.
  intros Hcap Hp Hs. cbv zeta.
  assert (Hss : StronglySorted element_le (sort_Sort es)).
  { apply Sorted_StronglySorted; [|exact Hs].
    intros a b c. apply element_le_trans. }
  destruct es as [|e es].
  { apply Permutation_nil_r in Hp. cbn. rewrite Hp.
    repeat split; auto; constructor. }
  rewrite mustInitFromElements_blocks_from by discriminate.
  assert (Hne : sort_Sort (e :: es) <> []).
  { intros Hnil. rewrite Hnil in Hp. apply Permutation_nil_l in Hp. discriminate. }
  assert (Hrows : Forall (fun b => wb_rows b <> [])
                    (blocks_from cap (sort_Sort (e :: es)) 0 0 []))
    by (apply blocks_from_rows_nonempty; [exact Hcap|intros _; auto]).
  pose proof (blocks_from_concat cap (sort_Sort (e :: es)) 0 0 []) as Hc.
  cbn [app] in Hc.
  split; [exact Hc|]. split; [rewrite Hc; exact Hp|].
  split; [rewrite Hc; exact Hss|].
  split; [exact Hrows|]. split.
  - pose proof (concat_nonempty_length
                  (wb_rows <$> blocks_from cap (sort_Sort (e :: es)) 0 0 [])) as Hl.
    rewrite Hc, length_fmap in Hl.
    rewrite (Permutation_length Hp) in Hl.
    apply Hl. now apply Forall_fmap.
  - split; [|discriminate]. intros Hnil.
    now apply blocks_from_nonempty in Hnil.
Qed.

End BuilderRows.

Section BuilderRowsWitness.
Import Measure Stream.

Lemma mustInitFromElements_keeps_rows_witness :
  0 < 2097152 /\
  sort_elements batch_with_series_zero ≡ₚ batch_with_series_zero /\
  Sorted element_le (sort_elements batch_with_series_zero) /\
  concat (wb_rows <$> mustInitFromElements 2097152 sort_elements batch_with_series_zero)
  ≡ₚ batch_with_series_zero.
Proof.
  assert (H1 : sort_elements batch_with_series_zero ≡ₚ batch_with_series_zero)
    by reflexivity.
  assert (H2 : Sorted element_le (sort_elements batch_with_series_zero))
    by (repeat constructor).
  split; [lia|]. split; [exact H1|]. split; [exact H2|].
  destruct (mustInitFromElements_keeps_rows 2097152 sort_elements
              batch_with_series_zero ltac:(lia) H1 H2) as (_ & H & _).
  exact H.
Defined.

End BuilderRowsWitness.

(** ** The names of the part directories *)

Section PartNames.
Import Measure Filepath Stream.

Lemma hex_go_acc (n : nat) :
  forall v acc, hex_go n v acc = hex_go n v "" +:+ acc.
Proof.
  induction n as [|n IH]; intros v acc; cbn [hex_go]; [reflexivity|].
  rewrite (IH _ (String _ acc)), (IH _ (String _ "")).
  now rewrite string_app_assoc.
Qed.

Lemma string_app_inj_length (a a' b b' : string) :
  String.length a = String.length a' -> a +:+ b = a' +:+ b' -> a = a' /\ b = b'.
Proof.
  revert a'. induction a as [|c a IH]; intros [|c' a'] Hlen; try discriminate.
  - rewrite !app_nil_l. auto.
  - rewrite !app_cons. intros [= -> H]. cbn in Hlen.
    destruct (IH a' ltac:(lia) H) as [-> ->]. auto.
Qed.

(** The value of a hexadecimal digit. *)
Lemma hex_digit_inj (x y : Z) :
  0 <= x < 16 -> 0 <= y < 16 -> hex_digit x = hex_digit y -> x = y.
Proof.
  intros Hx Hy.
  assert (Ex : exists i, x = Z.of_nat i /\ (i < 16)%nat)
    by (exists (Z.to_nat x); lia).
  assert (Ey : exists j, y = Z.of_nat j /\ (j < 16)%nat)
    by (exists (Z.to_nat y); lia).
  destruct Ex as (i & -> & Hi), Ey as (j & -> & Hj).
  unfold hex_digit. rewrite !Nat2Z.id.
  do 16 (destruct i as [|i]; [do 16 (destruct j as [|j]; [first [reflexivity | discriminate]|]); lia|]).
  lia.
Qed.

Lemma hex_go_inj (n : nat) :
  forall v v', 0 <= v < 16 ^ Z.of_nat n -> 0 <= v' < 16 ^ Z.of_nat n ->
  hex_go n v "" = hex_go n v' "" -> v = v'.
Proof.
  induction n as [|n IH]; intros v v' Hv Hv'.
  - cbn in Hv, Hv'. lia.
  - rewrite Nat2Z.inj_succ, Z.pow_succ_r in Hv, Hv' by lia.
    cbn [hex_go]. rewrite (hex_go_acc n (v / 16)), (hex_go_acc n (v' / 16)).
    intros H. apply string_app_inj_length in H as [H1 H2];
      [|now rewrite !hex_go_length].
    injection H2 as H2.
    apply hex_digit_inj in H2; [|apply Z.mod_pos_bound; lia..].
    apply IH in H1.
    + rewrite (Z.div_mod v 16), (Z.div_mod v' 16) by lia. congruence.
    + split; [apply Z.div_pos; lia | apply Z.div_lt_upper_bound; lia].
    + split; [apply Z.div_pos; lia | apply Z.div_lt_upper_bound; lia].
Qed.

(** X11. Two identifiers get the same directory under a root exactly when they
    are the same [uint64]: [partName] is sixteen hexadecimal digits that
    determine the identifier, and it is the base name of [partPath]. *)
Theorem partPath_injective (root : string) (a b : Z) :
  (partName a = partName b <-> wrap64 a = wrap64 b) /\
  (partPath root a = partPath root b <-> wrap64 a = wrap64 b) /\
  String.length (partName a) = 16%nat /\
  Base (partPath root a) = partName a.
Proof.
  assert (Hn : partName a = partName b <-> wrap64 a = wrap64 b).
  { unfold partName. split; [|now intros ->].
    apply (hex_go_inj 16); change (16 ^ Z.of_nat 16) with (2 ^ 64);
      apply wrap64_range. }
  split; [exact Hn|]. split; [|split; [apply partName_length|apply Base_partPath]].
  rewrite <- Hn. split.
  - intros H. apply (f_equal Base) in H. now rewrite !Base_partPath in H.
  - unfold partPath. now intros ->.
Qed.

End PartNames.

(** ** A surplus release; the families of a memory part *)

Section WrapperSurplus.
Import Measure Stream StreamParts.

(** X12. A [decRef] beyond the last reference is not caught. After the release
    that takes the count from 1 to 0, a memory-backed wrapper has dropped
    both its parts, so a further [decRef] (also after an [incRef]) and
    [ID()] panic on the nil part; a file-backed wrapper keeps its part, so
    [ID()] still answers and a further [decRef] (also after an [incRef])
    runs the whole cleanup a second time. *)
Theorem decRef_surplus (pw pw' : partWrapper) (acts : list cleanup) :
  ref pw = 1 ->
  decRef pw = Returned (pw', acts) ->
  acts = cleanup_of pw /\ ref pw' = 0 /\
  match pw_mp pw, pw_p pw with
  | Some _, _ =>
      pw_mp pw' = None /\ pw_p pw' = None /\
      decRef pw' = Panicked "nil pointer dereference" /\
      decRef (incRef pw') = Panicked "nil pointer dereference" /\
      partWrapper_ID pw' = Panicked "nil pointer dereference"
  | None, Some p =>
      (exists pw'', decRef pw' = Returned (pw'', cleanup_of pw) /\ ref pw'' = -1) /\
      (exists pw'', decRef (incRef pw') = Returned (pw'', cleanup_of pw) /\ ref pw'' = 0) /\
      partWrapper_ID pw' = Returned (ID (p_partMetadata p))
  | None, None => False
  end.
Proof.
  intros Href. unfold decRef at 1. rewrite Href.
  change (wrap32 (1 - 1)) with 0. cbn [Z.ltb Z.compare].
  destruct pw as [mp p r rm]. cbn [pw_mp pw_p removable ref] in *. subst r.
  unfold cleanup_of. cbn [pw_mp pw_p removable].
  destruct mp as [mp|].
  - intros [= <- <-]. split; [reflexivity|]. split; [reflexivity|].
    repeat split.
  - destruct p as [p|]; [|discriminate].
    intros [= <- <-]. split; [reflexivity|]. split; [reflexivity|].
    split; [|split].
    + eexists. unfold decRef. cbn [ref pw_mp pw_p removable].
      change (wrap32 (0 - 1)) with (-1). cbn [Z.ltb Z.compare].
      split; reflexivity.
    + eexists. unfold decRef, incRef. cbn [ref pw_mp pw_p removable].
      change (wrap32 (wrap32 (0 + 1) - 1)) with 0. cbn [Z.ltb Z.compare].
      split; reflexivity.
    + reflexivity.
Qed.

Lemma decRef_surplus_witness :
  let pw := newPartWrapper (Some example_memPart) None in
  let pw' := mkPartWrapper None None 0 false in
  ref pw = 1 /\
  decRef pw = Returned (pw', [ReleaseMemPart example_memPart]) /\
  decRef pw' = Panicked "nil pointer dereference".
Proof.
  cbv zeta.
  pose proof (decRef_surplus (newPartWrapper (Some example_memPart) None)
                (mkPartWrapper None None 0 false)
                [ReleaseMemPart example_memPart] eq_refl eq_refl) as H.
  cbn [newPartWrapper pw_mp pw_p] in H.
  destruct H as (_ & _ & _ & _ & H & _).
  split; [reflexivity|]. split; [reflexivity|exact H].
Defined.

End WrapperSurplus.

Section MemPartFamilies.
Import Measure Stream StreamParts.
Variable partMetadata_reset : partMetadata -> partMetadata.

Lemma mustCreateMemTagFamilyWriters_paired (name : string) (mp : memPart) :
  paired mp ->
  exists mp',
    mustCreateMemTagFamilyWriters name mp = Returned mp' /\
    paired mp' /\
    mp_tagFamilies mp' !! name = Some [] /\
    mp_tagFamilyMetadata mp' !! name = Some [] /\
    (forall other, other <> name ->
       mp_tagFamilies mp' !! other = mp_tagFamilies mp !! other /\
       mp_tagFamilyMetadata mp' !! other = mp_tagFamilyMetadata mp !! other) /\
    mp_meta mp' = mp_meta mp /\ mp_primary mp' = mp_primary mp /\
    mp_timestamps mp' = mp_timestamps mp.
Proof.
  intros Hp. unfold mustCreateMemTagFamilyWriters.
  assert (Hres : forall mp',
            mp' = mkMemPart (<[name := []]> (mp_tagFamilyMetadata mp))
                            (<[name := []]> (mp_tagFamilies mp))
                            (mp_meta mp) (mp_primary mp) (mp_timestamps mp)
                            (mp_partMetadata mp) ->
            paired mp' /\
            mp_tagFamilies mp' !! name = Some [] /\
            mp_tagFamilyMetadata mp' !! name = Some [] /\
            (forall other, other <> name ->
               mp_tagFamilies mp' !! other = mp_tagFamilies mp !! other /\
               mp_tagFamilyMetadata mp' !! other = mp_tagFamilyMetadata mp !! other) /\
            mp_meta mp' = mp_meta mp /\ mp_primary mp' = mp_primary mp /\
            mp_timestamps mp' = mp_timestamps mp).
  { intros mp' ->. cbn [mp_tagFamilies mp_tagFamilyMetadata mp_meta mp_primary mp_timestamps].
    split.
    - intros n. unfold paired in Hp. cbn [mp_tagFamilies mp_tagFamilyMetadata].
      destruct (decide (n = name)) as [->|Hne].
      + rewrite !lookup_insert_eq. split; eauto.
      + rewrite !lookup_insert_ne by congruence. apply Hp.
    - rewrite !lookup_insert_eq. split; [reflexivity|]. split; [reflexivity|].
      split; [|auto]. intros other Hne.
      now rewrite !lookup_insert_ne by congruence. }
  destruct (mp_tagFamilies mp !! name) as [tf|] eqn:Htf.
  - destruct (proj1 (Hp name) ltac:(rewrite Htf; eauto)) as [tfh ->].
    eexists. split; [reflexivity|]. now apply Hres.
  - eexists. split; [reflexivity|]. now apply Hres.
Qed.

Lemma write_family_paired (metadata : bool) (name : string) (data : list Byte.byte)
    (mp : memPart) :
  paired mp -> paired (write_family metadata name data mp).
Proof.
  intros Hp n. unfold write_family.
  destruct metadata; cbn [mp_tagFamilies mp_tagFamilyMetadata];
    rewrite <- ?(Hp n); destruct (decide (n = name)) as [->|Hne];
    rewrite ?lookup_alter_eq, ?lookup_alter_ne by congruence;
    rewrite ?fmap_is_Some; try apply Hp; try reflexivity; symmetry; apply Hp.
Qed.

Lemma memPart_reset_paired (mp : memPart) :
  paired mp -> paired (memPart_reset partMetadata_reset mp).
Proof.
  intros Hp n. unfold memPart_reset. cbn [mp_tagFamilies mp_tagFamilyMetadata].
  rewrite !lookup_fmap, !fmap_is_Some. apply Hp.
Qed.

(** X13. The two family maps of a memory part stay paired. From the zero
    value, no sequence of [mustCreateMemTagFamilyWriters], writes through
    the writers and [reset] panics, and it leaves a part whose maps hold the
    same family names; on such a part [mustCreateMemTagFamilyWriters]
    returns with an empty data buffer and an empty metadata buffer under
    the name, every other buffer untouched, and [reset] empties every
    buffer while keeping every family name. *)
Theorem memPart_families_stay_paired (cs : list memCall) :
  exists mp,
    run_mem partMetadata_reset cs zero_memPart = Returned mp /\
    paired mp /\
    (forall name, exists mp',
       mustCreateMemTagFamilyWriters name mp = Returned mp' /\
       paired mp' /\
       mp_tagFamilies mp' !! name = Some [] /\
       mp_tagFamilyMetadata mp' !! name = Some [] /\
       forall other, other <> name ->
         mp_tagFamilies mp' !! other = mp_tagFamilies mp !! other /\
         mp_tagFamilyMetadata mp' !! other = mp_tagFamilyMetadata mp !! other) /\
    (forall name,
       mp_tagFamilies (memPart_reset partMetadata_reset mp) !! name
         = (fun _ => []) <$> mp_tagFamilies mp !! name /\
       mp_tagFamilyMetadata (memPart_reset partMetadata_reset mp) !! name
         = (fun _ => []) <$> mp_tagFamilyMetadata mp !! name).
Proof.
  assert (Hrun : forall mp0, paired mp0 ->
            exists mp, run_mem partMetadata_reset cs mp0 = Returned mp /\ paired mp).
  { induction cs as [|c cs IH]; intros mp0 Hp; cbn [run_mem].
    - eauto.
    - destruct c as [name|metadata name data|].
      + destruct (mustCreateMemTagFamilyWriters_paired name mp0 Hp)
          as (mp1 & -> & Hp1 & _). now apply IH.
      + apply IH. now apply write_family_paired.
      + apply IH. now apply memPart_reset_paired. }
  destruct (Hrun zero_memPart) as (mp & Hmp & Hp).
  { intros n. cbn. rewrite !lookup_empty. reflexivity. }
  exists mp. split; [exact Hmp|]. split; [exact Hp|]. split.
  - intros name.
    destruct (mustCreateMemTagFamilyWriters_paired name mp Hp)
      as (mp' & H1 & H2 & H3 & H4 & H5 & _).
    exists mp'. auto.
  - intros name. unfold memPart_reset. cbn [mp_tagFamilies mp_tagFamilyMetadata].
    now rewrite !lookup_fmap.
Qed.

End MemPartFamilies.

(** ** What a flush touches and what it hints *)

Ltac name_of_file :=
  unfold Filepath.plain, Filepath.proper, Stream.metadataFilename,
    Stream.metaFilename, Stream.primaryFilename, Stream.timestampsFilename;
  first [ split; [discriminate | reflexivity] | split; discriminate ].

Section FlushEffects.
Import Measure Filepath Stream StreamParts.
Variable marshal : partMetadata -> list Byte.byte.

(** A file above the threshold lies at the path. *)
Local Abbreviation big w p :=
  (exists c, files w !! p = Some (File c) /\ large w c).

Lemma ApplyIfLarge_effect (path : string) (w : world) :
  files (ApplyIfLarge path w) = files w /\
  synced (ApplyIfLarge path w) = synced w /\
  threshold (ApplyIfLarge path w) = threshold w /\
  (forall c, files w !! path = Some (File c) ->
     hints (ApplyIfLarge path w) =
       if decide (threshold w < Z.of_nat (length c))
       then hints w ++ [path] else hints w) /\
  (files w !! path = None -> hints (ApplyIfLarge path w) = hints w) /\
  (files w !! path = Some Dir -> dir_size w (files w) path <= threshold w ->
     hints (ApplyIfLarge path w) = hints w).
Proof.
  unfold ApplyIfLarge, Fadvis.ApplyIfLarge, stat_size, large.
  cbn [Fadvis.stat Fadvis.LargeFileThreshold files synced].
  split; [reflexivity|]. split; [reflexivity|].
  destruct (files w !! path) as [[|c]|] eqn:E; cbv zeta.
  - split; [now destruct (threshold w <? dir_size w (files w) path)|].
    split; [discriminate|]. split; [discriminate|]. intros _ Hpos.
    now rewrite (proj2 (Z.ltb_ge _ _)) by lia.
  - split; [now destruct (threshold w <? Z.of_nat (length c))|].
    split; [|split; discriminate].
    intros c' [= <-].
    destruct (Z.ltb_spec (threshold w) (Z.of_nat (length c)));
      case_decide; try lia; reflexivity.
  - split; [reflexivity|]. split; [discriminate|]. split; auto.
Qed.

Lemma fold_MustFlush_registry (key : string -> string)
    (m : gmap string (list Byte.byte)) (w : world) :
  let r := map_fold (fun name buf w => MustFlush buf (key name) w) w m in
  threshold r = threshold w /\ hints r = hints w.
Proof.
  cbv zeta.
  apply (map_fold_weak_ind
           (fun r (_ : gmap string (list Byte.byte)) =>
              threshold r = threshold w /\ hints r = hints w)).
  - split; reflexivity.
  - intros i x m' r _ [H1 H2]. split; assumption.
Qed.

(** The hints of the loop over the families: the files above the
    threshold among those the keys name. *)
Lemma fold_ApplyIfLarge_hints (key : string -> string)
    (m : gmap string (list Byte.byte)) (w : world) :
  (forall n, is_Some (m !! n) -> exists c, files w !! key n = Some (File c)) ->
  let r := map_fold (fun name (_ : list Byte.byte) w => ApplyIfLarge (key name) w) w m in
  files r = files w /\ synced r = synced w /\ threshold r = threshold w /\
  forall p, p ∈ hints r <->
            p ∈ hints w \/ exists n, is_Some (m !! n) /\ p = key n /\ big w p.
Proof.
  cbv zeta.
  apply (map_fold_weak_ind
           (fun r (m : gmap string (list Byte.byte)) =>
              (forall n, is_Some (m !! n) -> exists c, files w !! key n = Some (File c)) ->
              files r = files w /\ synced r = synced w /\ threshold r = threshold w /\
              forall p, p ∈ hints r <->
                        p ∈ hints w \/ exists n, is_Some (m !! n) /\ p = key n /\ big w p)).
  - intros _. repeat split; auto.
    + intros [H|(n & Hn & _)]; [exact H|]. rewrite lookup_empty in Hn. now destruct Hn.
  - intros i x m' r Hi IH Hfiles.
    destruct IH as (Hf & Hs & Ht & Hh).
    { intros n Hn. apply Hfiles. rewrite lookup_insert_ne; [exact Hn|].
      intros ->. rewrite Hi in Hn. now destruct Hn. }
    destruct (ApplyIfLarge_effect (key i) r) as (A1 & A2 & A3 & A4 & _).
    split; [congruence|]. split; [congruence|]. split; [congruence|].
    destruct (Hfiles i) as [c Hc]; [rewrite lookup_insert_eq; eauto|].
    rewrite (A4 c) by (rewrite Hf; exact Hc).
    intros p. unfold large. rewrite Ht.
    case_decide as Hbig.
    + rewrite elem_of_app, Hh, list_elem_of_singleton. split.
      * intros [[H|(n & Hn & Hp & Hb)] | ->]; [now left| |].
        -- right. exists n. split; [|auto].
           rewrite lookup_insert_ne; [exact Hn|].
           intros ->. rewrite Hi in Hn. now destruct Hn.
        -- right. exists i. split; [rewrite lookup_insert_eq; eauto|].
           split; [reflexivity|]. exists c. split; [exact Hc|exact Hbig].
      * intros [H|(n & Hn & Hp & Hb)]; [left; now left|].
        destruct (decide (n = i)) as [->|Hne]; [now right|].
        left. right. exists n. rewrite lookup_insert_ne in Hn by congruence. auto.
    + rewrite Hh. split.
      * intros [H|(n & Hn & Hp & Hb)]; [now left|].
        right. exists n. split; [|auto].
        rewrite lookup_insert_ne; [exact Hn|].
        intros ->. rewrite Hi in Hn. now destruct Hn.
      * intros [H|(n & Hn & Hp & Hb)]; [now left|].
        destruct (decide (n = i)) as [->|Hne].
        -- exfalso. destruct Hb as (c' & Hc' & Hl). subst p.
           rewrite Hc in Hc'. injection Hc' as <-. apply Hbig. exact Hl.
        -- right. exists n. rewrite lookup_insert_ne in Hn by congruence. auto.
Qed.

Section UnderPartEffects.
(** [d] is the directory of a part, as in the lemmas on what a flush
    writes. *)
Variable d : string.
Hypothesis Hjoin : forall n, plain n -> proper n -> Join d n = d +:+ "/" +:+ n.
Hypothesis Hbase : String.eqb (Base d) elementIndexFilename = false.

Lemma mustFlush_world (mp : memPart) (w w' : world) :
  (forall n, is_Some (mp_tagFamilies mp !! n) -> has_separator n = false) ->
  (forall n, is_Some (mp_tagFamilyMetadata mp !! n) -> has_separator n = false) ->
  mustFlush marshal mp d w = Returned w' ->
  files w !! d = None /\
  files w' !! d = Some Dir /\
  (forall k, k <> d -> (forall x, flushed_name mp x -> k <> d +:+ "/" +:+ x) ->
     files w' !! k = files w !! k) /\
  threshold w' = threshold w /\
  (forall p, p ∈ hints w' <->
     p ∈ hints w \/
     (p = d +:+ "/" +:+ primaryFilename /\ large w (mp_primary mp)) \/
     (p = d +:+ "/" +:+ timestampsFilename /\ large w (mp_timestamps mp)) \/
     exists n c, mp_tagFamilies mp !! n = Some c /\
                 p = d +:+ "/" +:+ n +:+ tagFamiliesFilenameExt /\ large w c).
Proof.
  intros Htf Htfm Hflush.
  assert (Hfresh : files w !! d = None).
  { revert Hflush. unfold mustFlush, MkdirPanicIfExist.
    destruct (files w !! d); [discriminate|reflexivity]. }
  split; [exact Hfresh|].
  destruct (mustFlush_files marshal d Hjoin Hbase mp w Hfresh Htf Htfm)
    as (w0 & Hw0 & _ & _ & Hpr & Hts & HTF & _ & _ & _).
  rewrite Hflush in Hw0. injection Hw0 as <-.
  revert Hflush.
  unfold mustFlush, MkdirPanicIfExist. rewrite Hfresh, Hbase.
  unfold mustWriteMetadata.
  rewrite !Hjoin by name_of_file.
  set (w1 := mkWorld (<[d:=Dir]> (files w)) (synced w) (threshold w) (hints w)
                     (dir_size w)).
  set (w3 := MustFlush (mp_timestamps mp) (d +:+ "/" +:+ timestampsFilename)
               (MustFlush (mp_primary mp) (d +:+ "/" +:+ primaryFilename)
                  (MustFlush (mp_meta mp) (d +:+ "/" +:+ metaFilename) w1))).
  destruct (flush_family_lookup d Hjoin tagFamiliesFilenameExt (mp_tagFamilies mp) w3
              (or_introl eq_refl) Htf) as (_ & T2 & _).
  destruct (fold_MustFlush_registry
              (fun name => Join d (name +:+ tagFamiliesFilenameExt))
              (mp_tagFamilies mp) w3) as [TR1 TR2].
  cbv zeta in TR1, TR2.
  set (w4 := map_fold (fun name buf w =>
                MustFlush buf (Join d (name +:+ tagFamiliesFilenameExt)) w)
               w3 (mp_tagFamilies mp)) in *.
  destruct (flush_family_lookup d Hjoin tagFamiliesMetadataFilenameExt
              (mp_tagFamilyMetadata mp) w4 (or_intror eq_refl) Htfm) as (_ & M2 & _).
  destruct (fold_MustFlush_registry
              (fun name => Join d (name +:+ tagFamiliesMetadataFilenameExt))
              (mp_tagFamilyMetadata mp) w4) as [MR1 MR2].
  cbv zeta in MR1, MR2.
  set (w5 := map_fold (fun name buf w =>
                MustFlush buf (Join d (name +:+ tagFamiliesMetadataFilenameExt)) w)
               w4 (mp_tagFamilyMetadata mp)) in *.
  set (w6 := MustFlush (marshal (mp_partMetadata mp))
               (d +:+ "/" +:+ metadataFilename) w5).
  set (v := SyncPath d w6).
  set (v1 := ApplyIfLarge (d +:+ "/" +:+ primaryFilename) v).
  set (w8 := ApplyIfLarge (d +:+ "/" +:+ timestampsFilename) v1).
  intros [= Hw'].
  (* the registry and the files through the hint phase *)
  destruct (ApplyIfLarge_effect (d +:+ "/" +:+ primaryFilename) v)
    as (P1 & _ & P3 & P4 & _).
  destruct (ApplyIfLarge_effect (d +:+ "/" +:+ timestampsFilename) v1)
    as (Q1 & _ & Q3 & Q4 & _).
  fold v1 in P1, P3, P4. fold w8 in Q1, Q3, Q4.
  assert (Hfv : files w8 = files v) by congruence.
  assert (Htv : threshold v = threshold w).
  { subst v w6. unfold SyncPath, MustFlush. cbn [threshold].
    rewrite MR1, TR1. reflexivity. }
  assert (Hhv : hints v = hints w).
  { subst v w6. unfold SyncPath, MustFlush. cbn [hints].
    rewrite MR2, TR2. reflexivity. }
  assert (Hkeys : forall n, is_Some (mp_tagFamilies mp !! n) ->
            Join d (n +:+ tagFamiliesFilenameExt)
            = d +:+ "/" +:+ n +:+ tagFamiliesFilenameExt).
  { intros n Hn.
    destruct (family_file_name n tagFamiliesFilenameExt (Htf n Hn) (or_introl eq_refl))
      as [Hpl Hpp].
    now apply Hjoin. }
  destruct (fold_ApplyIfLarge_hints
              (fun name => Join d (name +:+ tagFamiliesFilenameExt))
              (mp_tagFamilies mp) w8) as (F1 & _ & F3 & F4).
  { intros n [c Hn]. exists c. rewrite Hkeys by eauto.
    rewrite <- (HTF n c Hn). rewrite <- Hw'.
    destruct (files_fold_ApplyIfLarge
                (fun name => Join d (name +:+ tagFamiliesFilenameExt))
                (mp_tagFamilies mp) w8) as [E _].
    cbv zeta in E. now rewrite E. }
  cbv zeta in F1, F3, F4. rewrite Hw' in F1, F3, F4.
  assert (Hfiles : files w' = files v) by congruence.
  assert (Hfv6 : files v = <[d +:+ "/" +:+ metadataFilename :=
                              File (marshal (mp_partMetadata mp))]> (files w5))
    by reflexivity.
  assert (H5 : forall k,
             (forall n, is_Some (mp_tagFamilyMetadata mp !! n) ->
                        d +:+ "/" +:+ n +:+ tagFamiliesMetadataFilenameExt <> k) ->
             (forall n, is_Some (mp_tagFamilies mp !! n) ->
                        d +:+ "/" +:+ n +:+ tagFamiliesFilenameExt <> k) ->
             files w5 !! k = files w3 !! k).
  { intros k Hk1 Hk2. rewrite M2 by exact Hk1. now apply T2. }
  split; [|split; [|split; [congruence|]]].
  - (* the directory *)
    rewrite Hfiles, Hfv6.
    rewrite lookup_insert_ne by apply under_not_self.
    rewrite H5 by (intros n _; apply under_not_self).
    subst w3 w1. unfold MustFlush. cbn [files].
    rewrite !lookup_insert_ne by apply under_not_self.
    now rewrite lookup_insert_eq.
  - (* the other paths *)
    intros k Hk Hout. rewrite Hfiles, Hfv6.
    rewrite lookup_insert_ne by (apply not_eq_sym, Hout; now left).
    rewrite H5.
    + subst w3 w1. unfold MustFlush. cbn [files].
      rewrite !lookup_insert_ne; [reflexivity|congruence| | |];
        apply not_eq_sym, Hout; unfold flushed_name; tauto.
    + intros n Hn. apply not_eq_sym, Hout. do 5 right. eauto.
    + intros n Hn. apply not_eq_sym, Hout. do 4 right. left. eauto.
  - (* the hints *)
    assert (Hvpr : files v !! (d +:+ "/" +:+ primaryFilename)
                   = Some (File (mp_primary mp))) by (now rewrite <- Hfiles).
    assert (Hvts : files v1 !! (d +:+ "/" +:+ timestampsFilename)
                   = Some (File (mp_timestamps mp))) by (now rewrite P1, <- Hfiles).
    specialize (P4 _ Hvpr). specialize (Q4 _ Hvts).
    intros p. rewrite F4. unfold large.
    assert (Hw8 : p ∈ hints w8 <->
              p ∈ hints w \/
              (p = d +:+ "/" +:+ primaryFilename /\
               threshold w < Z.of_nat (length (mp_primary mp))) \/
              (p = d +:+ "/" +:+ timestampsFilename /\
               threshold w < Z.of_nat (length (mp_timestamps mp)))).
    { rewrite Q4, P3, P4, Htv, Hhv.
      repeat case_decide; rewrite ?elem_of_app, ?list_elem_of_singleton;
        intuition (try lia). }
    rewrite Hw8. split.
    + intros [[H|[H|H]]|(n & [c Hn] & -> & (c' & Hc' & Hl))]; auto.
      right. right. right. exists n, c. split; [exact Hn|].
      rewrite Hkeys in * by eauto. split; [reflexivity|].
      rewrite Hfv, <- Hfiles, (HTF n c Hn) in Hc'. injection Hc' as <-.
      rewrite Q3, P3, Htv in Hl. exact Hl.
    + intros [H|[H|[H|(n & c & Hn & -> & Hl)]]]; auto.
      right. exists n. split; [eauto|]. rewrite Hkeys by eauto.
      split; [reflexivity|]. exists c. split.
      * rewrite Hfv, <- Hfiles. now apply HTF.
      * rewrite Q3, P3, Htv. exact Hl.
Qed.

End UnderPartEffects.

End FlushEffects.


Section FlushTheorems.
Import Measure Filepath Stream StreamParts.
Variable marshal : partMetadata -> list Byte.byte.

(** X14. A flush to the directory of a part never overwrites. When
    [mustFlush] returns, the directory did not exist before and is a
    directory now, so that a second [mustFlush] to it, of any memory part,
    panics in [MkdirPanicIfExist] before it writes; and outside the
    directory and the files [mustFlush] writes under it, every path holds
    what it held before. *)
Theorem mustFlush_never_overwrites
    (root : string) (id : Z) (mp : memPart) (w w' : world) :
  (forall n, is_Some (mp_tagFamilies mp !! n) -> has_separator n = false) ->
  (forall n, is_Some (mp_tagFamilyMetadata mp !! n) -> has_separator n = false) ->
  mustFlush marshal mp (partPath root id) w = Returned w' ->
  files w !! partPath root id = None /\
  files w' !! partPath root id = Some Dir /\
  (forall mp2, mustFlush marshal mp2 (partPath root id) w'
               = Panicked "directory is exist") /\
  (forall k, k <> partPath root id ->
     (forall x, flushed_name mp x -> k <> partPath root id +:+ "/" +:+ x) ->
     files w' !! k = files w !! k).
Proof.
  intros Htf Htfm Hflush.
  destruct (mustFlush_world marshal (partPath root id)
              (fun n => Join_partPath root id n) (Base_partPath_not_idx root id)
              mp w w' Htf Htfm Hflush) as (H1 & H2 & H3 & _).
  split; [exact H1|]. split; [exact H2|]. split; [|exact H3].
  intros mp2. unfold mustFlush, MkdirPanicIfExist. now rewrite H2.
Qed.

(** X15. After a flush to the directory of a part exactly the large data files
    have been hinted: the path of [primary.bin], of [timestamps.bin] and of
    each family's [.tf] file is hinted when the buffer written there is
    longer than the threshold, and nothing else is, neither [meta.bin] nor
    [metadata.json] nor a [.tfm] file, whatever its size. The threshold is
    as before. *)
Theorem mustFlush_hints_large_data_files
    (root : string) (id : Z) (mp : memPart) (w w' : world) :
  (forall n, is_Some (mp_tagFamilies mp !! n) -> has_separator n = false) ->
  (forall n, is_Some (mp_tagFamilyMetadata mp !! n) -> has_separator n = false) ->
  mustFlush marshal mp (partPath root id) w = Returned w' ->
  threshold w' = threshold w /\
  forall p, p ∈ hints w' <->
    p ∈ hints w \/
    (p = partPath root id +:+ "/" +:+ primaryFilename /\ large w (mp_primary mp)) \/
    (p = partPath root id +:+ "/" +:+ timestampsFilename /\
     large w (mp_timestamps mp)) \/
    exists n c, mp_tagFamilies mp !! n = Some c /\
                p = partPath root id +:+ "/" +:+ n +:+ tagFamiliesFilenameExt /\
                large w c.
Proof.
  intros Htf Htfm Hflush.
  destruct (mustFlush_world marshal (partPath root id)
              (fun n => Join_partPath root id n) (Base_partPath_not_idx root id)
              mp w w' Htf Htfm Hflush) as (_ & _ & _ & H4 & H5).
  split; assumption.
Qed.

End FlushTheorems.

Section FlushWitnesses.
Import Measure Filepath Stream StreamParts.

Lemma example_flush :
  exists w', mustFlush example_marshal example_memPart
               (partPath "/data/stream" 10) empty_world = Returned w'.
Proof.
  destruct (mustFlush_files example_marshal (partPath "/data/stream" 10)
              (fun n => Join_partPath "/data/stream" 10 n)
              (Base_partPath_not_idx "/data/stream" 10)
              example_memPart empty_world (lookup_empty _)
              (example_names_plain _ _ eq_refl) (example_names_plain _ _ eq_refl))
    as (w' & Hw' & _).
  exists w'. exact Hw'.
Defined.

Lemma mustFlush_never_overwrites_witness :
  exists w',
    mustFlush example_marshal example_memPart (partPath "/data/stream" 10) empty_world
      = Returned w' /\
    mustFlush example_marshal example_memPart (partPath "/data/stream" 10) w'
      = Panicked "directory is exist".
Proof.
  destruct example_flush as [w' Hw'].
  exists w'. split; [exact Hw'|].
  destruct (mustFlush_never_overwrites example_marshal "/data/stream" 10
              example_memPart empty_world w'
              (example_names_plain _ _ eq_refl) (example_names_plain _ _ eq_refl) Hw')
    as (_ & _ & H & _).
  apply H.
Defined.

Lemma mustFlush_hints_large_data_files_witness :
  exists w',
    mustFlush example_marshal example_memPart (partPath "/data/stream" 10) empty_world
      = Returned w' /\
    threshold w' = 64 * 1024 * 1024.
Proof.
  destruct example_flush as [w' Hw'].
  exists w'. split; [exact Hw'|].
  destruct (mustFlush_hints_large_data_files example_marshal "/data/stream" 10
              example_memPart empty_world w'
              (example_names_plain _ _ eq_refl) (example_names_plain _ _ eq_refl) Hw')
    as (H & _).
  exact H.
Defined.

End FlushWitnesses.

(** ** Opening a part reads what the directory holds *)

Section OpenReadsDisk.
Import Measure Filepath Stream StreamParts.
Variable unmarshal : list Byte.byte -> option partMetadata.
Variable decodePrimaryBlockMetadata : list Byte.byte -> option (list primaryBlockMetadata).

(** The loop over the directory entries when the files with one of the
    two extensions can be opened. *)
Lemma open_entries_ext (d : string) (w : world) (ee : gmap string node) :
  (forall name c, ee !! name = Some (File c) ->
     Ext name = tagFamiliesMetadataFilenameExt \/ Ext name = tagFamiliesFilenameExt ->
     mustOpenReader (Join d name) w = Returned c) ->
  exists tfm tf,
    map_fold (open_entry d w) (Some (∅, ∅)) ee = Some (tfm, tf) /\
    (forall n, tfm !! n = file_content (ee !! (n +:+ tagFamiliesMetadataFilenameExt))) /\
    (forall n, tf !! n = file_content (ee !! (n +:+ tagFamiliesFilenameExt))).
Proof.
  apply (map_fold_weak_ind
           (fun r (ee : gmap string node) =>
              (forall name c, ee !! name = Some (File c) ->
                 Ext name = tagFamiliesMetadataFilenameExt \/
                 Ext name = tagFamiliesFilenameExt ->
                 mustOpenReader (Join d name) w = Returned c) ->
              exists tfm tf,
                r = Some (tfm, tf) /\
                (forall n, tfm !! n =
                   file_content (ee !! (n +:+ tagFamiliesMetadataFilenameExt))) /\
                (forall n, tf !! n =
                   file_content (ee !! (n +:+ tagFamiliesFilenameExt))))).
  - intros _. exists ∅, ∅. split; [reflexivity|].
    split; intros n; now rewrite !lookup_empty.
  - intros i nd m r Hi IH Hopen.
    destruct IH as (tfm & tf & -> & Htfm & Htf).
    { intros name c Hn. apply Hopen. rewrite lookup_insert_ne; [exact Hn|].
      intros ->. congruence. }
    destruct nd as [|c].
    + exists tfm, tf. split; [reflexivity|].
      split; intros n.
      * rewrite Htfm.
        destruct (decide (i = n +:+ tagFamiliesMetadataFilenameExt)) as [->|Hne].
        -- now rewrite lookup_insert_eq, Hi.
        -- now rewrite lookup_insert_ne by exact Hne.
      * rewrite Htf.
        destruct (decide (i = n +:+ tagFamiliesFilenameExt)) as [->|Hne].
        -- now rewrite lookup_insert_eq, Hi.
        -- now rewrite lookup_insert_ne by exact Hne.
    + unfold open_entry.
      destruct (String.eqb_spec (Ext i) tagFamiliesMetadataFilenameExt) as [He|He].
      * replace (String.eqb (Ext i) tagFamiliesFilenameExt) with false
          by (rewrite He; reflexivity).
        rewrite (Hopen i c) by (rewrite ?lookup_insert_eq; auto).
        pose proof (Ext_removeExt i _ He) as Hname.
        eexists _, tf. split; [reflexivity|]. split; intros n.
        -- destruct (decide (n = removeExt i tagFamiliesMetadataFilenameExt)) as [->|Hne].
           ++ rewrite <- Hname. now rewrite !lookup_insert_eq.
           ++ rewrite lookup_insert_ne by congruence. rewrite Htfm.
              rewrite lookup_insert_ne; [reflexivity|].
              rewrite Hname. intros Heq. apply app_inj_tail in Heq. congruence.
        -- rewrite Htf. rewrite lookup_insert_ne; [reflexivity|].
           intros ->. rewrite Ext_tf in He. discriminate.
      * destruct (String.eqb_spec (Ext i) tagFamiliesFilenameExt) as [He2|He2].
        -- rewrite (Hopen i c) by (rewrite ?lookup_insert_eq; auto).
           pose proof (Ext_removeExt i _ He2) as Hname.
           eexists tfm, _. split; [reflexivity|]. split; intros n.
           ++ rewrite Htfm. rewrite lookup_insert_ne; [reflexivity|].
              intros ->. rewrite Ext_tfm in He. now apply He.
           ++ destruct (decide (n = removeExt i tagFamiliesFilenameExt)) as [->|Hne].
              ** rewrite <- Hname. now rewrite !lookup_insert_eq.
              ** rewrite lookup_insert_ne by congruence. rewrite Htf.
                 rewrite lookup_insert_ne; [reflexivity|].
                 rewrite Hname. intros Heq. apply app_inj_tail in Heq. congruence.
        -- exists tfm, tf. split; [reflexivity|]. split; intros n.
           ++ rewrite Htfm. rewrite lookup_insert_ne; [reflexivity|].
              intros ->. rewrite Ext_tfm in He. now apply He.
           ++ rewrite Htf. rewrite lookup_insert_ne; [reflexivity|].
              intros ->. rewrite Ext_tf in He2. now apply He2.
Qed.

Lemma ext_name_proper (name ext : string) :
  Ext name = ext -> (2 <= String.length ext)%nat -> proper name.
Proof.
  intros He Hlen. pose proof (Ext_removeExt name ext He) as Hn.
  assert (Hl : (2 <= String.length name)%nat).
  { rewrite Hn, string_app_length. lia. }
  split; intros ->.
  - cbn in Hl. lia.
  - vm_compute in He. subst ext. cbn in Hlen. lia.
Qed.

(** The entries of the directory of a part, read by the loop of
    [mustOpenFilePart]. *)
Lemma open_entries_part (d : string) (w : world) :
  (forall n, plain n -> proper n -> Join d n = d +:+ "/" +:+ n) ->
  exists tfm tf,
    map_fold (open_entry d w) (Some (∅, ∅)) (ReadDir d w) = Some (tfm, tf) /\
    (forall n, tfm !! n =
       if has_separator n then None
       else file_content (files w !! (d +:+ "/" +:+ n +:+ tagFamiliesMetadataFilenameExt))) /\
    (forall n, tf !! n =
       if has_separator n then None
       else file_content (files w !! (d +:+ "/" +:+ n +:+ tagFamiliesFilenameExt))).
Proof.
  intros Hjoin.
  destruct (open_entries_ext d w (ReadDir d w)) as (tfm & tf & Hfold & Htfm & Htf).
  { intros name c Hn Hext.
    pose proof (ReadDir_plain _ _ _ _ Hn) as Hpl.
    assert (Hpp : proper name).
    { destruct Hext as [He|He]; apply (ext_name_proper _ _ He); cbn; lia. }
    rewrite ReadDir_lookup in Hn by exact Hpl.
    unfold mustOpenReader. now rewrite Hjoin, Hn. }
  exists tfm, tf. split; [exact Hfold|].
  assert (Hgen : forall n ext, ext = ".tf" \/ ext = ".tfm" ->
            file_content (ReadDir d w !! (n +:+ ext)) =
              if has_separator n then None
              else file_content (files w !! (d +:+ "/" +:+ n +:+ ext))).
  { intros n ext Hext. destruct (has_separator n) eqn:Hs.
    - destruct (ReadDir d w !! (n +:+ ext)) as [nd|] eqn:E; [|reflexivity].
      apply ReadDir_plain in E as [_ E]. rewrite has_separator_app, Hs in E.
      discriminate.
    - destruct (family_file_name n ext Hs Hext) as [Hpl _].
      now rewrite ReadDir_lookup by exact Hpl. }
  split; intros n; [rewrite Htfm | rewrite Htf]; apply Hgen; auto.
Qed.

Lemma mustOpenFilePart_inversion
    (id : Z) (root : string) (w : world) (p : part) :
  mustOpenFilePart unmarshal decodePrimaryBlockMetadata id root w = Returned p ->
  let d := partPath root id in
  (exists md pm, files w !! (d +:+ "/" +:+ metadataFilename) = Some (File md) /\
                 unmarshal md = Some pm /\ p_partMetadata p = set_ID id pm) /\
  (exists m, files w !! (d +:+ "/" +:+ metaFilename) = Some (File m) /\
             decodePrimaryBlockMetadata m = Some (p_primaryBlockMetadata p)) /\
  files w !! (d +:+ "/" +:+ primaryFilename) = Some (File (p_primary p)) /\
  files w !! (d +:+ "/" +:+ timestampsFilename) = Some (File (p_timestamps p)) /\
  (forall n, p_tagFamilies p !! n =
     if has_separator n then None
     else file_content (files w !! (d +:+ "/" +:+ n +:+ tagFamiliesFilenameExt))) /\
  (forall n, p_tagFamilyMetadata p !! n =
     if has_separator n then None
     else file_content (files w !! (d +:+ "/" +:+ n +:+ tagFamiliesMetadataFilenameExt))) /\
  ID (p_partMetadata p) = id /\ p_path p = d /\ p_fileSystem p = true.
Proof.
  intros Hopen. cbv zeta. revert Hopen.
  destruct (open_entries_part (partPath root id) w (fun n => Join_partPath root id n))
    as (tfm & tf & Hfold & Htfm & Htf).
  unfold mustOpenFilePart, mustReadMetadata.
  rewrite !Join_partPath by name_of_file.
  unfold mustOpenReader.
  destruct (files w !! (partPath root id +:+ "/" +:+ metadataFilename))
    as [[|md]|]; try discriminate.
  destruct (unmarshal md) as [pm|] eqn:Hum; [|discriminate].
  destruct (files w !! (partPath root id +:+ "/" +:+ metaFilename))
    as [[|m]|]; try discriminate.
  destruct (decodePrimaryBlockMetadata m) as [pbm|] eqn:Hdec; [|discriminate].
  destruct (files w !! (partPath root id +:+ "/" +:+ primaryFilename))
    as [[|pr]|]; try discriminate;
  destruct (files w !! (partPath root id +:+ "/" +:+ timestampsFilename))
    as [[|ts]|]; try discriminate.
  rewrite Hfold. intros [= <-].
  cbn [p_partMetadata p_primaryBlockMetadata p_primary p_timestamps
       p_tagFamilies p_tagFamilyMetadata p_path p_fileSystem].
  split; [exists md, pm; auto|]. split; [exists m; auto|]. repeat split; auto.
Qed.

(** X16. What [mustOpenFilePart] returns is what the directory of the part
    holds: the metadata record decoded from [metadata.json] with the ID
    set to the one asked for, the block descriptors decoded from
    [meta.bin], the bytes of [primary.bin] and [timestamps.bin], and as
    families exactly the files directly in the directory whose extension
    is [.tf] (and [.tfm] for the family metadata), under their names
    without the extension. *)
Theorem mustOpenFilePart_reads_disk
    (id : Z) (root : string) (w : world) (p : part) :
  mustOpenFilePart unmarshal decodePrimaryBlockMetadata id root w = Returned p ->
  let d := partPath root id in
  (exists md pm, files w !! (d +:+ "/" +:+ metadataFilename) = Some (File md) /\
                 unmarshal md = Some pm /\ p_partMetadata p = set_ID id pm) /\
  (exists m, files w !! (d +:+ "/" +:+ metaFilename) = Some (File m) /\
             decodePrimaryBlockMetadata m = Some (p_primaryBlockMetadata p)) /\
  files w !! (d +:+ "/" +:+ primaryFilename) = Some (File (p_primary p)) /\
  files w !! (d +:+ "/" +:+ timestampsFilename) = Some (File (p_timestamps p)) /\
  (forall n, p_tagFamilies p !! n =
     if has_separator n then None
     else file_content (files w !! (d +:+ "/" +:+ n +:+ tagFamiliesFilenameExt))) /\
  (forall n, p_tagFamilyMetadata p !! n =
     if has_separator n then None
     else file_content (files w !! (d +:+ "/" +:+ n +:+ tagFamiliesMetadataFilenameExt))) /\
  ID (p_partMetadata p) = id /\ p_path p = d /\ p_fileSystem p = true.
Proof. apply mustOpenFilePart_inversion. Qed.

Lemma mustOpenFilePart_returns (id : Z) (root : string) (w : world)
    (md m pr ts : list Byte.byte) :
  let d := partPath root id in
  files w !! (d +:+ "/" +:+ metadataFilename) = Some (File md) ->
  is_Some (unmarshal md) ->
  files w !! (d +:+ "/" +:+ metaFilename) = Some (File m) ->
  is_Some (decodePrimaryBlockMetadata m) ->
  files w !! (d +:+ "/" +:+ primaryFilename) = Some (File pr) ->
  files w !! (d +:+ "/" +:+ timestampsFilename) = Some (File ts) ->
  exists p, mustOpenFilePart unmarshal decodePrimaryBlockMetadata id root w
            = Returned p.
Proof.
  cbv zeta. intros H1 [pm H2] H3 [pbm H4] H5 H6.
  destruct (open_entries_part (partPath root id) w (fun n => Join_partPath root id n))
    as (tfm & tf & Hfold & _).
  unfold mustOpenFilePart, mustReadMetadata.
  rewrite !Join_partPath by name_of_file.
  unfold mustOpenReader. rewrite H1, H2, H3, H4, H5, H6, Hfold. eauto.
Qed.

(** X17. [mustOpenFilePart] returns exactly when [metadata.json], [meta.bin],
    [primary.bin] and [timestamps.bin] are files of the directory of the
    part and the first two can be decoded; in every other case it
    panics. *)
Theorem mustOpenFilePart_returns_iff (id : Z) (root : string) (w : world) :
  let d := partPath root id in
  (exists p, mustOpenFilePart unmarshal decodePrimaryBlockMetadata id root w
             = Returned p) <->
  (exists md m pr ts,
     files w !! (d +:+ "/" +:+ metadataFilename) = Some (File md) /\
     is_Some (unmarshal md) /\
     files w !! (d +:+ "/" +:+ metaFilename) = Some (File m) /\
     is_Some (decodePrimaryBlockMetadata m) /\
     files w !! (d +:+ "/" +:+ primaryFilename) = Some (File pr) /\
     files w !! (d +:+ "/" +:+ timestampsFilename) = Some (File ts)).
Proof.
  cbv zeta. split.
  - intros [p Hp].
    destruct (mustOpenFilePart_inversion id root w p Hp)
      as ((md & pm & H1 & H2 & _) & (m & H3 & H4) & H5 & H6 & _).
    exists md, m, (p_primary p), (p_timestamps p). rewrite H2, H4. eauto 10.
  - intros (md & m & pr & ts & H1 & H2 & H3 & H4 & H5 & H6).
    now apply (mustOpenFilePart_returns id root w md m pr ts).
Qed.

End OpenReadsDisk.


Section MemoryAndFileParts.
Import Measure Filepath Stream StreamParts.
Variable marshal : partMetadata -> list Byte.byte.
Variable unmarshal : list Byte.byte -> option partMetadata.
Variable decodePrimaryBlockMetadata : list Byte.byte -> option (list primaryBlockMetadata).




End MemoryAndFileParts.


Section OpenWitnesses.
Import Measure Filepath Stream StreamParts.

Lemma example_flush_open :
  exists w' p,
    mustFlush example_marshal example_memPart (partPath "/data/stream" 10) empty_world
      = Returned w' /\
    mustOpenFilePart example_unmarshal example_decode 10 "/data/stream" w' = Returned p.
Proof.
  destruct (mustFlush_files example_marshal (partPath "/data/stream" 10)
              (fun n => Join_partPath "/data/stream" 10 n)
              (Base_partPath_not_idx "/data/stream" 10)
              example_memPart empty_world (lookup_empty _)
              (example_names_plain _ _ eq_refl) (example_names_plain _ _ eq_refl))
    as (w' & Hw' & Hmd & Hmeta & Hpr & Hts & _).
  destruct (mustOpenFilePart_returns example_unmarshal example_decode
              10 "/data/stream" w' _ _ _ _ Hmd
              ltac:(destruct (example_codec (mp_partMetadata example_memPart)) as [i ->]; eauto)
              Hmeta ltac:(unfold example_decode; eauto) Hpr Hts)
    as [p Hp].
  exists w', p. split; [exact Hw'|exact Hp].
Defined.


Lemma mustOpenFilePart_reads_disk_witness :
  exists w' p,
    mustOpenFilePart example_unmarshal example_decode 10 "/data/stream" w' = Returned p /\
    files w' !! (partPath "/data/stream" 10 +:+ "/" +:+ primaryFilename)
      = Some (File (p_primary p)).
Proof.
  destruct example_flush_open as (w' & p & _ & Hp).
  exists w', p. split; [exact Hp|].
  destruct (mustOpenFilePart_reads_disk example_unmarshal example_decode
              10 "/data/stream" w' p Hp) as (_ & _ & H & _).
  exact H.
Defined.


End OpenWitnesses.

(** ** Flushing a file part *)

Section PartFlush.
Import Measure Filepath Stream StreamParts.

(** A node above the threshold lies at the path: a file, or a directory
    with the size the file system gives it. *)
Local Abbreviation above w q :=
  (exists size, stat_size w q = Some size /\ threshold w < size).

Lemma stat_size_ext (w w' : world) (q : string) :
  files w' = files w -> dir_size w' = dir_size w ->
  stat_size w' q = stat_size w q.
Proof. unfold stat_size. intros -> ->. reflexivity. Qed.

Lemma guarded_ApplyIfLarge (q : string) (w : world) :
  (if stat_ok q w then ApplyIfLarge q w else w) = ApplyIfLarge q w.
Proof.
  unfold stat_ok, ApplyIfLarge, Fadvis.ApplyIfLarge. cbn [Fadvis.stat].
  destruct (stat_size w q); [reflexivity|]. now destruct w.
Qed.

Lemma guarded_set_ApplyIfLarge (g : bool) (q : string) (w : world) :
  (if (stat_ok q w && g)%bool then ApplyIfLarge q w else w)
  = if g then ApplyIfLarge q w else w.
Proof.
  destruct g; [rewrite andb_true_r; apply guarded_ApplyIfLarge|].
  now rewrite andb_false_r.
Qed.

Lemma ApplyIfLarge_hints_stat (q : string) (w : world) :
  files (ApplyIfLarge q w) = files w /\
  synced (ApplyIfLarge q w) = synced w /\
  threshold (ApplyIfLarge q w) = threshold w /\
  dir_size (ApplyIfLarge q w) = dir_size w /\
  forall x, x ∈ hints (ApplyIfLarge q w) <-> x ∈ hints w \/ (x = q /\ above w q).
Proof.
  unfold ApplyIfLarge, Fadvis.ApplyIfLarge.
  cbn [Fadvis.stat Fadvis.LargeFileThreshold files synced dir_size].
  split; [reflexivity|]. split; [reflexivity|].
  destruct (stat_size w q) as [size|]; cbv zeta.
  - destruct (Z.ltb_spec (threshold w) size) as [Hlt|Hge];
      cbn [Fadvis.LargeFileThreshold Fadvis.hinted Fadvis.Apply threshold hints].
    + split; [reflexivity|]. split; [reflexivity|]. intros x.
      rewrite elem_of_app, list_elem_of_singleton. split.
      * intros [H| ->]; [now left|]. right. split; [reflexivity|]. eauto.
      * intros [H|[-> _]]; auto.
    + split; [reflexivity|]. split; [reflexivity|]. intros x. split; [now left|].
      intros [H|[_ (s & [= <-] & Hlt)]]; [exact H|lia].
  - split; [reflexivity|]. split; [reflexivity|]. intros x. split; [now left|].
    intros [H|[_ (s & [=] & _)]]. exact H.
Qed.

(** The same for a call behind the test of a reader. *)
Lemma set_ApplyIfLarge_hints_stat (g : bool) (q : string) (w : world) :
  let r := if g then ApplyIfLarge q w else w in
  files r = files w /\ synced r = synced w /\ threshold r = threshold w /\
  dir_size r = dir_size w /\
  forall x, x ∈ hints r <-> x ∈ hints w \/ ((x = q /\ g = true) /\ above w q).
Proof.
  cbv zeta. destruct g.
  - destruct (ApplyIfLarge_hints_stat q w) as (A1 & A2 & A3 & A4 & A5).
    repeat (split; [assumption|]). intros x. rewrite A5. split.
    + intros [H|[-> Ha]]; auto.
    + intros [H|[[-> _] Ha]]; auto.
  - repeat (split; [reflexivity|]). intros x. split; [now left|].
    intros [H|[[_ [=]] _]]. exact H.
Qed.

Lemma fold_guarded_hints (key : string -> string)
    (m : gmap string (list Byte.byte)) (w : world) :
  let r := map_fold (fun name (_ : list Byte.byte) w =>
                       if stat_ok (key name) w then ApplyIfLarge (key name) w else w)
                    w m in
  files r = files w /\ synced r = synced w /\ threshold r = threshold w /\
  dir_size r = dir_size w /\
  forall x, x ∈ hints r <->
            x ∈ hints w \/ ((exists n, is_Some (m !! n) /\ x = key n) /\ above w x).
Proof.
  cbv zeta.
  apply (map_fold_weak_ind
           (fun r (m : gmap string (list Byte.byte)) =>
              files r = files w /\ synced r = synced w /\ threshold r = threshold w /\
              dir_size r = dir_size w /\
              forall x, x ∈ hints r <->
                x ∈ hints w \/ ((exists n, is_Some (m !! n) /\ x = key n) /\ above w x))).
  - repeat split; auto.
    intros [H|[(n & Hn & _) _]]; [exact H|].
    rewrite lookup_empty in Hn. now destruct Hn.
  - intros i c m' r Hi (Hf & Hs & Ht & Hd & Hh).
    rewrite guarded_ApplyIfLarge.
    destruct (ApplyIfLarge_hints_stat (key i) r) as (A1 & A2 & A3 & A4 & A5).
    split; [congruence|]. split; [congruence|]. split; [congruence|].
    split; [congruence|].
    intros x. rewrite A5, Hh, Ht, (stat_size_ext w r (key i) Hf Hd). split.
    + intros [[H|[(n & Hn & ->) Ha]]|[-> Ha]]; [now left| |].
      * right. split; [|exact Ha]. exists n. split; [|reflexivity].
        rewrite lookup_insert_ne; [exact Hn|].
        intros ->. rewrite Hi in Hn. now destruct Hn.
      * right. split; [|exact Ha]. exists i. split; [|reflexivity].
        rewrite lookup_insert_eq. eauto.
    + intros [H|[(n & Hn & ->) Ha]]; [left; now left|].
      destruct (decide (n = i)) as [->|Hne]; [right; auto|].
      left. right. split; [|exact Ha]. exists n. split; [|reflexivity].
      now rewrite lookup_insert_ne in Hn by congruence.
Qed.

(** X19. [p.mustFlush()] of a file part writes no file. With a file system it
    returns; the directory of the part is created when it is missing and
    no other path changes; the directory is synced once; the threshold is
    as before; and the paths hinted are exactly those at which a node
    larger than the threshold lies (a file by its length, a directory by
    the size the file system gives it) among [primary.bin] when
    [p.primary] is set, [timestamps.bin] when [p.timestamps] is set, and
    the [.tf] file of each family of the part. Without a file system the
    call panics. *)
Theorem part_mustFlush_writes_nothing
    (primary_set timestamps_set : bool) (p : part) (w : world) :
  (p_fileSystem p = false ->
   part_mustFlush primary_set timestamps_set p w = Panicked "nil pointer dereference") /\
  (p_fileSystem p = true ->
   exists w',
     part_mustFlush primary_set timestamps_set p w = Returned w' /\
     files w' = files (MkdirIfNotExist (p_path p) w) /\
     (forall k nd, files w !! k = Some nd -> files w' !! k = Some nd) /\
     (forall k, k <> p_path p -> files w' !! k = files w !! k) /\
     synced w' = synced w ++ [p_path p] /\
     threshold w' = threshold w /\
     forall x, x ∈ hints w' <->
       x ∈ hints w \/
       (((x = Join (p_path p) primaryFilename /\ primary_set = true) \/
         (x = Join (p_path p) timestampsFilename /\ timestamps_set = true) \/
         exists n, is_Some (p_tagFamilies p !! n) /\
                   x = Join (p_path p) (n +:+ tagFamiliesFilenameExt)) /\
        exists size, stat_size w' x = Some size /\ threshold w < size)).
Proof.
  unfold part_mustFlush. split; [now intros ->|]. intros ->. cbn [negb]. cbv zeta.
  rewrite !guarded_set_ApplyIfLarge.
  set (w1 := MkdirIfNotExist (p_path p) w).
  set (v := SyncPath (p_path p) w1).
  set (v1 := if primary_set
             then ApplyIfLarge (Join (p_path p) primaryFilename) v else v).
  set (v2 := if timestamps_set
             then ApplyIfLarge (Join (p_path p) timestampsFilename) v1 else v1).
  destruct (set_ApplyIfLarge_hints_stat primary_set
              (Join (p_path p) primaryFilename) v) as (P1 & P2 & P3 & P4 & P5).
  destruct (set_ApplyIfLarge_hints_stat timestamps_set
              (Join (p_path p) timestampsFilename) v1) as (Q1 & Q2 & Q3 & Q4 & Q5).
  cbv zeta in P1, P2, P3, P4, P5, Q1, Q2, Q3, Q4, Q5.
  fold v1 in P1, P2, P3, P4, P5. fold v2 in Q1, Q2, Q3, Q4, Q5.
  destruct (fold_guarded_hints
              (fun name => Join (p_path p) (name +:+ tagFamiliesFilenameExt))
              (p_tagFamilies p) v2) as (F1 & F2 & F3 & F4 & F5).
  cbv zeta in F1, F2, F3, F4, F5.
  eexists. split; [reflexivity|].
  set (w' := map_fold _ v2 (p_tagFamilies p)) in *.
  assert (Hw1 : threshold w1 = threshold w /\ hints w1 = hints w /\
                synced w1 = synced w).
  { subst w1. unfold MkdirIfNotExist. destruct (files w !! p_path p); auto. }
  destruct Hw1 as (Ht1 & Hh1 & Hs1).
  assert (Hfiles : files v2 = files w1) by (rewrite Q1, P1; reflexivity).
  split; [rewrite F1; exact Hfiles|].
  split.
  { intros k nd Hk. rewrite F1, Hfiles. subst w1. unfold MkdirIfNotExist.
    destruct (files w !! p_path p) eqn:E; [exact Hk|]. cbn [files].
    rewrite lookup_insert_ne; [exact Hk|]. intros <-. congruence. }
  split.
  { intros k Hk. rewrite F1, Hfiles. subst w1. unfold MkdirIfNotExist.
    destruct (files w !! p_path p); [reflexivity|]. cbn [files].
    now rewrite lookup_insert_ne by congruence. }
  split; [rewrite F2, Q2, P2; subst v; cbn [SyncPath synced]; now rewrite Hs1|].
  split; [rewrite F3, Q3, P3; exact Ht1|].
  assert (Sv2 : forall x, stat_size v2 x = stat_size w' x)
    by (intros x; symmetry; now apply stat_size_ext).
  assert (Sv1 : forall x, stat_size v1 x = stat_size w' x)
    by (intros x; rewrite <- Sv2; symmetry; now apply stat_size_ext).
  assert (Sv : forall x, stat_size v x = stat_size w' x)
    by (intros x; rewrite <- Sv1; symmetry; now apply stat_size_ext).
  intros x. rewrite F5, Q5, P5.
  rewrite Q3, P3, Sv2, Sv1, Sv.
  change (threshold v) with (threshold w1). change (hints v) with (hints w1).
  rewrite Ht1, Hh1.
  split.
  - intros [[[H|[[-> Hg] Ha]]|[[-> Hg] Ha]]|[Hn Ha]]; auto 10.
  - intros [H|[[[-> Hg]|[[-> Hg]|Hn]] Ha]]; auto 10.
Qed.

(** A directory lying where the primary file is expected is hinted when
    the file system gives it a size above the threshold. *)
Example part_mustFlush_hints_directory :
  let w := mkWorld {[ "/data/p" := Dir; "/data/p/primary.bin" := Dir ]} [] 1024 []
                   (fun _ _ => 4096) in
  let p := mkPart [] [] true ∅ ∅ "/data/p" [] (mkPartMetadata 1 0 0 0 0) in
  hints <$> (match part_mustFlush true true p w with
             | Returned w' => Some w'
             | Panicked _ => None
             end) = Some ["/data/p/primary.bin"].
Proof. vm_compute. reflexivity. Qed.

End PartFlush.

(** ** The intersection keeps the order of its argument *)

Section HashIntersectOrder.
Import Common.

(** X20. [HashIntersect] returns the items of [other] that occur in [c], in
    the order of [other]: a sublist of [other], not longer than it. It
    follows that intersecting is associative as an operation on lists,
    that a list intersected with itself is that list, and that
    intersecting twice with the same list changes nothing more. *)
Theorem HashIntersect_keeps_order (a b c : list Z) :
  HashIntersect a b = filter (fun item => item ∈ a) b /\
  sublist (HashIntersect a b) b /\
  (length (HashIntersect a b) <= length b)%nat /\
  HashIntersect a (HashIntersect b c) = HashIntersect (HashIntersect a b) c /\
  HashIntersect a a = a /\
  HashIntersect a (HashIntersect a b) = HashIntersect a b.
Proof.
  split; [apply HashIntersect_filter|].
  split; [rewrite HashIntersect_filter; apply sublist_filter|].
  split; [rewrite HashIntersect_filter; apply length_filter|].
  split; [|split].
  - rewrite !HashIntersect_filter.
    induction c as [|x c IH]; [reflexivity|].
    rewrite !(filter_cons _ x c).
    destruct (decide (x ∈ b)) as [Hb|Hb].
    + rewrite (filter_cons _ x). rewrite IH.
      destruct (decide (x ∈ a)) as [Ha|Ha].
      * rewrite decide_True; [reflexivity|]. apply list_elem_of_filter. auto.
      * rewrite decide_False; [reflexivity|].
        intros Hin. apply list_elem_of_filter in Hin. tauto.
    + rewrite IH. rewrite decide_False; [reflexivity|].
      intros Hin. apply list_elem_of_filter in Hin. tauto.
  - rewrite HashIntersect_filter.
    assert (H : forall l : list Z,
              (forall x, x ∈ l -> x ∈ a) -> filter (fun item => item ∈ a) l = l).
    { induction l as [|x l IH]; intros Hl; [reflexivity|].
      rewrite filter_cons, decide_True by (apply Hl; left).
      f_equal. apply IH. intros y Hy. apply Hl. now right. }
    now apply H.
  - rewrite !HashIntersect_filter.
    assert (H : forall l : list Z,
              filter (fun item => item ∈ a) (filter (fun item => item ∈ a) l)
              = filter (fun item => item ∈ a) l).
    { induction l as [|x l IH]; [reflexivity|].
      rewrite (filter_cons _ x l). case_decide as Hx; [|exact IH].
      rewrite filter_cons, decide_True by exact Hx. now rewrite IH. }
    apply H.
Qed.

End HashIntersectOrder.

(** ** Deleting from a collection of meters *)

Section CollectionDelete.
Import Observability.
Context {M : Type}.
Variable delete : list string -> M -> bool * M.
Variable labelValues : list string.

Lemma delete_loop_from (ms : list M) :
  forall (success : bool) (seen : list M),
  foldl (fun (acc : bool * list M) (m : M) =>
           let '(success, seen) := acc in
           if success
           then let '(ok, m') := delete labelValues m in (ok, seen ++ [m'])
           else (false, seen ++ [m]))
        (success, seen) ms
  = if success
    then (let '(ok, out) := delete_loop delete labelValues ms in (ok, seen ++ out))
    else (false, seen ++ ms).
Proof.
  unfold delete_loop.
  induction ms as [|m ms IH]; intros success seen; cbn [foldl].
  - destruct success; now rewrite app_nil_r.
  - destruct success.
    + destruct (delete labelValues m) as [ok m'] eqn:Hd.
      rewrite (IH ok (seen ++ [m'])), (IH ok ([] ++ [m'])).
      destruct ok.
      * destruct (foldl _ (true, []) ms) as [ok out].
        now rewrite <- !app_assoc.
      * now rewrite <- !app_assoc.
    + rewrite (IH false (seen ++ [m])). now rewrite <- app_assoc.
Qed.

Lemma delete_loop_cons (m : M) (ms : list M) :
  delete_loop delete labelValues (m :: ms) =
    if (delete labelValues m).1
    then (let '(ok, out) := delete_loop delete labelValues ms in
          (ok, (delete labelValues m).2 :: out))
    else (false, (delete labelValues m).2 :: ms).
Proof.
  unfold delete_loop at 1. cbn [foldl].
  destruct (delete labelValues m) as [ok m']. cbn [fst snd].
  rewrite delete_loop_from. destruct ok; [|reflexivity].
  now destruct (delete_loop delete labelValues ms).
Qed.

(** X21. [Delete] of a collection stops deleting at the first meter whose
    [Delete] fails: when that of every meter succeeds, all are deleted from
    and the result is true (so it is for the empty collection); when the
    first failure is at some meter, the result is false, the meters before
    it have been deleted from, and those after it have not been asked. *)
Theorem collection_Delete_stops_at_first_failure (pre post : list M) (m : M) :
  delete_loop delete labelValues [] = (true, []) /\
  (Forall (fun x => (delete labelValues x).1 = true) pre ->
     delete_loop delete labelValues pre
     = (true, (fun x => (delete labelValues x).2) <$> pre)) /\
  (Forall (fun x => (delete labelValues x).1 = true) pre ->
   (delete labelValues m).1 = false ->
     delete_loop delete labelValues (pre ++ m :: post)
     = (false, ((fun x => (delete labelValues x).2) <$> pre)
               ++ (delete labelValues m).2 :: post)).
Proof.
  split; [reflexivity|]. split.
  - induction 1 as [|x pre Hx _ IH]; [reflexivity|].
    rewrite delete_loop_cons, Hx, IH. reflexivity.
  - intros Hpre Hm. induction Hpre as [|x pre Hx _ IH].
    + cbn [app fmap list_fmap]. now rewrite delete_loop_cons, Hm.
    + cbn [app]. rewrite delete_loop_cons, Hx, IH. reflexivity.
Qed.

End CollectionDelete.

Section CollectionExamples.
Import Observability.

(** A collection of two counters of which the first does not hold the
    labels: the second is not deleted from. *)
Example counterCollection_Delete_example :
  let first : example_counter := [(["b"], 1%nat)] in
  let second : example_counter := [(["a"], 2%nat)] in
  counterCollection_Delete unit ["a"] [first; second] = (false, [first; second]) /\
  counterCollection_Delete unit ["a"] [second; first] = (false, [[]; first]) /\
  counterCollection_Delete unit ["a"] [second; second] = (true, [[]; []]).
Proof. cbv zeta. repeat split; reflexivity. Qed.

End CollectionExamples.

(** ** The filter of the URL analyzer *)

Section AnalyzerFilter.
Import Analyzer.
Variable rune : Type.
Variable IsLetter IsNumber : rune -> bool.
Variable Runes : list Byte.byte -> list rune.
Variable BuildTermFromRunes : list rune -> list Byte.byte.

Local Abbreviation keep := (fun r => (IsLetter r || IsNumber r)%bool).

Lemma termRunes_filter (term : list Byte.byte) :
  termRunes rune IsLetter IsNumber Runes term
  = filter (fun r => keep r = true) (Runes term).
Proof.
  unfold termRunes.
  assert (H : forall rs acc,
            foldl (fun (acc : list rune) (r : rune) =>
                     if (IsLetter r || IsNumber r)%bool then acc ++ [r] else acc)
                  acc rs
            = acc ++ filter (fun r => keep r = true) rs).
  { induction rs as [|r rs IH]; intros acc; cbn [foldl].
    - now rewrite app_nil_r.
    - rewrite IH, filter_cons.
      destruct (IsLetter r || IsNumber r)%bool eqn:E.
      + rewrite decide_True by reflexivity. now rewrite <- app_assoc.
      + rewrite decide_False by discriminate. reflexivity. }
  now rewrite H.
Qed.

(** X22. The filter keeps of every term the letters and numbers, in order; it
    keeps every token (one whose term becomes empty included) and the
    other fields of each; and, when a term built from letters and numbers
    decodes to the runes it was built from, filtering twice is filtering
    once. *)
Theorem Filter_idempotent {T : Type} (input : list (Token T)) :
  (forall rs, Forall (fun r => keep r = true) rs -> Runes (BuildTermFromRunes rs) = rs) ->
  let F := @Filter rune IsLetter IsNumber Runes BuildTermFromRunes T in
  F (F input) = F input /\
  length (F input) = length input /\
  other <$> F input = other <$> input /\
  Term <$> F input
    = (fun t => BuildTermFromRunes (filter (fun r => keep r = true) (Runes (Term t))))
      <$> input.
Proof.
  intros Hcodec. cbv zeta. unfold Filter.
  split; [|split; [|split]].
  - rewrite map_map. apply map_ext. intros t. cbn [Term other].
    f_equal. f_equal. rewrite !termRunes_filter.
    rewrite Hcodec.
    + assert (H : forall l : list rune,
                filter (fun r => keep r = true) (filter (fun r => keep r = true) l)
                = filter (fun r => keep r = true) l).
      { induction l as [|x l IH]; [reflexivity|].
        rewrite (filter_cons _ x l). case_decide as Hx; [|exact IH].
        rewrite filter_cons, decide_True by exact Hx. now rewrite IH. }
      apply H.
    + apply Forall_forall. intros r Hr. now apply list_elem_of_filter in Hr as [Hr _].
  - apply length_map.
  - change (@fmap list _ _ _ other) with (@map (Token T) T other).
    rewrite map_map. reflexivity.
  - change (@fmap list _ _ _ (@Term T)) with (@map (Token T) _ (@Term T)).
    rewrite map_map. apply map_ext. intros t. cbn [Term].
    now rewrite termRunes_filter.
Qed.

End AnalyzerFilter.

Section AnalyzerWitness.
Import Analyzer.

Lemma Filter_idempotent_witness :
  let F := @Filter Byte.byte ascii_IsLetter ascii_IsNumber (fun b => b) (fun rs => rs) nat in
  let input := [mkToken [Byte.x61; Byte.x2d; Byte.x31] 0%nat; mkToken [Byte.x2f] 1%nat] in
  F input = [mkToken [Byte.x61; Byte.x31] 0%nat; mkToken [] 1%nat] /\
  F (F input) = F input.
Proof.
  cbv zeta. split; [reflexivity|].
  apply (Filter_idempotent Byte.byte ascii_IsLetter ascii_IsNumber
           (fun b => b) (fun rs => rs)
           [mkToken [Byte.x61; Byte.x2d; Byte.x31] 0%nat; mkToken [Byte.x2f] 1%nat]).
  intros rs _. reflexivity.
Defined.

End AnalyzerWitness.


(** ** What the merge hands out before it stops *)

Section MergePrefix.
Import Errors Heap Measure.

#[local] Instance block_le_reflexive : Reflexive block_le.
Proof. intros a. apply block_le_iff. lia. Qed.

#[local] Instance block_le_transitive : Transitive block_le.
Proof. intros a b c. rewrite !block_le_iff. lia. Qed.

Lemma sorted_cons_sub (hd : blockMetadata) (out all : list blockMetadata) :
  StronglySorted block_le out -> out ⊆+ all -> Forall (block_le hd) all ->
  StronglySorted block_le (hd :: out).
Proof.
  intros Hs Hsub Hall. constructor; [exact Hs|].
  apply Forall_forall. intros x Hx. rewrite Forall_forall in Hall.
  apply Hall. eapply elem_of_submseteq; eassumption.
Qed.

(** The caller's loop, whether or not an iterator fails: what it hands
    out is part of what the queue holds and, over a heap of sorted
    sequences, ascending. *)
Lemma drain_prefix (fuel : nat) :
  forall (h : list partMergeIter) (blk : option blockMetadata),
  h <> [] -> (length (contents h) <= fuel)%nat ->
  exists out br',
    drain fuel (mkBlockReader None blk h false) = Some (out, br') /\
    forall hd, head_block h = Some hd ->
      hd :: out ⊆+ contents h /\
      (heap_ok pih_less h ->
       Forall (fun it => StronglySorted block_le (remaining it)) h ->
       StronglySorted block_le (hd :: out)).
Proof.
  induction fuel as [|fuel IH]; intros h blk Hne Hlen.
  { destruct h as [|head tl]; [congruence|].
    rewrite contents_cons in Hlen. cbn [length] in Hlen. lia. }
  destruct h as [|head tl]; [congruence|]. clear Hne.
  set (br := mkBlockReader None blk (head :: tl) false).
  cbn [drain]. unfold nextBlockMetadata. cbn [err nextBlockNoop br].
  assert (Hlast : forall hd, head_block (head :: tl) = Some hd ->
            hd :: [] ⊆+ contents (head :: tl) /\
            (heap_ok pih_less (head :: tl) ->
             Forall (fun it => StronglySorted block_le (remaining it)) (head :: tl) ->
             StronglySorted block_le [hd])).
  { intros hd Hhd. rewrite head_block_cons in Hhd. injection Hhd as <-.
    split; [|intros _ _; repeat constructor].
    rewrite contents_cons. apply submseteq_skip, submseteq_nil_l. }
  destruct (upcoming head) as [|b rest] eqn:Hu.
  - destruct (fails head) eqn:Hf.
    + destruct (nextMetadata_fail br head tl eq_refl Hu Hf)
        as (e & h' & He & Heof & Hnm).
      fold br. rewrite Hnm, Heof.
      eexists _, _. split; [reflexivity|exact Hlast].
    + destruct (nextMetadata_pop br head tl eq_refl Hu Hf)
        as (h' & Hperm & Hheap & Hnm).
      fold br. rewrite Hnm. rewrite contents_cons, Hu in Hlen.
      cbn [length app] in Hlen.
      destruct h' as [|head2 tl2] eqn:Hh'.
      * cbn [length Nat.eqb is_eof].
        eexists _, _. split; [reflexivity|exact Hlast].
      * cbn [length Nat.eqb]. unfold set_err, br.
        cbn [err br_block pih nextBlockNoop].
        rewrite head_block_cons. rewrite <- Hh' in *.
        assert (Hne' : h' <> []) by (rewrite Hh'; discriminate).
        destruct (IH h' (Some (block head2)) Hne') as (out & br' & Hd & Hout).
        { rewrite (Permutation_length (contents_perm _ _ Hperm)). lia. }
        exists (block head2 :: out), br'. split; [now rewrite Hd|].
        intros hd Hhd. rewrite head_block_cons in Hhd. injection Hhd as <-.
        destruct (Hout (block head2)) as (Hsub & Hs);
          [rewrite Hh'; apply head_block_cons|].
        assert (Hsub' : block head2 :: out ⊆+ contents tl)
          by (now rewrite <- (contents_perm _ _ Hperm)).
        split.
        -- rewrite contents_cons, Hu. cbn [app]. now apply submseteq_skip.
        -- intros Hok Hsorted.
           pose proof (root_block_least head tl Hok Hsorted) as Hge.
           rewrite contents_cons, Hu in Hge. cbn [app] in Hge.
           apply Forall_cons_1 in Hge as [_ Hge].
           apply (sorted_cons_sub _ _ (contents tl)); [|exact Hsub'|exact Hge].
           apply Hs; [now apply Hheap|].
           rewrite Hperm. now apply Forall_cons_1 in Hsorted as [_ ?].
  - fold br. rewrite (nextMetadata_advance br head tl b rest eq_refl Hu).
    cbv zeta. unfold set_err, br. cbn [err br_block pih nextBlockNoop].
    set (head' := mkPartMergeIter b rest (failure head) (pmi_err head)).
    set (h' := Fix pih_less (head' :: tl) 0).
    assert (Hperm : h' ≡ₚ head' :: tl) by apply Fix_root_perm.
    assert (Hne' : h' <> []) by (eapply nonempty_perm; [exact Hperm|discriminate]).
    rewrite contents_cons, Hu in Hlen. cbn [length app] in Hlen.
    destruct h' as [|head2 tl2] eqn:Hh'; [congruence|].
    rewrite head_block_cons. rewrite <- Hh' in *.
    destruct (IH h' (Some (block head2)) Hne') as (out & br' & Hd & Hout).
    { rewrite (Permutation_length (contents_perm _ _ Hperm)).
      rewrite contents_cons. cbn [length upcoming head']. lia. }
    exists (block head2 :: out), br'. split; [now rewrite Hd|].
    intros hd Hhd. rewrite head_block_cons in Hhd. injection Hhd as <-.
    destruct (Hout (block head2)) as (Hsub & Hs);
      [rewrite Hh'; apply head_block_cons|].
    assert (Hsub' : block head2 :: out ⊆+ (b :: rest) ++ contents tl).
    { rewrite (contents_perm _ _ Hperm), contents_cons in Hsub. exact Hsub. }
    split.
    + rewrite contents_cons, Hu. now apply submseteq_skip.
    + intros Hok Hsorted.
      pose proof (root_block_least head tl Hok Hsorted) as Hge.
      rewrite contents_cons, Hu in Hge.
      apply Forall_cons_1 in Hge as [_ Hge].
      apply (sorted_cons_sub _ _ ((b :: rest) ++ contents tl)); [|exact Hsub'|exact Hge].
      apply Hs.
      * subst h'. apply (Fix_root_spec pih_less pih_less_asym pih_le_trans).
        intros p Hp. now apply (heap_ok_below_root head).
      * rewrite Hperm. apply Forall_cons_1 in Hsorted as [Hsh Hst].
        constructor; [|assumption].
        unfold remaining in *. rewrite Hu in Hsh.
        now apply StronglySorted_inv in Hsh as [? _].
Qed.

(** X23. Whether or not an iterator fails, the merge over sorted sequences
    ends, and what it has handed out by then is in ascending order by
    (series identifier, timestamp) and is part of the input: every
    descriptor handed out is a descriptor of some iterator, and none is
    handed out more often than the inputs hold it. *)
Theorem merge_hands_out_sorted_part (pii : list partMergeIter) :
  Forall (fun it => Sorted block_le (upcoming it)) pii ->
  exists out br',
    merge pii = Some (out, br') /\
    out ⊆+ pii ≫= upcoming /\
    Sorted block_le out /\
    nextBlockMetadata br' = Returned (false, br').
Proof.
  intros Hsorted.
  destruct (merge_spec pii) as (out & br' & Hm & Hstop & _).
  exists out, br'. split; [exact Hm|]. split; [|split; [|exact Hstop]];
    revert Hm; unfold merge, init, reset;
    pose proof (init_loop_spec pii (mkBlockReader None None [] false)) as Hinit;
    destruct (init_loop pii (mkBlockReader None None [] false)) as [br1|br1].
  - destruct Hinit as (it & e & _ & _ & _ & _ & Herr).
    cbn [drain]. rewrite nextBlockMetadata_stopped by (rewrite Herr; discriminate).
    intros [= <- _]. apply submseteq_nil_l.
  - destruct Hinit as [-> _]. cbn [pih app err br_block nextBlockNoop].
    destruct (advanced pii) as [|a0 adv] eqn:Hadv.
    + cbn [length Nat.eqb drain]. unfold nextBlockMetadata. cbn [err].
      intros [= <- _]. apply submseteq_nil_l.
    + rewrite <- Hadv.
      assert (Hlen0 : (length (advanced pii) =? 0)%nat = false)
        by (rewrite Hadv; reflexivity).
      rewrite Hlen0.
      destruct (Init_spec pih_less pih_less_asym pih_le_trans (advanced pii))
        as [Hheap Hperm].
      set (h := Init pih_less (advanced pii)) in *.
      assert (Hne : h <> []).
      { eapply nonempty_perm; [exact Hperm|]. rewrite Hadv. discriminate. }
      cbn [drain]. unfold nextBlockMetadata. cbn [err nextBlockNoop br_block pih].
      destruct h as [|head tl] eqn:Hh; [congruence|].
      rewrite head_block_cons. rewrite <- Hh in *.
      destruct (drain_prefix (total_blocks pii) h (Some (block head)) Hne)
        as (out' & br'' & Hd & Hout).
      { unfold total_blocks. rewrite <- contents_advanced.
        now rewrite (Permutation_length (contents_perm _ _ Hperm)). }
      rewrite Hd. intros [= <- _].
      destruct (Hout (block head)) as [Hsub _]; [rewrite Hh; apply head_block_cons|].
      now rewrite (contents_perm _ _ Hperm), contents_advanced in Hsub.
  - destruct Hinit as (it & e & _ & _ & _ & _ & Herr).
    cbn [drain]. rewrite nextBlockMetadata_stopped by (rewrite Herr; discriminate).
    intros [= <- _]. constructor.
  - destruct Hinit as [-> _]. cbn [pih app err br_block nextBlockNoop].
    destruct (advanced pii) as [|a0 adv] eqn:Hadv.
    + cbn [length Nat.eqb drain]. unfold nextBlockMetadata. cbn [err].
      intros [= <- _]. constructor.
    + rewrite <- Hadv.
      assert (Hlen0 : (length (advanced pii) =? 0)%nat = false)
        by (rewrite Hadv; reflexivity).
      rewrite Hlen0.
      destruct (Init_spec pih_less pih_less_asym pih_le_trans (advanced pii))
        as [Hheap Hperm].
      set (h := Init pih_less (advanced pii)) in *.
      assert (Hne : h <> []).
      { eapply nonempty_perm; [exact Hperm|]. rewrite Hadv. discriminate. }
      cbn [drain]. unfold nextBlockMetadata. cbn [err nextBlockNoop br_block pih].
      destruct h as [|head tl] eqn:Hh; [congruence|].
      rewrite head_block_cons. rewrite <- Hh in *.
      destruct (drain_prefix (total_blocks pii) h (Some (block head)) Hne)
        as (out' & br'' & Hd & Hout).
      { unfold total_blocks. rewrite <- contents_advanced.
        now rewrite (Permutation_length (contents_perm _ _ Hperm)). }
      rewrite Hd. intros [= <- _].
      destruct (Hout (block head)) as [_ Hs]; [rewrite Hh; apply head_block_cons|].
      apply StronglySorted_Sorted. apply Hs; [exact Hheap|].
      rewrite Hperm. apply Forall_forall. intros it Hit.
      apply elem_of_advanced in Hit as (pi & b & rest & Hpi & Hu & ->).
      rewrite Forall_forall in Hsorted. specialize (Hsorted pi Hpi).
      unfold remaining. cbn [block upcoming]. rewrite <- Hu.
      exact (@Sorted_StronglySorted _ block_le block_le_transitive _ Hsorted).
Qed.

Lemma merge_hands_out_sorted_part_witness :
  Forall (fun it => Sorted block_le (upcoming it)) example_failing_iters /\
  exists out br',
    merge example_failing_iters = Some (out, br') /\
    out ⊆+ example_failing_iters ≫= upcoming /\
    Sorted block_le out.
Proof.
  assert (H : Forall (fun it => Sorted block_le (upcoming it)) example_failing_iters)
    by (repeat constructor).
  split; [exact H|].
  destruct (merge_hands_out_sorted_part example_failing_iters H)
    as (out & br' & Hm & Hsub & Hs & _).
  exists out, br'. auto.
Defined.

End MergePrefix.

(** ** Flushing a memory part that has been reset *)

Section FlushAfterReset.
Import Measure Filepath Stream StreamParts.
Variable marshal : partMetadata -> list Byte.byte.
Variable partMetadata_reset : partMetadata -> partMetadata.

(** X24. Flushing a memory part after [reset] is not a no-op. It creates the
    directory with an empty [meta.bin], [primary.bin] and
    [timestamps.bin], the record of the reset metadata, and an empty [.tf]
    and [.tfm] file for every family the part held before the [reset]; it
    syncs the directory and, the threshold not being negative, hints
    nothing. *)
Theorem flush_of_reset_memPart (root : string) (id : Z) (mp : memPart) (w : world) :
  (forall n, is_Some (mp_tagFamilies mp !! n) -> has_separator n = false) ->
  (forall n, is_Some (mp_tagFamilyMetadata mp !! n) -> has_separator n = false) ->
  files w !! partPath root id = None ->
  0 <= threshold w ->
  let d := partPath root id in
  exists w',
    mustFlush marshal (memPart_reset partMetadata_reset mp) d w = Returned w' /\
    files w' !! d = Some Dir /\
    files w' !! (d +:+ "/" +:+ metadataFilename)
      = Some (File (marshal (partMetadata_reset (mp_partMetadata mp)))) /\
    files w' !! (d +:+ "/" +:+ metaFilename) = Some (File []) /\
    files w' !! (d +:+ "/" +:+ primaryFilename) = Some (File []) /\
    files w' !! (d +:+ "/" +:+ timestampsFilename) = Some (File []) /\
    (forall n, is_Some (mp_tagFamilies mp !! n) ->
       files w' !! (d +:+ "/" +:+ n +:+ tagFamiliesFilenameExt) = Some (File [])) /\
    (forall n, is_Some (mp_tagFamilyMetadata mp !! n) ->
       files w' !! (d +:+ "/" +:+ n +:+ tagFamiliesMetadataFilenameExt) = Some (File [])) /\
    synced w' = synced w ++ [d] /\
    (forall p, p ∈ hints w' <-> p ∈ hints w).
Proof.
  intros Htf Htfm Hfresh Hthr. cbv zeta.
  set (mp' := memPart_reset partMetadata_reset mp).
  assert (Htf' : forall n, is_Some (mp_tagFamilies mp' !! n) -> has_separator n = false).
  { intros n Hn. apply Htf. subst mp'. unfold memPart_reset in Hn.
    cbn [mp_tagFamilies] in Hn. now rewrite lookup_fmap, fmap_is_Some in Hn. }
  assert (Htfm' : forall n, is_Some (mp_tagFamilyMetadata mp' !! n) ->
                            has_separator n = false).
  { intros n Hn. apply Htfm. subst mp'. unfold memPart_reset in Hn.
    cbn [mp_tagFamilyMetadata] in Hn. now rewrite lookup_fmap, fmap_is_Some in Hn. }
  destruct (mustFlush_files marshal (partPath root id)
              (fun n => Join_partPath root id n) (Base_partPath_not_idx root id)
              mp' w Hfresh Htf' Htfm')
    as (w' & Hw' & Hmd & Hmeta & Hpr & Hts & HTF & HTFM & _ & Hsync).
  destruct (mustFlush_world marshal (partPath root id)
              (fun n => Join_partPath root id n) (Base_partPath_not_idx root id)
              mp' w w' Htf' Htfm' Hw') as (_ & Hdir & _ & _ & Hhints).
  exists w'. split; [exact Hw'|]. split; [exact Hdir|].
  split; [exact Hmd|]. split; [exact Hmeta|]. split; [exact Hpr|].
  split; [exact Hts|].
  split; [|split; [|split; [exact Hsync|]]].
  - intros n [c Hn]. apply HTF. subst mp'. unfold memPart_reset.
    cbn [mp_tagFamilies]. now rewrite lookup_fmap, Hn.
  - intros n [c Hn]. apply HTFM. subst mp'. unfold memPart_reset.
    cbn [mp_tagFamilyMetadata]. now rewrite lookup_fmap, Hn.
  - intros p. rewrite Hhints. unfold large. split; [|now left].
    intros [H|[[_ H]|[[_ H]|(n & c & Hn & _ & H)]]]; [exact H| | |].
    + subst mp'. cbn in H. lia.
    + subst mp'. cbn in H. lia.
    + subst mp'. unfold memPart_reset in Hn. cbn [mp_tagFamilies] in Hn.
      rewrite lookup_fmap in Hn.
      destruct (mp_tagFamilies mp !! n); [|discriminate].
      injection Hn as <-. cbn in H. lia.
Qed.

End FlushAfterReset.

Section FlushAfterResetWitness.
Import Measure Filepath Stream StreamParts.

Lemma flush_of_reset_memPart_witness :
  exists w',
    mustFlush example_marshal (memPart_reset (fun pm => pm) example_memPart)
              (partPath "/data/stream" 10) empty_world = Returned w' /\
    files w' !! (partPath "/data/stream" 10 +:+ "/" +:+ "searchable" +:+ ".tf")
      = Some (File []).
Proof.
  destruct (flush_of_reset_memPart example_marshal (fun pm => pm)
              "/data/stream" 10 example_memPart empty_world
              (example_names_plain _ _ eq_refl) (example_names_plain _ _ eq_refl)
              (lookup_empty _) ltac:(cbn; lia))
    as (w' & Hw' & _ & _ & _ & _ & _ & Htf & _).
  exists w'. split; [exact Hw'|].
  apply (Htf "searchable"). cbn [example_memPart mp_tagFamilies].
  rewrite lookup_singleton_eq. eauto.
Defined.

End FlushAfterResetWitness.

(** ** What the pools hand out *)

Section Pools.
Import Measure Stream StreamParts Readers Pool.
Variable indexDirName : string.
Variable partMetadata_reset : partMetadata -> partMetadata.

Lemma Get_member {T : Type} (P : T -> Prop) (choice : option nat) (pool : list T) :
  Forall P pool ->
  match (Get choice pool).1 with Some v => P v | None => True end /\
  Forall P (Get choice pool).2.
Proof.
  intros Hall. unfold Get. destruct choice as [i|]; [|split; [exact I|exact Hall]].
  destruct (pool !! i) as [v|] eqn:E; cbn [fst snd]; [|split; [exact I|exact Hall]].
  split.
  - rewrite Forall_forall in Hall. apply Hall. eapply list_elem_of_lookup_2, E.
  - apply Forall_forall. intros x Hx. rewrite Forall_forall in Hall. apply Hall.
    eapply list_elem_of_delete_inv, Hx.
Qed.

Lemma memPart_reset_blank (mp : memPart) :
  blank (memPart_reset partMetadata_reset mp).
Proof.
  unfold blank, memPart_reset.
  cbn [mp_meta mp_primary mp_timestamps mp_tagFamilies mp_tagFamilyMetadata].
  repeat split; intros n c; rewrite lookup_fmap;
    destruct (_ !! n); cbn; congruence.
Qed.

(** X25. What a pool hands out is as good as new, up to the families of a
    memory part. A [seqReader] released after any sequence of [init],
    [mustReadFull] and [reset] calls goes to the pool as the zero value,
    and so does every released [blockReader]; hence [generateSeqReader] and
    [generateBlockReader] return the zero value whichever object the pool
    picks. A released memory part goes to the pool with every buffer
    empty, and [generateMemPart] returns a part with every buffer empty
    (which may still name the families of an earlier use). *)
Theorem pools_hand_out_reset_objects
    (ops : list op) (e0 e : env) (s : seqReader) (br : blockReader) (mp : memPart)
    (spool : list seqReader) (bpool : list blockReader) (mpool : list memPart)
    (choice : option nat) :
  run indexDirName ops zero_seqReader e0 = Returned (s, e) ->
  Forall (fun v => v = zero_seqReader) spool ->
  Forall (fun v => v = zero_blockReader) bpool ->
  Forall blank mpool ->
  let spool' := (releaseSeqReader indexDirName s e spool).2 in
  let bpool' := releaseBlockReader br bpool in
  let mpool' := releaseMemPart partMetadata_reset mp mpool in
  spool' = zero_seqReader :: spool /\
  (generateSeqReader choice spool').1 = zero_seqReader /\
  Forall (fun v => v = zero_seqReader) (generateSeqReader choice spool').2 /\
  bpool' = zero_blockReader :: bpool /\
  (generateBlockReader choice bpool').1 = zero_blockReader /\
  Forall (fun v => v = zero_blockReader) (generateBlockReader choice bpool').2 /\
  blank (generateMemPart choice mpool').1 /\
  Forall blank (generateMemPart choice mpool').2.
Proof.
  intros Hrun Hs Hb Hm. cbv zeta.
  assert (Hinv : exempt_is_small indexDirName s).
  { destruct (run_inv indexDirName ops e0 zero_seqReader e0 s e) as [Hinv _]; auto.
    - intros H. discriminate.
    - unfold streams_balanced. cbn. lia. }
  assert (Hrel : (releaseSeqReader indexDirName s e spool).2 = zero_seqReader :: spool).
  { unfold releaseSeqReader.
    pose proof (reset_clears indexDirName s e Hinv) as Hz.
    destruct (seqReader_reset indexDirName s e) as [s' e']. cbn [fst snd] in *.
    now subst s'. }
  split; [exact Hrel|]. rewrite Hrel.
  assert (Hs' : Forall (fun v => v = zero_seqReader) (zero_seqReader :: spool))
    by (constructor; auto).
  assert (Hb' : Forall (fun v => v = zero_blockReader) (releaseBlockReader br bpool))
    by (constructor; auto).
  assert (Hm' : Forall blank (releaseMemPart partMetadata_reset mp mpool))
    by (constructor; [apply memPart_reset_blank|exact Hm]).
  destruct (Get_member _ choice _ Hs') as [G1 G2].
  destruct (Get_member _ choice _ Hb') as [B1 B2].
  destruct (Get_member _ choice _ Hm') as [M1 M2].
  split; [|split; [|split; [reflexivity|split; [|split; [|split]]]]].
  - unfold generateSeqReader.
    destruct (Get choice (zero_seqReader :: spool)) as [[v|] sp]; cbn [fst snd] in *; auto.
  - unfold generateSeqReader.
    destruct (Get choice (zero_seqReader :: spool)) as [[v|] sp]; cbn [fst snd] in *; auto.
  - unfold generateBlockReader.
    destruct (Get choice (releaseBlockReader br bpool)) as [[v|] bp];
      cbn [fst snd] in *; auto.
  - unfold generateBlockReader.
    destruct (Get choice (releaseBlockReader br bpool)) as [[v|] bp];
      cbn [fst snd] in *; auto.
  - unfold generateMemPart.
    destruct (Get choice (releaseMemPart partMetadata_reset mp mpool)) as [[v|] mpl];
      cbn [fst snd] in *; [exact M1|].
    unfold blank, zero_memPart. cbn.
    repeat split; intros n c; rewrite lookup_empty; discriminate.
  - unfold generateMemPart.
    destruct (Get choice (releaseMemPart partMetadata_reset mp mpool)) as [[v|] mpl];
      cbn [fst snd] in *; exact M2.
Qed.

End Pools.

Section PoolsWitness.
Import Errors Measure Stream StreamParts Readers Pool.

Lemma pools_hand_out_reset_objects_witness :
  let r := mkReader "data/primary.bin" (mkSeqReader [[Byte.x61]] EOF) in
  let e0 := mkEnv (Fadvis.init (fun _ => Some 1)) 0 0 in
  let s := mkseqReader (Some (mkSeqReader [[Byte.x61]] EOF)) 0 "data/primary.bin" 1 false in
  let e := mkEnv (Fadvis.init (fun _ => Some 1)) 1 0 in
  run "idx" [OpInit r] zero_seqReader e0 = Returned (s, e) /\
  (generateSeqReader (Some 0%nat) (releaseSeqReader "idx" s e []).2).1 = zero_seqReader /\
  (generateMemPart (Some 0%nat) (releaseMemPart (fun pm => pm) example_memPart [])).1
  <> zero_memPart.
Proof.
  cbv zeta.
  assert (Hrun : run "idx"
                   [OpInit (mkReader "data/primary.bin" (mkSeqReader [[Byte.x61]] EOF))]
                   zero_seqReader (mkEnv (Fadvis.init (fun _ => Some 1)) 0 0)
                 = Returned
                     (mkseqReader (Some (mkSeqReader [[Byte.x61]] EOF)) 0
                                  "data/primary.bin" 1 false,
                      mkEnv (Fadvis.init (fun _ => Some 1)) 1 0))
    by reflexivity.
  split; [exact Hrun|].
  destruct (pools_hand_out_reset_objects "idx" (fun pm => pm) _ _ _ _
              zero_blockReader example_memPart [] [] [] (Some 0%nat) Hrun
              ltac:(constructor) ltac:(constructor) ltac:(constructor))
    as (_ & H & _).
  split; [exact H|].
  intros Heq. apply (f_equal (fun m => mp_tagFamilies m !! "searchable")) in Heq.
  vm_compute in Heq. discriminate.
Defined.

End PoolsWitness.

(** ** The size of a row *)

Section RowSizeProperties.
Import Measure Stream RowSize.

Lemma wrap64_add_l (a b : Z) : wrap64 (wrap64 a + b) = wrap64 (a + b).
Proof. unfold wrap64. now rewrite Zplus_mod_idemp_l. Qed.

Lemma tagValues_size_total (n : Z) (tv : tagValues) :
  tagValues_size (wrap64 n) tv = wrap64 (n + family_total tv).
Proof.
  unfold tagValues_size, family_total. rewrite wrap64_add_l.
  generalize (Z.of_nat (String.length (tag tv))). intros k.
  replace (n + (k + foldr (fun v m => Z.of_N (tagValue_size v) + m) 0 (values tv)))
    with ((n + k) + foldr (fun v m => Z.of_N (tagValue_size v) + m) 0 (values tv))
    by lia.
  generalize (n + k). induction (values tv) as [|v vs IH]; intros acc; cbn [foldl foldr].
  - now rewrite Z.add_0_r.
  - rewrite wrap64_add_l, IH. f_equal. lia.
Qed.

(** X26. [uncompressedElementSizeBytes] of a row is 16 (timestamp and element
    identifier) plus the length of each tag name plus the size of each
    value, as a [uint64]; it is at least 16 when that sum fits, and does not
    depend on the order of the families. *)
Theorem uncompressedElementSizeBytes_closed_form (e e' : element) :
  uncompressedElementSizeBytes e = wrap64 (row_total e) /\
  16 <= row_total e /\
  (row_total e < 2 ^ 64 -> uncompressedElementSizeBytes e = row_total e) /\
  (e_tagFamilies e ≡ₚ e_tagFamilies e' ->
     uncompressedElementSizeBytes e = uncompressedElementSizeBytes e').
Proof.
  assert (Hform : forall x, uncompressedElementSizeBytes x = wrap64 (row_total x)).
  { intros x. unfold uncompressedElementSizeBytes, row_total.
    assert (H : forall tvs acc,
              foldl tagValues_size (wrap64 acc) tvs
              = wrap64 (acc + foldr (fun tv n => family_total tv + n) 0 tvs)).
    { induction tvs as [|tv tvs IH]; intros acc; cbn [foldl foldr].
      - now rewrite Z.add_0_r.
      - rewrite tagValues_size_total, IH. f_equal. lia. }
    rewrite <- H. now rewrite wrap64_small by lia. }
  assert (Hpos : forall x, 16 <= row_total x).
  { intros x. unfold row_total.
    assert (H : 0 <= foldr (fun tv n => family_total tv + n) 0 (e_tagFamilies x)).
    { induction (e_tagFamilies x) as [|tv tvs IH]; cbn [foldr]; [lia|].
      assert (0 <= family_total tv); [|lia].
      unfold family_total.
      assert (0 <= foldr (fun v n => Z.of_N (tagValue_size v) + n) 0 (values tv)).
      { induction (values tv) as [|v vs IHv]; cbn [foldr]; lia. }
      lia. }
    lia. }
  split; [apply Hform|]. split; [apply Hpos|]. split.
  - intros Hfit. rewrite Hform. apply wrap64_small. pose proof (Hpos e). lia.
  - intros Hperm. rewrite !Hform. f_equal. unfold row_total. f_equal.
    induction Hperm; cbn [foldr]; lia.
Qed.

End RowSizeProperties.


Section ReaderGroupProperties.
Import Errors Measure Filepath Readers Pool ReaderGroup.
Variable indexDirName : string.
Variable pick : list seqReader -> option nat.

Local Abbreviation inv := (exempt_is_small indexDirName).

Lemma zero_inv : inv zero_seqReader.
Proof. intros H. discriminate. Qed.

Lemma seqReader_reset_effect (s : seqReader) (e : env) :
  inv s ->
  exists e', seqReader_reset indexDirName s e = (zero_seqReader, e') /\
    opened e' = opened e /\
    closed e' = (closed e + match sr s with Some _ => 1 | None => 0 end)%nat.
Proof.
  intros Hinv. unfold seqReader_reset. cbv zeta.
  destruct (isLargeFile s) eqn:Hl; cbn [andb].
  - rewrite (Hinv Hl), andb_false_r.
    destruct (negb (String.eqb (filePath s) "")); destruct (sr s);
      eexists; (split; [reflexivity|]); cbn; lia.
  - destruct (sr s); eexists; (split; [reflexivity|]); cbn; lia.
Qed.

Lemma seqReader_init_effect (r : Reader) (s : seqReader) (e : env) :
  inv s ->
  exists g e', seqReader_init indexDirName r s e = (g, e') /\
    holds r g /\ inv g /\
    opened e' = S (opened e) /\
    closed e' = (closed e + match sr s with Some _ => 1 | None => 0 end)%nat.
Proof.
  intros Hinv. unfold seqReader_init.
  destruct (seqReader_reset_effect s e Hinv) as (e1 & -> & Ho & Hc).
  cbn [bytesRead fileSize isLargeFile zero_seqReader filePath sr fadvis].
  destruct (String.eqb (Base (Dir (Path r))) indexDirName) eqn:Hidx.
  - do 2 eexists. split; [reflexivity|]. unfold holds. cbn.
    repeat split; try lia. intros H. discriminate.
  - destruct (Fadvis.stat _ _).
    + do 2 eexists. split; [reflexivity|]. unfold holds. cbn.
      repeat split; try lia. intros _. exact Hidx.
    + do 2 eexists. split; [reflexivity|]. unfold holds. cbn.
      repeat split; try lia. intros H. discriminate.
Qed.

Lemma generateSeqReader_zero (c : option nat) (pool : list seqReader) :
  Forall (fun s => s = zero_seqReader) pool ->
  (generateSeqReader c pool).1 = zero_seqReader /\
  Forall (fun s => s = zero_seqReader) (generateSeqReader c pool).2.
Proof.
  intros Hall. unfold generateSeqReader, Get.
  destruct c as [i|]; [|auto].
  destruct (pool !! i) as [v|] eqn:Hi; [|auto].
  cbn. split.
  - exact (proj1 (Forall_forall _ _) Hall v (list_elem_of_lookup_2 _ _ _ Hi)).
  - now apply Forall_delete.
Qed.

Local Abbreviation all_open := (ReaderGroup.all_open indexDirName).

Lemma release_all_effect (m : gmap string seqReader) (e : env) (pool : list seqReader) :
  all_open m ->
  Forall (fun s => s = zero_seqReader) pool ->
  let r := release_all indexDirName m e pool in
  opened r.1 = opened e /\
  closed r.1 = (closed e + size m)%nat /\
  Forall (fun s => s = zero_seqReader) r.2 /\
  length r.2 = (length pool + size m)%nat.
Proof.
  intros Hopen Hpool. cbv zeta. unfold release_all.
  revert Hopen.
  apply (map_fold_weak_ind
    (fun (acc : env * list seqReader) (m : gmap string seqReader) =>
       all_open m ->
       opened acc.1 = opened e /\ closed acc.1 = (closed e + size m)%nat /\
       Forall (fun s => s = zero_seqReader) acc.2 /\
       length acc.2 = (length pool + size m)%nat)).
  - intros _. rewrite map_size_empty. cbn. repeat split; auto; lia.
  - intros k g m' [e1 pool1] Hk IH Hopen. cbn [fst snd] in *.
    destruct IH as (Ho & Hc & Hz & Hlen).
    { intros k' g' Hk'. apply (Hopen k' g').
      rewrite lookup_insert_ne; [exact Hk'|]. intros ->. congruence. }
    destruct (Hopen k g) as [Hinv [x Hx]]; [now rewrite lookup_insert_eq|].
    unfold releaseSeqReader.
    destruct (seqReader_reset_effect g e1 Hinv) as (e2 & -> & Ho2 & Hc2).
    rewrite Hx in Hc2. cbn [fst snd Put].
    rewrite map_size_insert_None by exact Hk.
    repeat split; [lia|lia| |cbn; lia].
    constructor; [reflexivity|exact Hz].
Qed.

Lemma init_family_absorbs (p : part) (k : string) (r : Reader) (msg : string) :
  init_family indexDirName pick p k r (Panicked msg) = Panicked msg.
Proof. reflexivity. Qed.

(** The loop of [init], from any state with readers from a pool of zero
    values. *)
Lemma init_loop_returns (p : part) (e : env) (pool : list seqReader) :
  Forall (fun s => s = zero_seqReader) pool ->
  forall m : gmap string Reader,
  (forall k r, m !! k = Some r -> is_Some (p_tagFamilyMetadata p !! k)) ->
  exists st,
    map_fold (init_family indexDirName pick p)
             (Returned (mkInitState ∅ ∅ e pool)) m = Returned st /\
    (forall k, match m !! k with
               | Some r => exists g, is_tagFamilies st !! k = Some g /\ holds r g /\ inv g
               | None => is_tagFamilies st !! k = None
               end) /\
    (forall k, match m !! k with
               | Some _ => exists r' g, p_tagFamilyMetadata p !! k = Some r' /\
                              is_tagFamilyMetadata st !! k = Some g /\ holds r' g /\ inv g
               | None => is_tagFamilyMetadata st !! k = None
               end) /\
    opened (is_env st) = (opened e + 2 * size m)%nat /\
    closed (is_env st) = closed e /\
    Forall (fun s => s = zero_seqReader) (is_pool st).
Proof.
  intros Hpool.
  apply (map_fold_weak_ind
    (fun (acc : outcome initState) (m : gmap string Reader) =>
       (forall k r, m !! k = Some r -> is_Some (p_tagFamilyMetadata p !! k)) ->
       exists st, acc = Returned st /\
       (forall k, match m !! k with
               | Some r => exists g, is_tagFamilies st !! k = Some g /\ holds r g /\ inv g
               | None => is_tagFamilies st !! k = None
               end) /\
       (forall k, match m !! k with
               | Some _ => exists r' g, p_tagFamilyMetadata p !! k = Some r' /\
                              is_tagFamilyMetadata st !! k = Some g /\ holds r' g /\ inv g
               | None => is_tagFamilyMetadata st !! k = None
               end) /\
       opened (is_env st) = (opened e + 2 * size m)%nat /\
       closed (is_env st) = closed e /\
       Forall (fun s => s = zero_seqReader) (is_pool st))).
  - intros _. eexists. split; [reflexivity|]. cbn.
    rewrite map_size_empty.
    repeat split; try lia; try exact Hpool; intros k; rewrite !lookup_empty; reflexivity.
  - intros k r m acc Hk IH Hmeta.
    destruct IH as (st & -> & Htf & Htfm & Ho & Hc & Hz).
    { intros k' r' Hk'. apply (Hmeta k' r').
      rewrite lookup_insert_ne; [exact Hk'|]. intros ->. congruence. }
    destruct (Hmeta k r) as [r' Hr']; [now rewrite lookup_insert_eq|].
    unfold init_family.
    destruct (generateSeqReader_zero (pick (is_pool st)) (is_pool st) Hz) as [Hg1 Hp1].
    destruct (generateSeqReader (pick (is_pool st)) (is_pool st)) as [g1 pool1].
    cbn [fst snd] in Hg1, Hp1. subst g1.
    destruct (seqReader_init_effect r zero_seqReader (is_env st) zero_inv)
      as (g & e1 & -> & Hh & Hi & Ho1 & Hc1).
    destruct (generateSeqReader_zero (pick pool1) pool1 Hp1) as [Hg2 Hp2].
    destruct (generateSeqReader (pick pool1) pool1) as [g2 pool2].
    cbn [fst snd] in Hg2, Hp2. subst g2.
    rewrite Hr'.
    destruct (seqReader_init_effect r' zero_seqReader e1 zero_inv)
      as (g' & e2 & -> & Hh' & Hi' & Ho2 & Hc2).
    eexists. split; [reflexivity|]. cbn [is_tagFamilies is_tagFamilyMetadata is_env is_pool].
    cbn [zero_seqReader sr] in Hc1, Hc2.
    rewrite map_size_insert_None by exact Hk.
    repeat split; try lia; try exact Hp2.
    + intros k'. destruct (decide (k' = k)) as [->|Hne].
      * rewrite !lookup_insert_eq. eauto.
      * rewrite !lookup_insert_ne by congruence. apply Htf.
    + intros k'. destruct (decide (k' = k)) as [->|Hne].
      * rewrite !lookup_insert_eq. eauto 6.
      * rewrite !lookup_insert_ne by congruence. apply Htfm.
Qed.

(** The loop panics as soon as one family has no metadata reader. *)
Lemma init_loop_panics (p : part) (b : outcome initState) :
  forall m : gmap string Reader,
  (exists k r, m !! k = Some r /\ p_tagFamilyMetadata p !! k = None) ->
  exists msg, map_fold (init_family indexDirName pick p) b m = Panicked msg.
Proof.
  apply (map_fold_weak_ind
    (fun (acc : outcome initState) (m : gmap string Reader) =>
       (exists k r, m !! k = Some r /\ p_tagFamilyMetadata p !! k = None) ->
       exists msg, acc = Panicked msg)).
  - intros (k & r & Hk & _). rewrite lookup_empty in Hk. discriminate.
  - intros k r m acc Hk IH (k' & r' & Hk' & Hnone).
    destruct (decide (k' = k)) as [->|Hne].
    + destruct acc as [st|msg]; [|eauto].
      unfold init_family.
      destruct (generateSeqReader _ _) as [g1 pool1].
      destruct (seqReader_init _ _ _ _) as [g e1].
      destruct (generateSeqReader _ _) as [g2 pool2].
      rewrite Hnone. eauto.
    + rewrite lookup_insert_ne in Hk' by congruence.
      destruct IH as [msg ->]; [eauto|]. eauto.
Qed.

Lemma size_all_open (m : gmap string Reader) (tf : gmap string seqReader) :
  (forall k, match m !! k with
             | Some _ => exists g, tf !! k = Some g /\ inv g /\ is_Some (sr g)
             | None => tf !! k = None
             end) ->
  all_open tf /\ size tf = size m.
Proof.
  intros H. split.
  - intros k g Hk. specialize (H k). destruct (m !! k).
    + destruct H as (g' & Hg' & Hi & Hs).
      rewrite Hg' in Hk. injection Hk as <-. split; assumption.
    + congruence.
  - rewrite <- !size_dom. f_equal. apply set_eq. intros k.
    rewrite !elem_of_dom. specialize (H k). destruct (m !! k) eqn:Hm.
    + destruct H as (g' & Hg' & _). rewrite Hg'. split; eauto.
    + rewrite H. split; intros [? [=]].
Qed.


(** [init] on a fresh group, with everything that follows from the loop. *)
Lemma seqReaders_init_returns (p : part) (e : env) (pool : list seqReader) :
  Forall (fun s => s = zero_seqReader) pool ->
  (forall k r, p_tagFamilies p !! k = Some r -> is_Some (p_tagFamilyMetadata p !! k)) ->
  exists srs e1 pool1,
    seqReaders_init indexDirName pick p zero_seqReaders e pool = Returned (srs, e1, pool1) /\
    (holds (p_primary p) (primary srs) /\ inv (primary srs)) /\
    (holds (p_timestamps p) (timestamps srs) /\ inv (timestamps srs)) /\
    (holds (p_fieldValues p) (fieldValues srs) /\ inv (fieldValues srs)) /\
    (forall k, match p_tagFamilies p !! k with
               | Some r => exists g, tagFamilies srs !! k = Some g /\ holds r g /\ inv g
               | None => tagFamilies srs !! k = None
               end) /\
    (forall k, match p_tagFamilies p !! k with
               | Some _ => exists r' g, p_tagFamilyMetadata p !! k = Some r' /\
                              tagFamilyMetadata srs !! k = Some g /\ holds r' g /\ inv g
               | None => tagFamilyMetadata srs !! k = None
               end) /\
    opened e1 = (opened e + 3 + 2 * size (p_tagFamilies p))%nat /\
    closed e1 = closed e /\
    Forall (fun s => s = zero_seqReader) pool1.
Proof.
  intros Hpool Hmeta. unfold seqReaders_init, seqReaders_reset.
  cbn [zero_seqReaders primary timestamps fieldValues tagFamilies tagFamilyMetadata].
  destruct (seqReader_reset_effect zero_seqReader e zero_inv) as (e1 & -> & Ho1 & Hc1).
  destruct (seqReader_reset_effect zero_seqReader e1 zero_inv) as (e2 & -> & Ho2 & Hc2).
  destruct (seqReader_reset_effect zero_seqReader e2 zero_inv) as (e3 & -> & Ho3 & Hc3).
  unfold release_all. rewrite !map_fold_empty.
  cbn [primary timestamps fieldValues tagFamilies tagFamilyMetadata].
  destruct (seqReader_init_effect (p_primary p) zero_seqReader e3 zero_inv)
    as (g1 & e4 & -> & Hh1 & Hi1 & Ho4 & Hc4).
  destruct (seqReader_init_effect (p_timestamps p) zero_seqReader e4 zero_inv)
    as (g2 & e5 & -> & Hh2 & Hi2 & Ho5 & Hc5).
  destruct (seqReader_init_effect (p_fieldValues p) zero_seqReader e5 zero_inv)
    as (g3 & e6 & -> & Hh3 & Hi3 & Ho6 & Hc6).
  destruct (init_loop_returns p e6 pool Hpool (p_tagFamilies p) Hmeta)
    as (st & -> & Htf & Htfm & Ho & Hc & Hz).
  cbn [zero_seqReader sr] in *.
  do 3 eexists. split; [reflexivity|].
  cbn [primary timestamps fieldValues tagFamilies tagFamilyMetadata].
  split; [split; assumption|]. split; [split; assumption|].
  split; [split; assumption|]. split; [exact Htf|]. split; [exact Htfm|].
  split; [lia|]. split; [lia|exact Hz].
Qed.

(** X27. A fresh group of readers initialised for a part each of whose
    tag families has a metadata reader: [init] returns, the three fixed
    readers and one reader per family and per family metadata hold the
    sequential stream of their file at its start, there is no reader for
    any other name (a metadata reader of the part without a family is not
    opened), and exactly [3 + 2 * families] streams have been opened and
    none closed; whatever the pool hands out. *)
Theorem seqReaders_init_opens_every_file
    (p : part) (e : env) (pool : list seqReader) :
  Forall (fun s => s = zero_seqReader) pool ->
  (forall k r, p_tagFamilies p !! k = Some r -> is_Some (p_tagFamilyMetadata p !! k)) ->
  exists srs e1 pool1,
    seqReaders_init indexDirName pick p zero_seqReaders e pool = Returned (srs, e1, pool1) /\
    holds (p_primary p) (primary srs) /\
    holds (p_timestamps p) (timestamps srs) /\
    holds (p_fieldValues p) (fieldValues srs) /\
    (forall k, match p_tagFamilies p !! k with
               | Some r => exists g, tagFamilies srs !! k = Some g /\ holds r g
               | None => tagFamilies srs !! k = None
               end) /\
    (forall k, match p_tagFamilies p !! k with
               | Some _ => exists r' g, p_tagFamilyMetadata p !! k = Some r' /\
                              tagFamilyMetadata srs !! k = Some g /\ holds r' g
               | None => tagFamilyMetadata srs !! k = None
               end) /\
    opened e1 = (opened e + 3 + 2 * size (p_tagFamilies p))%nat /\
    closed e1 = closed e.
Proof.
  intros Hpool Hmeta.
  destruct (seqReaders_init_returns p e pool Hpool Hmeta)
    as (srs & e1 & pool1 & Hinit & [H1 _] & [H2 _] & [H3 _] & Htf & Htfm & Ho & Hc & _).
  exists srs, e1, pool1.
  split; [exact Hinit|]. split; [exact H1|]. split; [exact H2|]. split; [exact H3|].
  split; [|split; [|split; [exact Ho|exact Hc]]].
  - intros k. specialize (Htf k). destruct (p_tagFamilies p !! k); [|exact Htf].
    destruct Htf as (g & Hg & Hh & _). eauto.
  - intros k. specialize (Htfm k). destruct (p_tagFamilies p !! k); [|exact Htfm].
    destruct Htfm as (r' & g & Hr' & Hg & Hh & _). eauto 6.
Qed.

(** X28. [reset] after [init] gives the group back as it was: the maps
    are empty and the three fixed readers are zero values, every stream
    [init] opened has been closed (as many closed as opened, over both
    calls), and the readers of the families are back in the pool, two per
    family, each a zero value. *)
Theorem seqReaders_reset_after_init
    (p : part) (e : env) (pool : list seqReader)
    (srs : seqReaders) (e1 : env) (pool1 : list seqReader) :
  Forall (fun s => s = zero_seqReader) pool ->
  (forall k r, p_tagFamilies p !! k = Some r -> is_Some (p_tagFamilyMetadata p !! k)) ->
  seqReaders_init indexDirName pick p zero_seqReaders e pool = Returned (srs, e1, pool1) ->
  exists e2 pool2,
    seqReaders_reset indexDirName srs e1 pool1 = (zero_seqReaders, e2, pool2) /\
    opened e2 = (opened e + 3 + 2 * size (p_tagFamilies p))%nat /\
    closed e2 = (closed e + 3 + 2 * size (p_tagFamilies p))%nat /\
    Forall (fun s => s = zero_seqReader) pool2 /\
    length pool2 = (length pool1 + 2 * size (p_tagFamilies p))%nat.
Proof.
  intros Hpool Hmeta Hinit.
  destruct (seqReaders_init_returns p e pool Hpool Hmeta)
    as (srs' & e1' & pool1' & Hinit' & [H1 Hi1] & [H2 Hi2] & [H3 Hi3] &
        Htf & Htfm & Ho & Hc & Hz).
  rewrite Hinit in Hinit'. injection Hinit' as <- <- <-.
  unfold seqReaders_reset.
  destruct (seqReader_reset_effect (primary srs) e1 Hi1) as (a1 & -> & Hoa1 & Hca1).
  destruct (seqReader_reset_effect (timestamps srs) a1 Hi2) as (a2 & -> & Hoa2 & Hca2).
  destruct (seqReader_reset_effect (fieldValues srs) a2 Hi3) as (a3 & -> & Hoa3 & Hca3).
  destruct H1 as (Hs1 & _), H2 as (Hs2 & _), H3 as (Hs3 & _).
  rewrite Hs1 in Hca1. rewrite Hs2 in Hca2. rewrite Hs3 in Hca3.
  destruct (size_all_open (p_tagFamilies p) (tagFamilyMetadata srs)) as [Hopen1 Hsize1].
  { intros k. specialize (Htfm k). destruct (p_tagFamilies p !! k); [|exact Htfm].
    destruct Htfm as (r' & g & _ & Hg & (Hs & _) & Hi). exists g. rewrite Hs. eauto. }
  destruct (size_all_open (p_tagFamilies p) (tagFamilies srs)) as [Hopen2 Hsize2].
  { intros k. specialize (Htf k). destruct (p_tagFamilies p !! k); [|exact Htf].
    destruct Htf as (g & Hg & (Hs & _) & Hi). exists g. rewrite Hs. eauto. }
  pose proof (release_all_effect (tagFamilyMetadata srs) a3 pool1 Hopen1 Hz) as R1.
  cbv zeta in R1.
  destruct (release_all indexDirName (tagFamilyMetadata srs) a3 pool1) as [b1 q1].
  cbn [fst snd] in R1. destruct R1 as (Hob1 & Hcb1 & Hzb1 & Hlb1).
  pose proof (release_all_effect (tagFamilies srs) b1 q1 Hopen2 Hzb1) as R2.
  cbv zeta in R2.
  destruct (release_all indexDirName (tagFamilies srs) b1 q1) as [b2 q2].
  cbn [fst snd] in R2. destruct R2 as (Hob2 & Hcb2 & Hzb2 & Hlb2).
  exists b2, q2. split; [reflexivity|].
  repeat split; try assumption; lia.
Qed.

(** X29. A part with a tag family that has no metadata reader makes
    [init] panic, whatever the group held before: the loop calls
    [SequentialRead] on the nil reader the metadata map yields. *)
Theorem seqReaders_init_panics_without_metadata
    (p : part) (srs : seqReaders) (e : env) (pool : list seqReader)
    (k : string) (r : Reader) :
  p_tagFamilies p !! k = Some r ->
  p_tagFamilyMetadata p !! k = None ->
  exists msg, seqReaders_init indexDirName pick p srs e pool = Panicked msg.
Proof.
  intros Hk Hnone. unfold seqReaders_init.
  destruct (seqReaders_reset indexDirName srs e pool) as [[srs0 e0] pool0].
  destruct (seqReader_init _ _ _ e0) as [g1 e1].
  destruct (seqReader_init _ _ _ e1) as [g2 e2].
  destruct (seqReader_init _ _ _ e2) as [g3 e3].
  destruct (init_loop_panics p
              (Returned (mkInitState (tagFamilies srs0) (tagFamilyMetadata srs0) e3 pool0))
              (p_tagFamilies p)) as [msg ->]; eauto.
Qed.

End ReaderGroupProperties.

Section ReaderGroupWitnesses.
Import Errors Measure Filepath Readers Pool ReaderGroup.

Lemma example_part_metadata (k : string) (r : Reader) :
  p_tagFamilies example_part !! k = Some r ->
  is_Some (p_tagFamilyMetadata example_part !! k).
Proof.
  cbn [example_part p_tagFamilies p_tagFamilyMetadata]. intros H.
  apply lookup_singleton_Some in H as [<- _].
  rewrite lookup_singleton_eq. eauto.
Qed.

Lemma seqReaders_init_opens_every_file_witness :
  exists srs e1 pool1,
    seqReaders_init "idx" (fun _ => None) example_part zero_seqReaders
                    (mkEnv (Fadvis.mkWorld 10 (fun _ => None) []) 0 0) []
    = Returned (srs, e1, pool1) /\
    opened e1 = 5%nat /\ closed e1 = 0%nat.
Proof.
  destruct (seqReaders_init_opens_every_file "idx" (fun _ => None) example_part
              (mkEnv (Fadvis.mkWorld 10 (fun _ => None) []) 0 0) []
              ltac:(constructor) example_part_metadata)
    as (srs & e1 & pool1 & Hinit & _ & _ & _ & _ & _ & Ho & Hc).
  exists srs, e1, pool1. split; [exact Hinit|]. split; [exact Ho|exact Hc].
Defined.

Lemma seqReaders_reset_after_init_witness :
  exists srs e1 pool1 e2 pool2,
    seqReaders_init "idx" (fun _ => None) example_part zero_seqReaders
                    (mkEnv (Fadvis.mkWorld 10 (fun _ => None) []) 0 0) []
    = Returned (srs, e1, pool1) /\
    seqReaders_reset "idx" srs e1 pool1 = (zero_seqReaders, e2, pool2) /\
    length pool2 = (length pool1 + 2)%nat.
Proof.
  destruct (seqReaders_init_returns "idx" (fun _ => None) example_part
              (mkEnv (Fadvis.mkWorld 10 (fun _ => None) []) 0 0) []
              ltac:(constructor) example_part_metadata)
    as (srs & e1 & pool1 & Hinit & _).
  destruct (seqReaders_reset_after_init "idx" (fun _ => None) example_part
              (mkEnv (Fadvis.mkWorld 10 (fun _ => None) []) 0 0) [] srs e1 pool1
              ltac:(constructor) example_part_metadata Hinit)
    as (e2 & pool2 & Hreset & _ & _ & _ & Hlen).
  exists srs, e1, pool1, e2, pool2.
  split; [exact Hinit|]. split; [exact Hreset|exact Hlen].
Defined.

Lemma seqReaders_init_panics_without_metadata_witness :
  exists msg,
    seqReaders_init "idx" (fun _ => None)
      (mkPart (p_primary example_part) (p_timestamps example_part)
              (p_fieldValues example_part) (p_tagFamilies example_part) ∅)
      zero_seqReaders (mkEnv (Fadvis.mkWorld 10 (fun _ => None) []) 0 0) []
    = Panicked msg.
Proof.
  apply (seqReaders_init_panics_without_metadata "idx" (fun _ => None) _ _ _ _
           "searchable" (mkReader "data/searchable.tf" (mkSeqReader [] Errors.EOF))).
  - cbn [p_tagFamilies example_part]. apply lookup_singleton_eq.
  - cbn [p_tagFamilyMetadata]. apply lookup_empty.
Defined.

End ReaderGroupWitnesses.
